(** * GoogleSheetsSecureAPI: the signed-request client of [gs_secure_api_cdn.js]

    A shallow embedding of the class [GoogleSheetsSecureAPI] and of the parts
    of the JavaScript platform it relies on, followed by the properties of the
    component stated in the repository's specification. *)

From Stdlib Require Import ZArith List Bool Lia String Ascii.
From Stdlib Require Import Permutation Sorted DecimalString.
Import ListNotations.
Local Open Scope Z_scope.
Set Warnings "-register-all".

(* ================================================================= *)
(** ** The JavaScript values the client manipulates *)

Module JS.

(** A JavaScript string is a sequence of 16-bit UTF-16 code units. *)
Definition jsstring := list Z.

(** An ASCII literal of the source, as code units. *)
Definition lit (s : string) : jsstring :=
  map (fun a => Z.of_N (N_of_ascii a)) (list_ascii_of_string s).

(** [a < b] on strings (IsLessThan): the first differing code unit decides,
    a proper prefix is smaller. *)
Fixpoint str_ltb (a b : jsstring) : bool :=
  match a, b with
  | [], [] => false
  | [], _ :: _ => true
  | _ :: _, [] => false
  | x :: a', y :: b' =>
      if x <? y then true else if y <? x then false else str_ltb a' b'
  end.

Definition is_high_surrogate (c : Z) : bool := (0xD800 <=? c) && (c <=? 0xDBFF).
Definition is_low_surrogate (c : Z) : bool := (0xDC00 <=? c) && (c <=? 0xDFFF).
Definition is_surrogate (c : Z) : bool := (0xD800 <=? c) && (c <=? 0xDFFF).

(** The Unicode code points a string denotes: a high surrogate followed by
    a low one stands for one supplementary code point, any other code unit
    for itself. *)
Fixpoint code_points (s : jsstring) : list Z :=
  match s with
  | [] => []
  | c :: rest =>
      if is_high_surrogate c then
        match rest with
        | d :: rest' =>
            if is_low_surrogate d
            then ((c - 0xD800) * 0x400 + (d - 0xDC00) + 0x10000)
                 :: code_points rest'
            else c :: code_points rest
        | [] => [c]
        end
      else c :: code_points rest
  end.

(** The order of the specification's wording: strings compared code point
    by code point. *)
Definition codepoint_ltb (a b : jsstring) : bool :=
  str_ltb (code_points a) (code_points b).

(** [le_of lt a b]: [b] is not smaller than [a]. *)
Definition le_of {A : Type} (lt : A -> A -> bool) (a b : A) : Prop :=
  lt b a = false.

Definition str_eqb (a b : jsstring) : bool :=
  if list_eq_dec Z.eq_dec a b then true else false.

(** Insertion into a list ordered by [lt], after the elements that are
    smaller than [x]. *)
Fixpoint insert_by {A : Type} (lt : A -> A -> bool) (x : A) (l : list A)
  : list A :=
  match l with
  | [] => [x]
  | y :: l' => if lt y x then y :: insert_by lt x l' else x :: l
  end.

Definition sort_by {A : Type} (lt : A -> A -> bool) (l : list A) : list A :=
  fold_right (insert_by lt) [] l.

(** [Array.prototype.sort()] without a comparator, on an array of strings:
    ascending in the order of [str_ltb].  Equal strings are indistinguishable,
    so the result does not depend on the sorting algorithm of the engine. *)
Definition Array_sort (l : list jsstring) : list jsstring :=
  sort_by str_ltb l.

(** [Array.prototype.join(sep)] on an array of strings. *)
Fixpoint Array_join (sep : jsstring) (l : list jsstring) : jsstring :=
  match l with
  | [] => []
  | [x] => x
  | x :: l' => x ++ sep ++ Array_join sep l'
  end.

(** An ordinary object whose property values are strings: the properties in
    creation order.  A parameter value that is not a string is represented by
    its image under ToString, which is all that the template literal of
    [createSignature] and [URLSearchParams.append] look at. *)
Definition obj := list (jsstring * jsstring).

Definition keys_of (o : obj) : list jsstring := map fst o.

(** A list of properties is an object when no key occurs twice. *)
Definition wf_obj (o : obj) : Prop := NoDup (keys_of o).

(** [o[k]] *)
Fixpoint get (o : obj) (k : jsstring) : option jsstring :=
  match o with
  | [] => None
  | (k', v) :: o' => if str_eqb k' k then Some v else get o' k
  end.

(** [o[k] = v]: an existing property keeps its place, a new one goes last. *)
Fixpoint set (o : obj) (k v : jsstring) : obj :=
  match o with
  | [] => [(k, v)]
  | (k', v') :: o' =>
      if str_eqb k' k then (k', v) :: o' else (k', v') :: set o' k v
  end.

(** Template-literal interpolation of a property read. *)
Definition interpolate (v : option jsstring) : jsstring :=
  match v with
  | Some s => s
  | None => lit "undefined"
  end.

Definition is_digit (c : Z) : bool := (48 <=? c) && (c <=? 57).

Fixpoint digits_value (acc : Z) (s : jsstring) : option Z :=
  match s with
  | [] => Some acc
  | c :: s' =>
      if is_digit c then digits_value (10 * acc + (c - 48)) s' else None
  end.

(** A key is an array index when it is the canonical decimal numeral of an
    integer below 2^32 - 1. *)
Definition array_index (k : jsstring) : option Z :=
  match k with
  | [] => None
  | c :: rest =>
      if (c =? 48) && negb (match rest with [] => true | _ => false end)
      then None
      else match digits_value 0 k with
           | Some n => if n <? 4294967295 then Some n else None
           | None => None
           end
  end.

Definition is_index (k : jsstring) : bool :=
  match array_index k with Some _ => true | None => false end.

(** The keys that are array indices, each with its numeric value. *)
Fixpoint index_entries (ks : list jsstring) : list (Z * jsstring) :=
  match ks with
  | [] => []
  | k :: ks' =>
      match array_index k with
      | Some n => (n, k) :: index_entries ks'
      | None => index_entries ks'
      end
  end.

Definition entry_ltb (a b : Z * jsstring) : bool := fst a <? fst b.

(** An entry pairs an array index with its numeric value. *)
Definition indexed (e : Z * jsstring) : Prop :=
  array_index (snd e) = Some (fst e).

(** OrdinaryOwnPropertyKeys on the keys in creation order: array indices in
    ascending numeric order, then the other keys in creation order. *)
Definition OwnPropertyKeys (ks : list jsstring) : list jsstring :=
  map snd (sort_by entry_ltb (index_entries ks))
  ++ filter (fun k => negb (is_index k)) ks.

(** [Object.keys(o)] *)
Definition Object_keys (o : obj) : list jsstring := OwnPropertyKeys (keys_of o).

(** [{...o}]: the own properties of [o] are defined on a fresh object in the
    order of its own property keys. *)
Definition spread (o : obj) : obj :=
  fold_left (fun acc k => set acc k (interpolate (get o k))) (Object_keys o) [].

(** The decimal numeral of an integer. *)
Definition decimal (n : Z) : jsstring :=
  lit (NilZero.string_of_int (Z.to_int n)).

(** The Number value of a positive integer [m]: the nearest double, a tie
    going to the even significand of 53 bits. *)
Definition nearest_double (m : Z) : Z :=
  let e := Z.log2 m in
  if e <=? 52 then m
  else
    let shift := e - 52 in
    let q := Z.shiftr m shift in
    let rest := m - Z.shiftl q shift in
    let half := Z.shiftl 1 (shift - 1) in
    Z.shiftl (if (half <? rest) || ((rest =? half) && Z.odd q)
              then q + 1 else q)
             shift.

(** The first double that is too large to be finite. *)
Definition double_overflow : Z := 2 ^ 1024.

(** Number::toString looks for the fewest significant digits that still
    denote the double [v] of [size] decimal digits, and among numerals of
    that length for the one closest to [v]: with [k] digits the candidates
    are the multiples of [10 ^ (size - k)] on either side of [v]. *)
Fixpoint shortest_from (fuel : nat) (k size v : Z) : Z :=
  match fuel with
  | O => v
  | S fuel' =>
      if size <=? k then v
      else
        let p := 10 ^ (size - k) in
        let below := (v / p) * p in
        let above := below + p in
        let denotes c := nearest_double c =? v in
        if denotes below && denotes above then
          if v - below <? above - v then below
          else if above - v <? v - below then above
          else if Z.even (below / p) then below else above
        else if denotes below then below
        else if denotes above then above
        else shortest_from fuel' (k + 1) size v
  end.

(** Seventeen digits denote every double. *)
Definition shortest (v : Z) : Z :=
  shortest_from 17 1 (Z.of_nat (List.length (decimal v))) v.

Fixpoint drop_zeros (s : jsstring) : jsstring :=
  match s with
  | c :: s' => if c =? 48 then drop_zeros s' else s
  | [] => []
  end.

(** The digits of a numeral without the zeros that end it. *)
Definition significant (s : jsstring) : jsstring := rev (drop_zeros (rev s)).

(** Number::toString of a positive integer double, given by the numeral
    [c] that denotes it: in full up to 21 digits, in exponent form above. *)
Definition render (c : Z) : jsstring :=
  let digits := decimal c in
  let n := Z.of_nat (List.length digits) in
  if n <=? 21 then digits
  else
    match significant digits with
    | [] => digits
    | [d] => [d] ++ lit "e+" ++ decimal (n - 1)
    | d :: more => [d] ++ lit "." ++ more ++ lit "e+" ++ decimal (n - 1)
    end.

Definition positive_toString (m : Z) : jsstring :=
  let v := nearest_double m in
  if double_overflow <=? v then lit "Infinity" else render (shortest v).

(** [Number.prototype.toString()] of the Number that the integer [n]
    denotes.  A safe integer prints as its decimal numeral. *)
Definition Number_toString (n : Z) : jsstring :=
  if n =? 0 then lit "0"
  else if n <? 0 then lit "-" ++ positive_toString (- n)
  else positive_toString n.

(** Decoded JSON (the result of [response.json()]).  A number is given by an
    integer numeral: [JNum n] is the Number that [n] denotes, and numbers
    with a fraction are not represented. *)
Inductive json : Type :=
| JNull
| JBool (b : bool)
| JNum (n : Z)
| JStr (s : jsstring)
| JArr (l : list json)
| JObj (o : list (jsstring * json)).

Fixpoint json_lookup (o : list (jsstring * json)) (k : jsstring)
  : option json :=
  match o with
  | [] => None
  | (k', v) :: o' => if str_eqb k' k then Some v else json_lookup o' k
  end.

(** ToBoolean of [v || ...], where [None] is [undefined]. *)
Definition truthy (v : option json) : bool :=
  match v with
  | None => false
  | Some JNull => false
  | Some (JBool b) => b
  | Some (JNum n) => negb (n =? 0)
  | Some (JStr s) => match s with [] => false | _ => true end
  | Some (JArr _) => true
  | Some (JObj _) => true
  end.

(** An exception value: an [Error] object with its [name] and [message]. *)
Record JsError : Type := mkError { name : jsstring; message : jsstring }.

(** [new Error(msg)] for a string [msg]. *)
Definition Error (msg : jsstring) : JsError := mkError (lit "Error") msg.

(** The outcome of evaluating an expression or of settling a promise. *)
Inductive completion (A : Type) : Type :=
| Normal (a : A)
| Throw (e : JsError).
Arguments Normal {A} a.
Arguments Throw {A} e.

(** The TypeError of OrdinaryToPrimitive (with the message V8 gives it). *)
Definition conversion_error : JsError :=
  mkError (lit "TypeError") (lit "Cannot convert object to primitive value").

(** A decoded object has a property of its own under [key]. *)
Definition has_own (o : list (jsstring * json)) (key : string) : bool :=
  match json_lookup o (lit key) with Some _ => true | None => false end.

(** ToString of a decoded JSON value.  An array is joined with commas, a
    [null] element giving the empty string.  An object gives
    "[object Object]" through [Object.prototype.toString], unless it has a
    [toString] property of its own: a decoded value is never callable, so
    the conversion then falls back on [valueOf], which returns the object,
    and throws.  The elements of an array are converted in order and the
    first that throws ends the conversion. *)
Fixpoint ToString (v : json) : completion jsstring :=
  match v with
  | JNull => Normal (lit "null")
  | JBool true => Normal (lit "true")
  | JBool false => Normal (lit "false")
  | JNum n => Normal (Number_toString n)
  | JStr s => Normal s
  | JArr l =>
      (fix join (l : list json) : completion jsstring :=
         match l with
         | [] => Normal []
         | x :: rest =>
             match (match x with JNull => Normal [] | _ => ToString x end) with
             | Throw e => Throw e
             | Normal s =>
                 match rest with
                 | [] => Normal s
                 | _ =>
                     match join rest with
                     | Throw e => Throw e
                     | Normal t => Normal (s ++ lit "," ++ t)
                     end
                 end
             end
         end) l
  | JObj o =>
      if has_own o "toString" then Throw conversion_error
      else Normal (lit "[object Object]")
  end.

(** A [URL] object: the address without its query, and its search
    parameters in order. *)
Record URL : Type := mkURL {
  address : jsstring;
  searchParams : list (jsstring * jsstring)
}.

(** The conversion of an integer to the [long] of Web IDL, the type of the
    delay of [setTimeout] in a browser: modulo 2^32 into the signed 32-bit
    range.  The timer then counts a negative delay as zero, so that a delay
    from 2^31 to 2^32 - 1 fires at once. *)
Definition ConvertToLong (n : Z) : Z := (n + 2 ^ 31) mod 2 ^ 32 - 2 ^ 31.

(** [url.searchParams.append(k, v)] *)
Definition searchParams_append (u : URL) (k v : jsstring) : URL :=
  mkURL (address u) (searchParams u ++ [(k, v)]).

End JS.

(* ================================================================= *)
(** ** The keyed hash supplied by the host page *)

(** The CryptoJS library is loaded by the page from a CDN and is not part of
    the repository.  This module holds what the client uses of it: the UTF-8
    conversion of string arguments, SHA-256 (FIPS 180-4), HMAC (RFC 2104) and
    the hexadecimal rendering of a digest. *)
Module CryptoJS.
Import JS.

(** UTF-8 bytes of one code point. *)
Definition utf8_bytes (cp : Z) : list Z :=
  if cp <? 0x80 then [cp]
  else if cp <? 0x800 then
    [Z.lor 0xC0 (Z.shiftr cp 6); Z.lor 0x80 (Z.land cp 0x3F)]
  else if cp <? 0x10000 then
    [Z.lor 0xE0 (Z.shiftr cp 12);
     Z.lor 0x80 (Z.land (Z.shiftr cp 6) 0x3F);
     Z.lor 0x80 (Z.land cp 0x3F)]
  else
    [Z.lor 0xF0 (Z.shiftr cp 18);
     Z.lor 0x80 (Z.land (Z.shiftr cp 12) 0x3F);
     Z.lor 0x80 (Z.land (Z.shiftr cp 6) 0x3F);
     Z.lor 0x80 (Z.land cp 0x3F)].

(** [Utf8.parse(s)], that is [unescape(encodeURIComponent(s))]: the UTF-8
    bytes of [s], or [None] where [encodeURIComponent] throws a [URIError]
    because a surrogate code unit is not part of a pair. *)
Fixpoint Utf8_parse (s : jsstring) : option (list Z) :=
  match s with
  | [] => Some []
  | c :: rest =>
      if is_low_surrogate c then None
      else if is_high_surrogate c then
        match rest with
        | d :: rest' =>
            if is_low_surrogate d then
              match Utf8_parse rest' with
              | Some bs =>
                  Some (utf8_bytes ((c - 0xD800) * 0x400 + (d - 0xDC00) + 0x10000)
                        ++ bs)
              | None => None
              end
            else None
        | [] => None
        end
      else
        match Utf8_parse rest with
        | Some bs => Some (utf8_bytes c ++ bs)
        | None => None
        end
  end.

(** The exception of [encodeURIComponent], with the message V8 gives it. *)
Definition URIError : JsError := mkError (lit "URIError") (lit "URI malformed").

(** *** SHA-256 on 32-bit words *)

Definition w32 (x : Z) : Z := x mod 2 ^ 32.
Definition add32 (x y : Z) : Z := w32 (x + y).
Definition rotr (n x : Z) : Z :=
  Z.lor (Z.shiftr x n) (w32 (Z.shiftl x (32 - n))).
Definition not32 (x : Z) : Z := Z.lxor x 0xFFFFFFFF.

Definition Ch (x y z : Z) : Z := Z.lxor (Z.land x y) (Z.land (not32 x) z).
Definition Maj (x y z : Z) : Z :=
  Z.lxor (Z.lxor (Z.land x y) (Z.land x z)) (Z.land y z).
Definition Sigma0 (x : Z) : Z :=
  Z.lxor (Z.lxor (rotr 2 x) (rotr 13 x)) (rotr 22 x).
Definition Sigma1 (x : Z) : Z :=
  Z.lxor (Z.lxor (rotr 6 x) (rotr 11 x)) (rotr 25 x).
Definition gamma0 (x : Z) : Z :=
  Z.lxor (Z.lxor (rotr 7 x) (rotr 18 x)) (Z.shiftr x 3).
Definition gamma1 (x : Z) : Z :=
  Z.lxor (Z.lxor (rotr 17 x) (rotr 19 x)) (Z.shiftr x 10).

(** The first 64 primes. *)
Definition primes : list Z :=
  [2; 3; 5; 7; 11; 13; 17; 19; 23; 29; 31; 37; 41; 43; 47; 53; 59; 61; 67;
   71; 73; 79; 83; 89; 97; 101; 103; 107; 109; 113; 127; 131; 137; 139; 149;
   151; 157; 163; 167; 173; 179; 181; 191; 193; 197; 199; 211; 223; 227;
   229; 233; 239; 241; 251; 257; 263; 269; 271; 277; 281; 283; 293; 307;
   311].

(** Integer cube root below 2^[bits], one bit at a time. *)
Fixpoint cube_root (bits : nat) (r n : Z) : Z :=
  match bits with
  | O => r
  | S bits' =>
      let r' := r + 2 ^ Z.of_nat bits' in
      cube_root bits' (if r' * r' * r' <=? n then r' else r) n
  end.

(** The round constants: the first 32 bits of the fractional parts of the
    cube roots of the first 64 primes. *)
Definition K : list Z :=
  Eval vm_compute in map (fun p => w32 (cube_root 36 0 (p * 2 ^ 96))) primes.

(** The eight working words of the hash. *)
Record hash : Type := mkHash {
  h_a : Z; h_b : Z; h_c : Z; h_d : Z; h_e : Z; h_f : Z; h_g : Z; h_h : Z
}.

(** The first 32 bits of the fractional part of a square root. *)
Definition root_word (p : Z) : Z := w32 (Z.sqrt (p * 2 ^ 64)).

(** The initial hash value: the first 32 bits of the fractional parts of the
    square roots of the first 8 primes. *)
Definition H_init : hash :=
  Eval vm_compute in
    mkHash (root_word 2) (root_word 3) (root_word 5) (root_word 7)
           (root_word 11) (root_word 13) (root_word 17) (root_word 19).

(** Padding: a 1 bit, zeros up to 56 bytes modulo 64, then the bit length
    as a 64-bit big-endian integer. *)
Definition be_bytes (count : nat) (x : Z) : list Z :=
  map (fun i => Z.land (Z.shiftr x (8 * Z.of_nat i)) 0xFF) (rev (seq 0 count)).

Definition pad (msg : list Z) : list Z :=
  let len := Z.of_nat (List.length msg) in
  let zeros := Z.to_nat ((55 - len) mod 64) in
  msg ++ [0x80] ++ repeat 0 zeros ++ be_bytes 8 (8 * len).

(** Big-endian 32-bit words of a byte sequence. *)
Fixpoint words_of (bs : list Z) : list Z :=
  match bs with
  | b0 :: b1 :: b2 :: b3 :: rest =>
      (Z.shiftl b0 24 + Z.shiftl b1 16 + Z.shiftl b2 8 + b3) :: words_of rest
  | _ => []
  end.

(** The message schedule, most recent word first: [rw] holds
    W[i-1], W[i-2], ... *)
Definition next_W (rw : list Z) : Z :=
  add32 (add32 (add32 (gamma0 (nth 14 rw 0)) (nth 6 rw 0)) (gamma1 (nth 1 rw 0)))
        (nth 15 rw 0).

Fixpoint extend_W (count : nat) (rw : list Z) : list Z :=
  match count with
  | O => rw
  | S count' => extend_W count' (next_W rw :: rw)
  end.

Definition schedule (block : list Z) : list Z :=
  rev (extend_W 48 (rev block)).

Definition round (s : hash) (kw : Z * Z) : hash :=
  let t1 := add32 (add32 (add32 (add32 (h_h s) (Sigma1 (h_e s)))
                                (Ch (h_e s) (h_f s) (h_g s))) (fst kw)) (snd kw) in
  let t2 := add32 (Sigma0 (h_a s)) (Maj (h_a s) (h_b s) (h_c s)) in
  mkHash (add32 t1 t2) (h_a s) (h_b s) (h_c s)
         (add32 (h_d s) t1) (h_e s) (h_f s) (h_g s).

Definition process_block (H : hash) (block : list Z) : hash :=
  let s := fold_left round (combine K (schedule block)) H in
  mkHash (add32 (h_a H) (h_a s)) (add32 (h_b H) (h_b s))
         (add32 (h_c H) (h_c s)) (add32 (h_d H) (h_d s))
         (add32 (h_e H) (h_e s)) (add32 (h_f H) (h_f s))
         (add32 (h_g H) (h_g s)) (add32 (h_h H) (h_h s)).

Fixpoint process_blocks (count : nat) (H : hash) (ws : list Z) : hash :=
  match count with
  | O => H
  | S count' =>
      process_blocks count' (process_block H (firstn 16 ws)) (skipn 16 ws)
  end.

Definition SHA256 (msg : list Z) : hash :=
  let ws := words_of (pad msg) in
  process_blocks (Nat.div (List.length ws) 16) H_init ws.

Definition hash_words (H : hash) : list Z :=
  [h_a H; h_b H; h_c H; h_d H; h_e H; h_f H; h_g H; h_h H].

Definition hash_bytes (H : hash) : list Z :=
  flat_map (be_bytes 4) (hash_words H).

(** *** HMAC *)

Definition HMAC_SHA256 (key msg : list Z) : hash :=
  let key := if (64 <? Z.of_nat (List.length key))%Z
             then hash_bytes (SHA256 key) else key in
  let key := key ++ repeat 0 (64 - List.length key) in
  let iKey := map (Z.lxor 0x36) key in
  let oKey := map (Z.lxor 0x5c) key in
  SHA256 (oKey ++ hash_bytes (SHA256 (iKey ++ msg))).

(** *** Hex rendering of a digest *)

Definition hex_digit (n : Z) : Z := if n <? 10 then 48 + n else 87 + n.

(** The characters [0-9a-f]. *)
Definition is_lower_hex (c : Z) : bool :=
  ((48 <=? c) && (c <=? 57)) || ((97 <=? c) && (c <=? 102)).

Definition Hex_stringify (bs : list Z) : jsstring :=
  flat_map (fun b => [hex_digit (Z.shiftr b 4 mod 16); hex_digit (b mod 16)]) bs.

(** Modelled from the spec: [CryptoJS.HmacSHA256(message, key).toString()],
    which is absent from the repository, is the HMAC-SHA256 of the UTF-8
    bytes of [message] keyed by the UTF-8 bytes of [key], as a lowercase
    hexadecimal string.  The key is converted first. *)
Definition HmacSHA256_toString (message key : jsstring) : completion jsstring :=
  match Utf8_parse key, Utf8_parse message with
  | Some k, Some m => Normal (Hex_stringify (hash_bytes (HMAC_SHA256 k m)))
  | _, _ => Throw URIError
  end.

End CryptoJS.

(* ================================================================= *)
(** ** The class [GoogleSheetsSecureAPI] *)

Module GoogleSheetsSecureAPI.
Import JS CryptoJS.

(** [this.config].  The fields carry the types of the documented
    configuration surface: three strings, a boolean and an integer number of
    milliseconds. *)
Record Config : Type := mkConfig {
  scriptUrl : jsstring;
  apiToken : jsstring;
  hmacSecret : jsstring;
  debug : bool;
  timeout : Z
}.

(** The argument of the constructor and of [configure]: any subset of the
    configuration fields ([None] is an absent property). *)
Record Options : Type := mkOptions {
  opt_scriptUrl : option jsstring;
  opt_apiToken : option jsstring;
  opt_hmacSecret : option jsstring;
  opt_debug : option bool;
  opt_timeout : option Z
}.

(** An HTTP response as [request] reads it: its status code, the outcome of
    [response.json()] and the milliseconds that reading and decoding the
    body takes.  A body that never ends, on which [response.json()] would
    never settle, is not represented. *)
Record Response : Type := mkResponse {
  status : Z;
  body : completion json;
  decoding : Z
}.

(** [response.ok] *)
Definition ok (r : Response) : bool := (200 <=? status r) && (status r <=? 299).

(** What the network does with one [fetch]: after [latency] milliseconds it
    answers or fails, or it stays silent for ever. *)
Inductive FetchBehaviour : Type :=
| Responds (latency : Z) (r : Response)
| Fails (latency : Z) (e : JsError)
| Silent.

(** The page the script runs in: the [URL] parser of the platform, the
    origin of the page, whether the CryptoJS global is defined, the
    network, where [network n url] is the behaviour of the [fetch] of [url]
    issued after [n] earlier ones, and the timers of the platform, where
    [timer_delay d] is the number of milliseconds after which a timer set
    with the delay [d] fires.  The delay of a timer is a 32-bit integer: a
    browser reduces [d] to it with [ConvertToLong], so that a delay above
    2^31 - 1 is not honoured. *)
Record Host : Type := mkHost {
  URL_parse : jsstring -> option URL;
  location_origin : jsstring;
  CryptoJS_defined : bool;
  network : nat -> URL -> FetchBehaviour;
  timer_delay : Z -> Z
}.

Inductive LogArg : Type :=
| LStr (s : jsstring)
| LErr (e : JsError)
| LObj (o : obj)
| LJson (j : json)
| LUrl (u : URL).

(** The observable actions of the client, in the order they happen. *)
Inductive Event : Type :=
| console_warn (args : list LogArg)
| console_error (args : list LogArg)
| console_log (args : list LogArg)
| timer_set (delay : Z)
| timer_cleared
| fetch_start (u : URL)
| fetch_aborted.

(** The instance and the part of the world that changes. *)
Record State : Type := mkState {
  this_config : Config;
  clock : Z;
  fetches : nat;
  trace : list Event
}.

(** Computations that read and change the state and complete normally or
    by throwing. *)
Definition M (A : Type) : Type := State -> completion A * State.

Definition ret {A : Type} (a : A) : M A := fun st => (Normal a, st).

Definition throw {A : Type} (e : JsError) : M A := fun st => (Throw e, st).

Definition bind {A B : Type} (m : M A) (k : A -> M B) : M B :=
  fun st =>
    match m st with
    | (Normal a, st') => k a st'
    | (Throw e, st') => (Throw e, st')
    end.

Notation "x <- m ;; k" := (bind m (fun x => k))
  (at level 61, m at next level, right associativity).
Notation "m ;; k" := (bind m (fun _ => k))
  (at level 61, right associativity).

(** [try { body } catch (error) { handler }] *)
Definition try_catch {A : Type} (body : M A) (handler : JsError -> M A) : M A :=
  fun st =>
    match body st with
    | (Normal a, st') => (Normal a, st')
    | (Throw e, st') => handler e st'
    end.

Definition lift {A : Type} (c : completion A) : M A := fun st => (c, st).

Definition when (b : bool) (m : M unit) : M unit := if b then m else ret tt.

Definition emit (e : Event) : M unit :=
  fun st =>
    (Normal tt,
     mkState (this_config st) (clock st) (fetches st) (trace st ++ [e])).

Definition get_config : M Config := fun st => (Normal (this_config st), st).

Definition set_config (c : Config) : M unit :=
  fun st => (Normal tt, mkState c (clock st) (fetches st) (trace st)).

(** [Date.now()] *)
Definition Date_now : M Z := fun st => (Normal (clock st), st).

(** ToBoolean of a string. *)
Definition nonempty (s : jsstring) : bool :=
  match s with [] => false | _ => true end.

Section Client.

Variable host : Host.

(** [new URL(s)] *)
Definition new_URL (s : jsstring) : M URL :=
  match URL_parse host s with
  | Some u => ret u
  | None => throw (mkError (lit "TypeError") (lit "Invalid URL"))
  end.

Definition AbortError : JsError :=
  mkError (lit "AbortError") (lit "The user aborted a request.").

(** The time the platform lets pass before a timer set with [delay] fires. *)
Definition honoured (delay : Z) : Z := Z.max 0 (timer_delay host delay).

(** [new AbortController()] with [setTimeout(() => controller.abort(), delay)]:
    the signal is represented by the instant at which the timer aborts it. *)
Definition setTimeout_abort (delay : Z) : M Z :=
  fun st =>
    (Normal (clock st + honoured delay),
     mkState (this_config st) (clock st) (fetches st)
             (trace st ++ [timer_set delay])).

Definition clearTimeout : M unit := emit timer_cleared.

(** [await fetch(url, {method: 'GET', signal})]: whichever of the network's
    answer and the abort timer comes first settles the promise; an answer
    arriving by the deadline wins. *)
Definition fetch (url : URL) (signal : Z) : M Response :=
  fun st =>
    let issued := trace st ++ [fetch_start url] in
    let settled (t : Z) :=
      mkState (this_config st) (clock st + Z.max 0 t) (S (fetches st)) issued in
    let aborted : completion Response * State :=
      (Throw AbortError,
       mkState (this_config st) (Z.max (clock st) signal) (S (fetches st))
               (issued ++ [fetch_aborted])) in
    match network host (fetches st) url with
    | Responds t r =>
        if clock st + Z.max 0 t <=? signal then (Normal r, settled t)
        else aborted
    | Fails t e =>
        if clock st + Z.max 0 t <=? signal then (Throw e, settled t)
        else aborted
    | Silent => aborted
    end.

(** [await response.json()]: the body is read and decoded, which takes its
    time and settles with the decoded value or with the error of the
    decoder.  No timer runs meanwhile. *)
Definition response_json (response : Response) : M json :=
  fun st =>
    (body response,
     mkState (this_config st) (clock st + Z.max 0 (decoding response))
             (fetches st) (trace st)).

(** [data.key] on a decoded body, for the keys [status] and [message]:
    reading a property of [null] throws a TypeError (with the message V8
    gives it), a property that does not exist reads as [undefined] ([None]);
    numbers, strings, booleans and arrays have neither property. *)
Definition get_property (data : json) (key : string) : M (option json) :=
  match data with
  | JNull =>
      throw (mkError (lit "TypeError")
               (lit "Cannot read properties of null (reading '"
                ++ lit key ++ lit "')"))
  | JObj o => ret (json_lookup o (lit key))
  | _ => ret None
  end.

(** [v === 'success'] *)
Definition is_success (v : option json) : bool :=
  match v with
  | Some (JStr s) => str_eqb s (lit "success")
  | _ => false
  end.

(** [validateConfig()] *)
Definition validateConfig : M unit :=
  c <- get_config ;;
  when (negb (nonempty (scriptUrl c)))
    (emit (console_warn
       [LStr (lit "GoogleSheetsSecureAPI: scriptUrl not configured")])) ;;
  when (negb (nonempty (apiToken c)))
    (emit (console_warn
       [LStr (lit "GoogleSheetsSecureAPI: apiToken not configured")])) ;;
  when (negb (nonempty (hmacSecret c)))
    (emit (console_warn
       [LStr (lit "GoogleSheetsSecureAPI: hmacSecret not configured")])) ;;
  if negb (CryptoJS_defined host) then
    throw (Error (lit "CryptoJS is required. Please include: https://cdnjs.cloudflare.com/ajax/libs/crypto-js/4.1.1/crypto-js.min.js"))
  else ret tt.

(** [a || b] on the fields of the constructor's argument. *)
Definition or_string (a : option jsstring) (b : jsstring) : jsstring :=
  match a with
  | Some s => if nonempty s then s else b
  | None => b
  end.

Definition or_bool (a : option bool) (b : bool) : bool :=
  match a with
  | Some true => true
  | _ => b
  end.

Definition or_number (a : option Z) (b : Z) : Z :=
  match a with
  | Some n => if n =? 0 then b else n
  | None => b
  end.

(** [constructor(config = {})] *)
Definition constructor (config : Options) : M unit :=
  set_config
    (mkConfig (or_string (opt_scriptUrl config) [])
              (or_string (opt_apiToken config) [])
              (or_string (opt_hmacSecret config) [])
              (or_bool (opt_debug config) false)
              (or_number (opt_timeout config) 30000)) ;;
  validateConfig.

(** One field of [{ ...this.config, ...config }]. *)
Definition merged {A : Type} (current : A) (update : option A) : A :=
  match update with
  | Some v => v
  | None => current
  end.

(** [configure(config)] *)
Definition configure (config : Options) : M unit :=
  c <- get_config ;;
  set_config
    (mkConfig (merged (scriptUrl c) (opt_scriptUrl config))
              (merged (apiToken c) (opt_apiToken config))
              (merged (hmacSecret c) (opt_hmacSecret config))
              (merged (debug c) (opt_debug config))
              (merged (timeout c) (opt_timeout config))) ;;
  validateConfig.

(** [computeHMAC(params, secret)] *)
Definition computeHMAC (params secret : jsstring) : completion jsstring :=
  HmacSHA256_toString params secret.

(** The local [sortedKeys] of [createSignature]. *)
Definition sortedKeys (params : obj) : list jsstring :=
  Array_sort (Object_keys params).

(** The local [signatureString] of [createSignature]. *)
Definition signatureString (params : obj) : jsstring :=
  Array_join (lit "&")
    (map (fun key => key ++ lit "=" ++ interpolate (get params key))
         (sortedKeys params)).

(** [createSignature(params, secret)] *)
Definition createSignature (params : obj) (secret : jsstring)
  : completion jsstring :=
  computeHMAC (signatureString params) secret.

(** The object literal that initialises [requestParams] in [request]. *)
Definition securityParams (c : Config) (now : Z) (params : obj) : obj :=
  set (set (set (set (spread params)
    (lit "token") (apiToken c))
    (lit "timestamp") (Number_toString now))
    (lit "referrer") (location_origin host))
    (lit "origin") (location_origin host).

(** The [forEach] of [request] that fills the query of the URL. *)
Definition appendAll (requestParams : obj) (url : URL) : URL :=
  fold_left
    (fun u key => searchParams_append u key (interpolate (get requestParams key)))
    (Object_keys requestParams) url.

Definition incomplete_message : jsstring :=
  lit "API configuration incomplete. Please set scriptUrl, apiToken, and hmacSecret.".

(** The part of [request] that follows [await fetch(...)] inside the [try]
    block: from [clearTimeout(timeoutId)] to the end of the block. *)
Definition request_response (c : Config) (response : Response) : M json :=
  clearTimeout ;;
  if negb (ok response) then
    throw (Error (lit "HTTP error! Status: "
                  ++ Number_toString (status response)))
  else
    data <- response_json response ;;
    data_status <- get_property data "status" ;;
    if is_success data_status then
      when (debug c)
        (emit (console_log
           [LStr (lit "GoogleSheetsSecureAPI: Request successful:");
            LJson data])) ;;
      ret data
    else
      data_message <- get_property data "message" ;;
      text <- lift (match data_message with
                    | Some m => if truthy data_message then ToString m
                                else Normal (lit "Request failed")
                    | None => Normal (lit "Request failed")
                    end) ;;
      throw (Error text).

(** The [catch (error)] block of [request]. *)
Definition request_catch (error : JsError) : M json :=
  if str_eqb (name error) (lit "AbortError") then
    emit (console_error
       [LStr (lit "GoogleSheetsSecureAPI: Request timeout")]) ;;
    throw (Error (lit "Request timeout"))
  else
    emit (console_error
       [LStr (lit "GoogleSheetsSecureAPI: Request error:"); LErr error]) ;;
    throw error.

(** [request(params = {})].  The configuration is read once: nothing else
    runs between the reads of [this.config] that precede the [fetch], and a
    [configure] that would run while the call is awaited is outside the
    model. *)
Definition request (params : obj) : M json :=
  c <- get_config ;;
  if negb (nonempty (scriptUrl c)) || negb (nonempty (apiToken c))
     || negb (nonempty (hmacSecret c))
  then
    let error := Error incomplete_message in
    emit (console_error [LStr (lit "GoogleSheetsSecureAPI:");
                         LStr (message error)]) ;;
    throw error
  else
    try_catch
      (now <- Date_now ;;
       let requestParams := securityParams c now params in
       signature <- lift (createSignature requestParams (hmacSecret c)) ;;
       let requestParams := set requestParams (lit "signature") signature in
       url <- new_URL (scriptUrl c) ;;
       let url := appendAll requestParams url in
       when (debug c)
         (emit (console_log
            [LStr (lit "GoogleSheetsSecureAPI: Making request to:"); LUrl url]) ;;
          emit (console_log
            [LStr (lit "GoogleSheetsSecureAPI: Request params:"); LObj params])) ;;
       signal <- setTimeout_abort (timeout c) ;;
       response <- fetch url signal ;;
       request_response c response)
      request_catch.

(** The [for ... of] loop of [requestSequential], with [results] the array
    built so far. *)
Fixpoint requestSequential_loop (requestsArray : list obj) (results : list json)
  : M (list json) :=
  match requestsArray with
  | [] => ret results
  | params :: rest =>
      result <- request params ;;
      requestSequential_loop rest (results ++ [result])
  end.

(** [requestSequential(requestsArray)] *)
Definition requestSequential (requestsArray : list obj) : M (list json) :=
  requestSequential_loop requestsArray [].

(** [enableDebug()] *)
Definition enableDebug : M unit :=
  c <- get_config ;;
  set_config (mkConfig (scriptUrl c) (apiToken c) (hmacSecret c) true (timeout c)).

(** [disableDebug()] *)
Definition disableDebug : M unit :=
  c <- get_config ;;
  set_config (mkConfig (scriptUrl c) (apiToken c) (hmacSecret c) false (timeout c)).

(** The members of [requestsArray] succeed one after the other, each from
    the state its predecessor left, with results [results]. *)
Inductive Successes : list obj -> State -> list json -> State -> Prop :=
| Successes_nil (st : State) : Successes [] st [] st
| Successes_cons (params : obj) (rest : list obj) (st st' st'' : State)
    (result : json) (results : list json) :
    request params st = (Normal result, st') ->
    Successes rest st' results st'' ->
    Successes (params :: rest) st (result :: results) st''.

End Client.

(** What [request] does once it has read the configuration [c]. *)
Definition request_from (host : Host) (c : Config) (params : obj) : M json :=
  if negb (nonempty (scriptUrl c)) || negb (nonempty (apiToken c))
     || negb (nonempty (hmacSecret c))
  then
    emit (console_error [LStr (lit "GoogleSheetsSecureAPI:");
                         LStr (message (Error incomplete_message))]) ;;
    throw (Error incomplete_message)
  else
    try_catch
      (now <- Date_now ;;
       signature <- lift (createSignature (securityParams host c now params)
                            (hmacSecret c)) ;;
       url <- new_URL host (scriptUrl c) ;;
       when (debug c)
         (emit (console_log
            [LStr (lit "GoogleSheetsSecureAPI: Making request to:");
             LUrl (appendAll (set (securityParams host c now params)
                                  (lit "signature") signature) url)]) ;;
          emit (console_log
            [LStr (lit "GoogleSheetsSecureAPI: Request params:");
             LObj params])) ;;
       signal <- setTimeout_abort host (timeout c) ;;
       response <- fetch host
                     (appendAll (set (securityParams host c now params)
                                     (lit "signature") signature) url)
                     signal ;;
       request_response c response)
      request_catch.

(** *** The vocabulary of the specification *)

(** All three required fields are set. *)
Definition complete (c : Config) : Prop :=
  scriptUrl c <> [] /\ apiToken c <> [] /\ hmacSecret c <> [].

(** The error kinds, as the [Error] objects the code throws for them. *)
Definition ConfigurationIncomplete : JsError := Error incomplete_message.
Definition RequestTimeout : JsError := Error (lit "Request timeout").
Definition HttpError (status : Z) : JsError :=
  Error (lit "HTTP error! Status: " ++ Number_toString status).
Definition RequestFailed (message : jsstring) : JsError := Error message.
Definition generic_failure : jsstring := lit "Request failed".

(** The URLs of the network calls among some events. *)
Fixpoint fetched (evs : list Event) : list URL :=
  match evs with
  | [] => []
  | fetch_start u :: evs' => u :: fetched evs'
  | _ :: evs' => fetched evs'
  end.

(** A property of a decoded body that is not [null]. *)
Definition property (data : json) (key : string) : option json :=
  match data with
  | JObj o => json_lookup o (lit key)
  | _ => None
  end.

(** The keys that [request] sets itself. *)
Definition injected_keys : list jsstring :=
  [lit "token"; lit "timestamp"; lit "referrer"; lit "origin"].
Definition reserved_keys : list jsstring := injected_keys ++ [lit "signature"].


(** A computation keeps the configuration of the instance. *)
Definition keeps_config {A : Type} (m : M A) : Prop :=
  forall st, this_config (snd (m st)) = this_config st.

(** A computation only adds events to the trace, and the network calls
    among them are [urls]. *)
Definition issues {A : Type} (urls : list URL) (m : M A) : Prop :=
  forall st, exists evs,
    trace (snd (m st)) = trace st ++ evs /\ fetched evs = urls.

(** A computation makes no network call. *)
Definition silent {A : Type} (m : M A) : Prop := issues [] m.

(** A string that [Utf8.parse] accepts: every surrogate code unit is part of
    a pair. *)
Definition is_well_formed (s : jsstring) : bool :=
  match Utf8_parse s with Some _ => true | None => false end.

(** The characters '&' and '=' that [createSignature] puts between the
    fields and inside them. *)
Definition ampersand : Z := 38.
Definition equals_sign : Z := 61.

(** No key holds '&' or '=' and no value holds '&'. *)
Definition unambiguous (o : obj) : Prop :=
  Forall (fun kv => ~ In ampersand (fst kv) /\ ~ In equals_sign (fst kv)
                    /\ ~ In ampersand (snd kv)) o.

(** A computation only adds events to the trace, at most [n] network
    calls among them. *)
Definition calls_at_most {A : Type} (n : nat) (m : M A) : Prop :=
  forall st, exists evs,
    trace (snd (m st)) = trace st ++ evs
    /\ (List.length (fetched evs) <= n)%nat.

(** A computation takes no time. *)
Definition instant {A : Type} (m : M A) : Prop :=
  forall st, clock (snd (m st)) = clock st.

(** Every body the network delivers is read and decoded within [limit]
    milliseconds. *)
Definition decodes_within (host : Host) (limit : Z) : Prop :=
  forall n url t r, network host n url = Responds t r -> decoding r <= limit.

(** A computation takes at most [d] milliseconds. *)
Definition bounded {A : Type} (d : Z) (m : M A) : Prop :=
  forall st, clock st <= clock (snd (m st)) <= clock st + d.

(** The lines of the console. *)
Definition is_console (e : Event) : bool :=
  match e with
  | console_warn _ | console_error _ | console_log _ => true
  | _ => false
  end.

(** A computation only adds events that satisfy [p]. *)
Definition adds_only {A : Type} (p : Event -> bool) (m : M A) : Prop :=
  forall st, exists evs,
    trace (snd (m st)) = trace st ++ evs /\ forallb p evs = true.

(** The lines of [console.log]. *)
Definition is_log (e : Event) : bool :=
  match e with console_log _ => true | _ => false end.

Definition without_logs (evs : list Event) : list Event :=
  filter (fun e => negb (is_log e)) evs.

(** A configuration with the debug flag off, and a state with that
    configuration and no [console.log] line in its trace. *)
Definition quiet_config (c : Config) : Config :=
  mkConfig (scriptUrl c) (apiToken c) (hmacSecret c) false (timeout c).

Definition quiet (st : State) : State :=
  mkState (quiet_config (this_config st)) (clock st) (fetches st)
          (without_logs (trace st)).

(** [m'] does from the quiet state what [m] does, the debug flag and the
    [console.log] lines apart. *)
Definition mirrors {A : Type} (m m' : M A) : Prop :=
  forall st, m' (quiet st) = (fst (m st), quiet (snd (m st))).

(** What the [catch] block of [request] throws for the error it caught, and
    the console line it writes. *)
Definition rethrown (e : JsError) : JsError :=
  if str_eqb (name e) (lit "AbortError") then RequestTimeout else e.

Definition catch_line (e : JsError) : Event :=
  if str_eqb (name e) (lit "AbortError")
  then console_error [LStr (lit "GoogleSheetsSecureAPI: Request timeout")]
  else console_error
         [LStr (lit "GoogleSheetsSecureAPI: Request error:"); LErr e].

(** The error the constructor throws when CryptoJS is not loaded. *)
Definition MissingDependency : JsError :=
  Error (lit "CryptoJS is required. Please include: https://cdnjs.cloudflare.com/ajax/libs/crypto-js/4.1.1/crypto-js.min.js").

(** How many of the three required fields are empty. *)
Definition missing_fields (c : Config) : nat :=
  (if nonempty (scriptUrl c) then 0 else 1)
  + (if nonempty (apiToken c) then 0 else 1)
  + (if nonempty (hmacSecret c) then 0 else 1).

(** The lines of [console.warn]. *)
Definition is_warning (e : Event) : bool :=
  match e with console_warn _ => true | _ => false end.

(** [{ ...first, ...second }] on partial configurations. *)
Definition override (first second : Options) : Options :=
  mkOptions (match opt_scriptUrl second with
             | Some v => Some v | None => opt_scriptUrl first end)
            (match opt_apiToken second with
             | Some v => Some v | None => opt_apiToken first end)
            (match opt_hmacSecret second with
             | Some v => Some v | None => opt_hmacSecret first end)
            (match opt_debug second with
             | Some v => Some v | None => opt_debug first end)
            (match opt_timeout second with
             | Some v => Some v | None => opt_timeout first end).

(** The two debug lines [request] logs before the call. *)
Definition debug_lines (c : Config) (url : URL) (params : obj) : list Event :=
  if debug c then
    [console_log
       [LStr (lit "GoogleSheetsSecureAPI: Making request to:"); LUrl url];
     console_log
       [LStr (lit "GoogleSheetsSecureAPI: Request params:"); LObj params]]
  else [].

End GoogleSheetsSecureAPI.

(* ================================================================= *)
(** ** Inputs used to exercise the definitions *)

Module Scenario.
Import JS CryptoJS GoogleSheetsSecureAPI.

(** A URL parser for addresses without a query. *)
Definition parse_plain (s : jsstring) : option URL :=
  if nonempty s then Some (mkURL s []) else None.

Definition page : jsstring := lit "https://page.test".

Definition silent_host : Host :=
  mkHost parse_plain page true (fun _ _ => Silent) ConvertToLong.

Definition host_with (net : nat -> URL -> FetchBehaviour) : Host :=
  mkHost parse_plain page true net ConvertToLong.

(** The client of the specification's scenario. *)
Definition config1 : Config :=
  mkConfig (lit "https://example.test/api") (lit "T1") (lit "S1") false 30000.

Definition state1 : State := mkState config1 1700000000000 0 [].

Definition getData : obj := [(lit "action", lit "getData")].

(** The same client without its token. *)
Definition no_token : State :=
  mkState (mkConfig (lit "https://example.test/api") [] (lit "S1") false 30000)
          1700000000000 0 [].

(** The same two parameters, inserted in either order. *)
Definition sheet_then_action : obj :=
  [(lit "sheet", lit "Sheet1"); (lit "action", lit "getData")].
Definition action_then_sheet : obj :=
  [(lit "action", lit "getData"); (lit "sheet", lit "Sheet1")].

(** Two keys whose code-unit order and code-point order differ: U+FF5E and
    the supplementary code point U+1F600 (a surrogate pair). *)
Definition key_FF5E : jsstring := [0xFF5E].
Definition key_1F600 : jsstring := [0xD83D; 0xDE00].
Definition astral : obj := [(key_FF5E, lit "1"); (key_1F600, lit "2")].

Definition success_body : json :=
  JObj [(lit "status", JStr (lit "success"));
        (lit "data", JArr [JNum 1; JNum 2; JNum 3])].
Definition bad_token : json :=
  JObj [(lit "status", JStr (lit "error"));
        (lit "message", JStr (lit "bad token"))].
(** A body whose message is an object with a [toString] property. *)
Definition unconvertible : json :=
  JObj [(lit "status", JStr (lit "error"));
        (lit "message", JObj [(lit "toString", JNum 1)])].

Definition empty_message : json :=
  JObj [(lit "status", JStr (lit "error")); (lit "message", JStr [])].

(** Partial configurations that only set the timeout. *)
Definition only_timeout (n : Z) : Options :=
  mkOptions None None None None (Some n).
Definition no_options : Options := mkOptions None None None None None.

(** A page whose network answers the first call with a success and every
    later one with an error. *)
Definition first_only : Host :=
  host_with (fun n _ =>
    match n with
    | O => Responds 120 (mkResponse 200 (Normal success_body) 5)
    | _ => Responds 120 (mkResponse 200 (Normal bad_token) 5)
    end).

(** A page whose network answers every call after 120 ms with [r]. *)
Definition answering (r : Response) : Host :=
  host_with (fun _ _ => Responds 120 r).

Definition endpoint : URL := mkURL (lit "https://example.test/api") [].

(** The signature of the scenario's envelope under the secret S1. *)
Definition signature1 : jsstring :=
  lit "ed0196903e5784e97a0adfd8343f04ddd18c81832a08fd1e16fd76c4945b4fa1".

(** The signature [request] computes for [forged] under the secret S1. *)
Definition signature_forged : jsstring :=
  lit "819f53af7bae3911f33178c3d41d324a3edea841c33ac312c548f888aae4dd83".

(** Two plain parameter objects with the same canonical string. *)
Definition plain_ab : obj := [(lit "a", lit "1"); (lit "b", lit "x=y")].
Definition plain_ba : obj := [(lit "b", lit "x=y"); (lit "a", lit "1")].

(** Parameters with an array-index key and a caller-supplied token. *)
Definition indexed_params : obj :=
  [(lit "token", lit "mine"); (lit "7", lit "seven")].

(** The signature [request] computes for [indexed_params] under S1. *)
Definition signature_indexed : jsstring :=
  lit "eb79d2352b22dc45d1106d01c28167085cd738e21bebab97239c9eee0c26d8b2".

(** A page on which CryptoJS is not loaded. *)
Definition no_crypto_host : Host :=
  mkHost parse_plain page false (fun _ _ => Silent) ConvertToLong.

(** Options that give the endpoint only. *)
Definition only_url : Options :=
  mkOptions (Some (lit "https://example.test/api")) None None None None.

(** A page whose network fails every call after 80 ms with [e]. *)
Definition failing (e : JsError) : Host :=
  host_with (fun _ _ => Fails 80 e).

Definition network_down : JsError :=
  mkError (lit "TypeError") (lit "Failed to fetch").

Definition not_json : JsError :=
  mkError (lit "SyntaxError") (lit "Unexpected token < in JSON at position 0").

(** The client of the scenario with an endpoint that is not a URL. *)
Definition bad_endpoint : State :=
  mkState (mkConfig (lit "not a url") (lit "T1") (lit "S1") false 30000)
          1700000000000 0 [].

(** A page whose URL parser rejects every address. *)
Definition no_url_host : Host :=
  mkHost (fun _ => None) page true (fun _ _ => Silent) ConvertToLong.

(** Parameters one of whose values ends in an unpaired high surrogate. *)
Definition broken_value : obj := [(lit "action", [103; 0xD83D])].

(** Parameters in which the caller supplies reserved keys. *)
Definition forged : obj :=
  [(lit "signature", lit "forged"); (lit "token", lit "mine")].

(** A value that contains the separators of the canonical string. *)
Definition one_param : obj := [(lit "a", lit "1&b=2")].
Definition two_params : obj := [(lit "a", lit "1"); (lit "b", lit "2")].

End Scenario.

(* ================================================================= *)
(** ** Properties *)

Import JS CryptoJS GoogleSheetsSecureAPI.

(** *** Insertion sort *)

Section Sorting.

Context {A : Type}.
Variable lt : A -> A -> bool.

Hypothesis lt_asym : forall a b, lt a b = true -> lt b a = false.
Hypothesis le_trans : forall a b c,
  lt b a = false -> lt c b = false -> lt c a = false.

Lemma insert_by_perm (x : A) (l : list A) :
  Permutation (insert_by lt x l) (x :: l).
Proof.
  induction l as [|y l IH]; simpl.
  - apply Permutation_refl.
  - destruct (lt y x).
    + apply Permutation_trans with (y :: x :: l).
      * apply perm_skip, IH.
      * apply perm_swap.
    + apply Permutation_refl.
Qed.

Lemma sort_by_perm (l : list A) : Permutation (sort_by lt l) l.
Proof.
  induction l as [|x l IH]; simpl.
  - apply perm_nil.
  - apply Permutation_trans with (x :: sort_by lt l).
    + apply insert_by_perm.
    + apply perm_skip, IH.
Qed.

Lemma insert_by_sorted (x : A) (l : list A) :
  StronglySorted (le_of lt) l -> StronglySorted (le_of lt) (insert_by lt x l).
Proof.
  induction l as [|y l IH]; intros Hs; simpl.
  - repeat constructor.
  - inversion Hs as [|? ? Hl Hy]; subst.
    destruct (lt y x) eqn:E.
    + constructor.
      * apply IH, Hl.
      * apply Forall_forall. intros z Hz.
        apply (Permutation_in _ (insert_by_perm x l)) in Hz.
        destruct Hz as [<-|Hz].
        -- apply lt_asym, E.
        -- rewrite Forall_forall in Hy. apply Hy, Hz.
    + constructor; [exact Hs|].
      constructor; [exact E|].
      rewrite Forall_forall in Hy |- *. intros z Hz.
      unfold le_of. apply le_trans with y; [exact E | apply Hy, Hz].
Qed.

Lemma sort_by_sorted (l : list A) : StronglySorted (le_of lt) (sort_by lt l).
Proof.
  induction l as [|x l IH]; simpl.
  - constructor.
  - apply insert_by_sorted, IH.
Qed.

(** Sorting a sorted list changes nothing. *)
Lemma sort_by_fixed (l : list A) :
  StronglySorted (le_of lt) l -> sort_by lt l = l.
Proof.
  induction 1 as [|x l Hs IH Hx]; simpl.
  - reflexivity.
  - rewrite IH. destruct l as [|y l']; simpl.
    + reflexivity.
    + inversion Hx as [|? ? Hxy _]; subst. unfold le_of in Hxy.
      rewrite Hxy. reflexivity.
Qed.

Hypothesis lt_total : forall a b, lt a b = false -> lt b a = false -> a = b.

Lemma insert_by_comm (x y : A) (l : list A) :
  insert_by lt x (insert_by lt y l) = insert_by lt y (insert_by lt x l).
Proof.
  induction l as [|z l IH]; simpl.
  - destruct (lt y x) eqn:Eyx, (lt x y) eqn:Exy; try reflexivity.
    + rewrite (lt_asym _ _ Eyx) in Exy. discriminate.
    + rewrite (lt_total x y Exy Eyx). reflexivity.
  - destruct (lt z y) eqn:Ezy, (lt z x) eqn:Ezx; simpl;
      rewrite ?Ezy, ?Ezx.
    + rewrite IH. reflexivity.
    + assert (Exy : lt x y = true).
      { destruct (lt x y) eqn:E; [reflexivity|].
        rewrite (le_trans y x z E Ezx) in Ezy. discriminate. }
      rewrite Exy. simpl. rewrite ?Ezy. reflexivity.
    + assert (Eyx : lt y x = true).
      { destruct (lt y x) eqn:E; [reflexivity|].
        rewrite (le_trans x y z E Ezy) in Ezx. discriminate. }
      rewrite Eyx. simpl. rewrite ?Ezx. reflexivity.
    + destruct (lt y x) eqn:Eyx, (lt x y) eqn:Exy; simpl;
        rewrite ?Ezy, ?Ezx; try reflexivity.
      * rewrite (lt_asym _ _ Eyx) in Exy. discriminate.
      * rewrite (lt_total x y Exy Eyx). reflexivity.
Qed.

(** The result of sorting depends only on the elements, not on their order. *)
Lemma sort_by_Permutation (l l' : list A) :
  Permutation l l' -> sort_by lt l = sort_by lt l'.
Proof.
  induction 1 as [|x l l' _ IH|x y l|l l' l'' _ IH1 _ IH2]; simpl.
  - reflexivity.
  - rewrite IH. reflexivity.
  - apply insert_by_comm.
  - rewrite IH1. exact IH2.
Qed.

End Sorting.

(** *** The hash against published test vectors *)

(** FIPS 180-4, one-block message "abc". *)
Example SHA256_abc :
  Hex_stringify (hash_bytes (SHA256 (lit "abc")))
  = lit "ba7816bf8f01cfea414140de5dae2223b00361a396177a9cb410ff61f20015ad".
Proof. vm_compute. reflexivity. Qed.

(** RFC 4231, test case 2. *)
Example HmacSHA256_Jefe :
  HmacSHA256_toString (lit "what do ya want for nothing?") (lit "Jefe")
  = Normal
      (lit "5bdcc146bf60754e6a042426089575c75a003f089d2739839dec58b964ec3843").
Proof. vm_compute. reflexivity. Qed.

(** An unpaired surrogate cannot be converted to UTF-8. *)
Example HmacSHA256_lone_surrogate :
  HmacSHA256_toString [0xD83D] (lit "S1") = Throw URIError.
Proof. reflexivity. Qed.

(** *** The order on strings *)

Lemma str_ltb_asym (a b : jsstring) : str_ltb a b = true -> str_ltb b a = false.
Proof.
  revert b. induction a as [|x a IH]; intros [|y b]; simpl;
    try discriminate; try reflexivity.
  destruct (Z.ltb_spec x y), (Z.ltb_spec y x); try lia;
    try discriminate; try reflexivity.
  apply IH.
Qed.

Lemma str_le_trans (a b c : jsstring) :
  str_ltb b a = false -> str_ltb c b = false -> str_ltb c a = false.
Proof.
  revert b c. induction a as [|x a IH]; intros [|y b] [|z c]; simpl;
    try discriminate; try reflexivity.
  destruct (Z.ltb_spec y x), (Z.ltb_spec x y), (Z.ltb_spec z y),
    (Z.ltb_spec y z), (Z.ltb_spec z x), (Z.ltb_spec x z);
    try lia; try discriminate; try reflexivity.
  apply IH.
Qed.

Lemma str_ltb_total (a b : jsstring) :
  str_ltb a b = false -> str_ltb b a = false -> a = b.
Proof.
  revert b. induction a as [|x a IH]; intros [|y b]; simpl;
    try discriminate; try reflexivity.
  destruct (Z.ltb_spec x y), (Z.ltb_spec y x); try lia; try discriminate.
  intros H1 H2. f_equal; [lia | apply IH; assumption].
Qed.

Lemma str_eqb_eq (a b : jsstring) : str_eqb a b = true <-> a = b.
Proof.
  unfold str_eqb. destruct (list_eq_dec Z.eq_dec a b); split;
    intros; (assumption || reflexivity || discriminate || contradiction).
Qed.

Lemma str_eqb_refl (a : jsstring) : str_eqb a a = true.
Proof. apply str_eqb_eq. reflexivity. Qed.

Lemma str_eqb_neq (a b : jsstring) : a <> b -> str_eqb a b = false.
Proof.
  intros H. destruct (str_eqb a b) eqn:E; [|reflexivity].
  apply str_eqb_eq in E. contradiction.
Qed.

Lemma Array_sort_Permutation (l l' : list jsstring) :
  Permutation l l' -> Array_sort l = Array_sort l'.
Proof.
  apply sort_by_Permutation.
  - exact str_ltb_asym.
  - exact str_le_trans.
  - exact str_ltb_total.
Qed.

Lemma Array_sort_sorted (l : list jsstring) :
  StronglySorted (le_of str_ltb) (Array_sort l).
Proof.
  apply sort_by_sorted.
  - exact str_ltb_asym.
  - exact str_le_trans.
Qed.

(** *** Objects *)

Lemma get_In (o : obj) (k v : jsstring) :
  wf_obj o -> (get o k = Some v <-> In (k, v) o).
Proof.
  unfold wf_obj, keys_of. induction o as [|[k' v'] o IH]; simpl; intros Hwf.
  - split; [discriminate | contradiction].
  - inversion Hwf as [|? ? Hnotin Hwf']; subst.
    destruct (str_eqb k' k) eqn:E.
    + apply str_eqb_eq in E. subst k'. split.
      * intros [= ->]. left. reflexivity.
      * intros [[= ->]|Hin]; [reflexivity|].
        exfalso. apply Hnotin. apply (in_map fst) in Hin. exact Hin.
    + rewrite (IH Hwf'). split.
      * intros Hin. right. exact Hin.
      * intros [[= -> ->]|Hin]; [|exact Hin].
        rewrite str_eqb_refl in E. discriminate.
Qed.

Lemma get_Permutation (o o' : obj) (k : jsstring) :
  wf_obj o -> Permutation o o' -> get o k = get o' k.
Proof.
  intros Hwf Hp.
  assert (Hwf' : wf_obj o').
  { unfold wf_obj, keys_of in *.
    apply Permutation_NoDup with (map fst o); [|exact Hwf].
    apply Permutation_map, Hp. }
  destruct (get o k) as [v|] eqn:E.
  - symmetry. apply get_In; [exact Hwf'|].
    apply (Permutation_in _ Hp). apply get_In; assumption.
  - destruct (get o' k) as [v'|] eqn:E'; [|reflexivity].
    apply get_In in E'; [|exact Hwf'].
    apply (Permutation_in _ (Permutation_sym Hp)) in E'.
    apply get_In in E'; [|exact Hwf]. congruence.
Qed.

Lemma index_entries_keys (ks : list jsstring) :
  Permutation
    (map snd (index_entries ks) ++ filter (fun k => negb (is_index k)) ks) ks.
Proof.
  induction ks as [|k ks IH]; simpl.
  - apply perm_nil.
  - unfold is_index at 1. destruct (array_index k); simpl.
    + apply perm_skip, IH.
    + apply Permutation_sym, Permutation_cons_app, Permutation_sym, IH.
Qed.

Lemma Object_keys_Permutation (o : obj) :
  Permutation (Object_keys o) (keys_of o).
Proof.
  unfold Object_keys.
  apply Permutation_trans with
    (map snd (index_entries (keys_of o))
     ++ filter (fun k => negb (is_index k)) (keys_of o)).
  - apply Permutation_app_tail, Permutation_map, sort_by_perm.
  - apply index_entries_keys.
Qed.

Lemma sortedKeys_Permutation (o : obj) :
  Permutation (sortedKeys o) (keys_of o).
Proof.
  unfold sortedKeys, Array_sort.
  apply Permutation_trans with (Object_keys o).
  - apply sort_by_perm.
  - apply Object_keys_Permutation.
Qed.

Lemma sortedKeys_insertion_order (o o' : obj) :
  Permutation o o' -> sortedKeys o = sortedKeys o'.
Proof.
  intros Hp. unfold sortedKeys. apply Array_sort_Permutation.
  apply Permutation_trans with (keys_of o).
  - apply Object_keys_Permutation.
  - apply Permutation_trans with (keys_of o').
    + apply Permutation_map, Hp.
    + apply Permutation_sym, Object_keys_Permutation.
Qed.

(** *** The signature *)

(** C1. The signature is a function of the mapping and the secret that does
    not depend on the order in which the keys were inserted: two objects with
    the same properties, created in any order, get the same signature (or
    raise the same exception). *)
Theorem createSignature_insertion_order (P P' : obj) (S : jsstring) :
  wf_obj P -> Permutation P P' ->
  createSignature P S = createSignature P' S.
Proof.
  intros Hwf Hp. unfold createSignature, signatureString.
  rewrite (sortedKeys_insertion_order P P' Hp).
  f_equal. f_equal. apply map_ext. intros key.
  rewrite (get_Permutation P P' key Hwf Hp). reflexivity.
Qed.

Lemma Normal_inj {A : Type} (a b : A) : Normal a = Normal b -> a = b.
Proof. intros H. injection H as H. exact H. Qed.

Lemma wf_obj_entries (o : obj) (ks : list jsstring) :
  wf_obj o -> Permutation ks (keys_of o) ->
  Permutation (map (fun k => (k, interpolate (get o k))) ks) o.
Proof.
  intros Hwf Hp.
  apply Permutation_trans with
    (map (fun k => (k, interpolate (get o k))) (keys_of o)).
  - apply Permutation_map, Hp.
  - unfold keys_of. rewrite map_map.
    rewrite (map_ext_in _ (fun kv => kv)).
    + rewrite map_id. apply Permutation_refl.
    + intros [k v] Hin. simpl.
      apply (get_In o k v Hwf) in Hin. rewrite Hin. reflexivity.
Qed.

Lemma be_bytes_length (count : nat) (x : Z) :
  List.length (be_bytes count x) = count.
Proof.
  unfold be_bytes. rewrite length_map, length_rev, length_seq. reflexivity.
Qed.

Lemma hash_bytes_length (H : hash) : List.length (hash_bytes H) = 32%nat.
Proof. reflexivity. Qed.

Lemma hex_digit_lower (n : Z) :
  0 <= n < 16 -> is_lower_hex (hex_digit n) = true.
Proof.
  intros Hn. unfold is_lower_hex, hex_digit.
  destruct (Z.ltb_spec n 10).
  - apply orb_true_iff. left. apply andb_true_iff. split; apply Z.leb_le; lia.
  - apply orb_true_iff. right. apply andb_true_iff. split; apply Z.leb_le; lia.
Qed.

Lemma Hex_stringify_lower (bs : list Z) :
  Forall (fun c => is_lower_hex c = true) (Hex_stringify bs).
Proof.
  unfold Hex_stringify. induction bs as [|b bs IH]; simpl.
  - constructor.
  - constructor; [|constructor; [|exact IH]];
      apply hex_digit_lower, Z.mod_pos_bound; lia.
Qed.

Lemma Hex_stringify_length (bs : list Z) :
  List.length (Hex_stringify bs) = (2 * List.length bs)%nat.
Proof.
  unfold Hex_stringify. induction bs as [|b bs IH]; simpl.
  - reflexivity.
  - rewrite IH. lia.
Qed.

Lemma code_points_BMP (s : jsstring) :
  Forall (fun c => is_surrogate c = false) s -> code_points s = s.
Proof.
  induction 1 as [|c s Hc _ IH]; simpl.
  - reflexivity.
  - assert (E : is_high_surrogate c = false).
    { unfold is_surrogate, is_high_surrogate in *.
      destruct (Z.leb_spec 0xD800 c), (Z.leb_spec c 0xDBFF),
        (Z.leb_spec c 0xDFFF); simpl in *; try reflexivity;
        try discriminate; lia. }
    rewrite E, IH. reflexivity.
Qed.

Lemma StronglySorted_impl_in {A : Type} (R R' : A -> A -> Prop) (l : list A) :
  (forall a b, In a l -> In b l -> R a b -> R' a b) ->
  StronglySorted R l -> StronglySorted R' l.
Proof.
  intros Himp Hs. induction Hs as [|x l Hs IH Hx].
  - constructor.
  - constructor.
    + apply IH. intros a b Ha Hb. apply Himp; right; assumption.
    + rewrite Forall_forall in Hx |- *. intros y Hy.
      apply Himp; [left; reflexivity | right; exact Hy | apply Hx, Hy].
Qed.

(** C6, as the code has it. For an object [params]: the canonical string is
    the join with "&" of the raw "k=v" of the properties of [params], taken
    in ascending order of their keys as sequences of UTF-16 code units (the
    order of [Array.prototype.sort]); [createSignature] returns the lowercase
    hexadecimal HMAC-SHA256 of that string keyed by the secret (64 characters
    in 0-9a-f), unless the secret or the string holds an unpaired surrogate,
    in which case the conversion to UTF-8 throws. The order is code-point
    order whenever no key contains a surrogate code unit. *)
Theorem createSignature_canonical_hmac (params : obj) (secret : jsstring) :
  wf_obj params ->
  (exists entries,
      Permutation entries params
      /\ map fst entries = sortedKeys params
      /\ StronglySorted (le_of str_ltb) (map fst entries)
      /\ signatureString params
         = Array_join (lit "&")
             (map (fun kv => fst kv ++ lit "=" ++ snd kv) entries))
  /\ createSignature params secret
     = match Utf8_parse secret, Utf8_parse (signatureString params) with
       | Some k, Some m => Normal (Hex_stringify (hash_bytes (HMAC_SHA256 k m)))
       | _, _ => Throw URIError
       end
  /\ (forall sig, createSignature params secret = Normal sig ->
        List.length sig = 64%nat /\ Forall (fun c => is_lower_hex c = true) sig)
  /\ (Forall (Forall (fun c => is_surrogate c = false)) (keys_of params) ->
      StronglySorted (le_of codepoint_ltb) (sortedKeys params)).
Proof.
  intros Hwf. split; [|split; [|split]].
  - exists (map (fun k => (k, interpolate (get params k))) (sortedKeys params)).
    split; [|split; [|split]].
    + apply wf_obj_entries; [exact Hwf | apply sortedKeys_Permutation].
    + rewrite map_map. simpl. apply map_id.
    + rewrite map_map. simpl. rewrite map_id. apply Array_sort_sorted.
    + unfold signatureString. rewrite map_map. reflexivity.
  - unfold createSignature, computeHMAC, HmacSHA256_toString. reflexivity.
  - intros sig H.
    unfold createSignature, computeHMAC, HmacSHA256_toString in H.
    destruct (Utf8_parse secret) as [k|]; [|discriminate].
    destruct (Utf8_parse (signatureString params)) as [m|]; [|discriminate].
    apply Normal_inj in H. subst sig. split.
    + rewrite Hex_stringify_length, hash_bytes_length. reflexivity.
    + apply Hex_stringify_lower.
  - intros Hbmp.
    apply StronglySorted_impl_in with (R := le_of str_ltb).
    + intros a b Ha Hb Hab. unfold le_of, codepoint_ltb in *.
      rewrite Forall_forall in Hbmp.
      rewrite !code_points_BMP; [exact Hab | |];
        apply Hbmp; apply (Permutation_in _ (sortedKeys_Permutation params));
        assumption.
    + apply Array_sort_sorted.
Qed.

Lemma wf_two (k1 k2 v1 v2 : jsstring) :
  str_eqb k1 k2 = false -> wf_obj [(k1, v1); (k2, v2)].
Proof.
  intros E. unfold wf_obj. simpl. constructor.
  - intros [->|[]]. rewrite str_eqb_refl in E. discriminate.
  - constructor; [intros [] | constructor].
Qed.

Lemma createSignature_canonical_hmac_witness :
  wf_obj Scenario.getData
  /\ exists sig, createSignature Scenario.getData (lit "S1") = Normal sig
                 /\ List.length sig = 64%nat
                 /\ Forall (fun c => is_lower_hex c = true) sig.
Proof.
  assert (Hwf : wf_obj Scenario.getData).
  { unfold wf_obj. simpl. constructor; [intros [] | constructor]. }
  split; [exact Hwf|].
  destruct (createSignature_canonical_hmac Scenario.getData (lit "S1") Hwf)
    as (_ & _ & Hsig & _).
  eexists. split; [vm_compute; reflexivity|].
  apply Hsig. vm_compute. reflexivity.
Defined.

(** C6, counterexample. With the keys U+FF5E and U+1F600 the sorted keys
    start with U+1F600 (first code unit D83D), although in code-point order
    U+FF5E comes first. *)
Lemma sortedKeys_not_codepoint_order :
  wf_obj Scenario.astral
  /\ sortedKeys Scenario.astral = [Scenario.key_1F600; Scenario.key_FF5E]
  /\ codepoint_ltb Scenario.key_FF5E Scenario.key_1F600 = true
  /\ ~ StronglySorted (le_of codepoint_ltb) (sortedKeys Scenario.astral).
Proof.
  split; [apply wf_two; reflexivity|].
  split; [reflexivity|]. split; [reflexivity|].
  intros Hs. inversion Hs as [|? ? _ Hall]; subst.
  inversion Hall as [|? ? Hle _]; subst.
  unfold le_of in Hle. vm_compute in Hle. discriminate.
Qed.

Lemma createSignature_insertion_order_witness :
  wf_obj Scenario.sheet_then_action
  /\ Permutation Scenario.sheet_then_action Scenario.action_then_sheet
  /\ createSignature Scenario.sheet_then_action (lit "S1")
     = createSignature Scenario.action_then_sheet (lit "S1").
Proof.
  assert (Hwf : wf_obj Scenario.sheet_then_action)
    by (apply wf_two; reflexivity).
  assert (Hp : Permutation Scenario.sheet_then_action Scenario.action_then_sheet)
    by apply perm_swap.
  split; [exact Hwf|]. split; [exact Hp|].
  apply (createSignature_insertion_order _ _ (lit "S1") Hwf Hp).
Defined.

(** C8. Canonicalization is not injective: the one-parameter object
    {a: "1&b=2"} and the two-parameter object {a: "1", b: "2"} are different
    mappings with the same canonical string "a=1&b=2", hence the same
    signature under every secret. *)
Theorem signatureString_not_injective :
  exists P P' : obj,
    wf_obj P /\ wf_obj P'
    /\ ~ Permutation P P'
    /\ (exists k v, get P k = Some v /\ In 38 v /\ In 61 v)
    /\ signatureString P = signatureString P'
    /\ forall S, createSignature P S = createSignature P' S.
Proof.
  exists Scenario.one_param, Scenario.two_params.
  split; [unfold wf_obj; simpl; constructor; [intros [] | constructor]|].
  split; [apply wf_two; reflexivity|].
  split.
  { intros Hp. apply Permutation_length in Hp. discriminate. }
  split.
  { exists (lit "a"), (lit "1&b=2"). split; [reflexivity|].
    split; vm_compute; tauto. }
  assert (E : signatureString Scenario.one_param
              = signatureString Scenario.two_params) by reflexivity.
  split; [exact E|].
  intros S. unfold createSignature. rewrite E. reflexivity.
Qed.

(** *** Property writes and the spread *)

Lemma get_set_same (o : obj) (k v : jsstring) : get (set o k v) k = Some v.
Proof.
  induction o as [|[k' v'] o IH]; simpl.
  - rewrite str_eqb_refl. reflexivity.
  - destruct (str_eqb k' k) eqn:E; simpl; rewrite E; [reflexivity | exact IH].
Qed.

Lemma get_set_other (o : obj) (k k' v : jsstring) :
  k <> k' -> get (set o k v) k' = get o k'.
Proof.
  intros Hne. induction o as [|[k0 v0] o IH]; simpl.
  - rewrite (str_eqb_neq k k' Hne). reflexivity.
  - destruct (str_eqb k0 k) eqn:E; simpl.
    + apply str_eqb_eq in E. subst k0.
      rewrite (str_eqb_neq k k' Hne). reflexivity.
    + destruct (str_eqb k0 k'); [reflexivity | exact IH].
Qed.

Lemma set_fresh (o : obj) (k v : jsstring) :
  ~ In k (keys_of o) -> set o k v = o ++ [(k, v)].
Proof.
  induction o as [|[k' v'] o IH]; simpl; intros Hnotin.
  - reflexivity.
  - rewrite str_eqb_neq by (intros ->; apply Hnotin; left; reflexivity).
    rewrite IH by (intros Hin; apply Hnotin; right; exact Hin).
    reflexivity.
Qed.

Lemma keys_set_present (o : obj) (k v : jsstring) :
  In k (keys_of o) -> keys_of (set o k v) = keys_of o.
Proof.
  induction o as [|[k' v'] o IH]; simpl; intros Hin.
  - contradiction.
  - destruct (str_eqb k' k) eqn:E; simpl.
    + reflexivity.
    + destruct Hin as [->|Hin].
      * rewrite str_eqb_refl in E. discriminate.
      * rewrite (IH Hin). reflexivity.
Qed.

Lemma keys_set (o : obj) (k v : jsstring) :
  keys_of (set o k v)
  = if in_dec (list_eq_dec Z.eq_dec) k (keys_of o)
    then keys_of o else keys_of o ++ [k].
Proof.
  destruct (in_dec (list_eq_dec Z.eq_dec) k (keys_of o)) as [Hin|Hnotin].
  - apply keys_set_present, Hin.
  - rewrite (set_fresh o k v Hnotin). unfold keys_of. rewrite map_app.
    reflexivity.
Qed.

Lemma wf_set (o : obj) (k v : jsstring) : wf_obj o -> wf_obj (set o k v).
Proof.
  unfold wf_obj. intros Hwf. rewrite keys_set.
  destruct (in_dec (list_eq_dec Z.eq_dec) k (keys_of o)) as [Hin|Hnotin].
  - exact Hwf.
  - apply NoDup_app.
    + exact Hwf.
    + constructor; [intros [] | constructor].
    + intros x Hx [<-|[]]. contradiction.
Qed.

Lemma fold_set_fresh (f : jsstring -> jsstring) (ks : list jsstring) (acc : obj) :
  NoDup ks -> (forall k, In k ks -> ~ In k (keys_of acc)) ->
  fold_left (fun acc k => set acc k (f k)) ks acc
  = acc ++ map (fun k => (k, f k)) ks.
Proof.
  revert acc. induction ks as [|k ks IH]; simpl; intros acc Hnd Hfresh.
  - symmetry. apply app_nil_r.
  - inversion Hnd as [|? ? Hk Hnd']; subst.
    rewrite (set_fresh acc k (f k)) by (apply Hfresh; left; reflexivity).
    rewrite IH.
    + rewrite <- app_assoc. reflexivity.
    + exact Hnd'.
    + intros k' Hk' Hin. unfold keys_of in Hin. rewrite map_app in Hin.
      apply in_app_or in Hin. destruct Hin as [Hin|[<-|[]]].
      * apply (Hfresh k'); [right; exact Hk' | exact Hin].
      * contradiction.
Qed.

Lemma NoDup_Object_keys (o : obj) : wf_obj o -> NoDup (Object_keys o).
Proof.
  intros Hwf. apply Permutation_NoDup with (keys_of o); [|exact Hwf].
  apply Permutation_sym, Object_keys_Permutation.
Qed.

Lemma spread_entries (o : obj) :
  wf_obj o ->
  spread o = map (fun k => (k, interpolate (get o k))) (Object_keys o).
Proof.
  intros Hwf. unfold spread.
  rewrite (fold_set_fresh (fun k => interpolate (get o k))).
  - reflexivity.
  - apply NoDup_Object_keys, Hwf.
  - intros k _ [].
Qed.

Lemma keys_spread (o : obj) : wf_obj o -> keys_of (spread o) = Object_keys o.
Proof.
  intros Hwf. rewrite (spread_entries o Hwf). unfold keys_of.
  rewrite map_map. simpl. apply map_id.
Qed.

Lemma wf_spread (o : obj) : wf_obj o -> wf_obj (spread o).
Proof.
  intros Hwf. unfold wf_obj. rewrite (keys_spread o Hwf).
  apply NoDup_Object_keys, Hwf.
Qed.

Lemma get_None (o : obj) (k : jsstring) :
  ~ In k (keys_of o) -> get o k = None.
Proof.
  induction o as [|[k' v'] o IH]; simpl; intros Hnotin.
  - reflexivity.
  - rewrite str_eqb_neq by (intros ->; apply Hnotin; left; reflexivity).
    apply IH. intros Hin. apply Hnotin. right. exact Hin.
Qed.

Lemma get_spread (o : obj) (k : jsstring) :
  wf_obj o -> get (spread o) k = get o k.
Proof.
  intros Hwf. destruct (get o k) as [v|] eqn:E.
  - apply get_In; [apply wf_spread, Hwf|].
    rewrite (spread_entries o Hwf).
    apply in_map_iff. exists k. rewrite E. split; [reflexivity|].
    apply (Permutation_in _ (Permutation_sym (Object_keys_Permutation o))).
    apply (get_In o k v Hwf) in E. apply (in_map fst) in E. exact E.
  - apply get_None. rewrite (keys_spread o Hwf). intros Hin.
    apply (Permutation_in _ (Object_keys_Permutation o)) in Hin.
    unfold keys_of in Hin. apply in_map_iff in Hin.
    destruct Hin as ([k' v] & Hk & Hin). simpl in Hk. subst k'.
    apply (get_In o k v Hwf) in Hin. congruence.
Qed.

Lemma appendAll_from (o : obj) (ks : list jsstring) (u : URL) :
  fold_left
    (fun u key => searchParams_append u key (interpolate (get o key))) ks u
  = mkURL (address u)
      (searchParams u ++ map (fun k => (k, interpolate (get o k))) ks).
Proof.
  revert u. induction ks as [|k ks IH]; simpl; intros u.
  - rewrite app_nil_r. destruct u. reflexivity.
  - rewrite IH. simpl. rewrite <- app_assoc. reflexivity.
Qed.

Lemma appendAll_searchParams (o : obj) (u : URL) :
  appendAll o u
  = mkURL (address u)
      (searchParams u
       ++ map (fun k => (k, interpolate (get o k))) (Object_keys o)).
Proof. apply appendAll_from. Qed.

(** *** The order of own property keys *)

Lemma entry_ltb_asym (a b : Z * jsstring) :
  entry_ltb a b = true -> entry_ltb b a = false.
Proof.
  unfold entry_ltb. intros H. apply Z.ltb_lt in H. apply Z.ltb_ge. lia.
Qed.

Lemma entry_le_trans (a b c : Z * jsstring) :
  entry_ltb b a = false -> entry_ltb c b = false -> entry_ltb c a = false.
Proof.
  unfold entry_ltb. intros H1 H2. apply Z.ltb_ge in H1, H2.
  apply Z.ltb_ge. lia.
Qed.

Lemma index_entries_app (ks ks' : list jsstring) :
  index_entries (ks ++ ks') = index_entries ks ++ index_entries ks'.
Proof.
  induction ks as [|k ks IH]; simpl.
  - reflexivity.
  - destruct (array_index k); rewrite IH; reflexivity.
Qed.

Lemma index_entries_indexed (ks : list jsstring) :
  Forall indexed (index_entries ks).
Proof.
  induction ks as [|k ks IH]; simpl.
  - constructor.
  - destruct (array_index k) eqn:E; [constructor; assumption | exact IH].
Qed.

Lemma index_entries_of_indexed (es : list (Z * jsstring)) :
  Forall indexed es -> index_entries (map snd es) = es.
Proof.
  induction 1 as [|[n k] es He _ IH]; simpl.
  - reflexivity.
  - unfold indexed in He. simpl in He. rewrite He, IH. reflexivity.
Qed.

Lemma index_entries_none (ks : list jsstring) :
  Forall (fun k => is_index k = false) ks -> index_entries ks = [].
Proof.
  induction 1 as [|k ks Hk _ IH]; simpl.
  - reflexivity.
  - unfold is_index in Hk. destruct (array_index k); [discriminate | exact IH].
Qed.

Lemma filter_other_indexed (es : list (Z * jsstring)) :
  Forall indexed es ->
  filter (fun k => negb (is_index k)) (map snd es) = [].
Proof.
  induction 1 as [|[n k] es He _ IH]; simpl.
  - reflexivity.
  - unfold indexed in He. simpl in He. unfold is_index at 1. rewrite He.
    exact IH.
Qed.

Lemma filter_other_all (ks : list jsstring) :
  Forall (fun k => is_index k = false) ks ->
  filter (fun k => negb (is_index k)) ks = ks.
Proof.
  induction 1 as [|k ks Hk _ IH]; simpl.
  - reflexivity.
  - rewrite Hk, IH. reflexivity.
Qed.

Lemma filter_other_none (ks : list jsstring) :
  Forall (fun k => is_index k = false)
         (filter (fun k => negb (is_index k)) ks).
Proof.
  apply Forall_forall. intros k Hk. apply filter_In in Hk.
  destruct Hk as [_ Hk]. apply negb_true_iff in Hk. exact Hk.
Qed.

(** Keys that are already in own-property order stay in place, and new keys
    that are not array indices follow them. *)
Lemma OwnPropertyKeys_stable (ks new : list jsstring) :
  Forall (fun k => is_index k = false) new ->
  OwnPropertyKeys (OwnPropertyKeys ks ++ new) = OwnPropertyKeys ks ++ new.
Proof.
  intros Hnew. unfold OwnPropertyKeys.
  assert (Hes : Forall indexed (sort_by entry_ltb (index_entries ks))).
  { apply (Permutation_Forall
             (Permutation_sym (sort_by_perm entry_ltb (index_entries ks)))).
    apply index_entries_indexed. }
  rewrite !index_entries_app.
  rewrite (index_entries_of_indexed _ Hes).
  rewrite (index_entries_none _ (filter_other_none ks)).
  rewrite (index_entries_none _ Hnew). rewrite !app_nil_r.
  rewrite (sort_by_fixed entry_ltb)
    by (apply sort_by_sorted; [exact entry_ltb_asym | exact entry_le_trans]).
  rewrite !filter_app.
  rewrite (filter_other_indexed _ Hes).
  rewrite (filter_other_all _ (filter_other_none ks)).
  rewrite (filter_other_all _ Hnew). simpl.
  rewrite app_assoc. reflexivity.
Qed.

(** *** Numbers and conversions to strings *)

(** A safe integer prints as its decimal numeral. *)
Example Number_toString_safe :
  Number_toString 0 = lit "0"
  /\ Number_toString 503 = lit "503"
  /\ Number_toString (-42) = lit "-42"
  /\ Number_toString 1700000000000 = lit "1700000000000"
  /\ Number_toString 9007199254740991 = lit "9007199254740991".
Proof. vm_compute. repeat split. Qed.

(** Above 2^53 a numeral denotes the nearest double, which prints with the
    fewest digits that denote it, and from 10^21 on in exponent form. *)
Example Number_toString_large :
  Number_toString 9007199254740993 = lit "9007199254740992"
  /\ Number_toString (2 ^ 60) = lit "1152921504606847000"
  /\ Number_toString 999999999999999999999 = lit "1e+21"
  /\ Number_toString (10 ^ 21) = lit "1e+21"
  /\ Number_toString (2 ^ 70) = lit "1.1805916207174113e+21"
  /\ Number_toString (- 2 ^ 70) = lit "-1.1805916207174113e+21"
  /\ Number_toString 123456789012345678901234567890
     = lit "1.2345678901234568e+29"
  /\ Number_toString (2 ^ 1024 - 2 ^ 970 - 1) = lit "1.7976931348623157e+308"
  /\ Number_toString (2 ^ 1024 - 2 ^ 970) = lit "Infinity".
Proof. vm_compute. repeat split. Qed.

Example ToString_values :
  ToString (JArr [JNum 1; JNull; JStr (lit "a"); JArr [JBool true; JNum 2]])
  = Normal (lit "1,,a,true,2")
  /\ ToString (JArr []) = Normal []
  /\ ToString (JObj [(lit "valueOf", JNum 1)]) = Normal (lit "[object Object]")
  /\ ToString (JObj [(lit "toString", JStr (lit "x"))]) = Throw conversion_error
  /\ ToString (JArr [JNum 1; JObj [(lit "toString", JNull)]; JNum 2])
     = Throw conversion_error.
Proof. vm_compute. repeat split. Qed.

(** A browser's timer honours a delay up to 2^31 - 1 as it is, and fires at
    once for a delay from 2^31 to 2^32 - 1. *)
Lemma ConvertToLong_in_range (d : Z) :
  - 2 ^ 31 <= d < 2 ^ 31 -> ConvertToLong d = d.
Proof.
  intros H. unfold ConvertToLong.
  rewrite Z.mod_small by lia. lia.
Qed.

Lemma honoured_in_range (host : Host) (d : Z) :
  timer_delay host = ConvertToLong -> 0 <= d < 2 ^ 31 -> honoured host d = d.
Proof.
  intros Hh Hd. unfold honoured. rewrite Hh, ConvertToLong_in_range; lia.
Qed.

Lemma ConvertToLong_overflow (d : Z) :
  2 ^ 31 <= d < 2 ^ 32 -> ConvertToLong d = d - 2 ^ 32.
Proof.
  intros H. unfold ConvertToLong.
  replace (d + 2 ^ 31) with (d - 2 ^ 31 + 1 * 2 ^ 32) by lia.
  rewrite Z.mod_add by lia. rewrite Z.mod_small by lia. lia.
Qed.

(** *** Requests *)

Lemma fetched_app (evs evs' : list Event) :
  fetched (evs ++ evs') = fetched evs ++ fetched evs'.
Proof.
  induction evs as [|e evs IH]; simpl.
  - reflexivity.
  - destruct e; simpl; rewrite ?IH; reflexivity.
Qed.

Lemma incomplete_guard (c : Config) :
  scriptUrl c = [] \/ apiToken c = [] \/ hmacSecret c = [] ->
  negb (nonempty (scriptUrl c)) || negb (nonempty (apiToken c))
  || negb (nonempty (hmacSecret c)) = true.
Proof.
  intros [H|[H|H]]; rewrite H; simpl;
    rewrite ?orb_true_r; reflexivity.
Qed.

Lemma complete_guard (c : Config) :
  complete c ->
  negb (nonempty (scriptUrl c)) || negb (nonempty (apiToken c))
  || negb (nonempty (hmacSecret c)) = false.
Proof.
  intros (H1 & H2 & H3).
  destruct (scriptUrl c); [contradiction|].
  destruct (apiToken c); [contradiction|].
  destruct (hmacSecret c); [contradiction|]. reflexivity.
Qed.

(** C3. Whenever the endpoint URL, the token or the secret of the current
    configuration is empty, [request] logs the error and throws
    ConfigurationIncomplete; the only new event is that console line, so no
    [fetch] is issued. *)
Theorem request_incomplete_configuration
  (host : Host) (params : obj) (st : State) :
  scriptUrl (this_config st) = [] \/ apiToken (this_config st) = []
  \/ hmacSecret (this_config st) = [] ->
  let st' :=
    mkState (this_config st) (clock st) (fetches st)
      (trace st ++ [console_error [LStr (lit "GoogleSheetsSecureAPI:");
                                   LStr incomplete_message]]) in
  request host params st = (Throw ConfigurationIncomplete, st')
  /\ fetched (trace st') = fetched (trace st)
  /\ fetches st' = fetches st.
Proof.
  intros H st'. split; [|split].
  - unfold request, bind, get_config. cbv beta iota.
    rewrite (incomplete_guard _ H). reflexivity.
  - simpl. rewrite fetched_app. simpl. apply app_nil_r.
  - reflexivity.
Qed.

Lemma request_issues (host : Host) (params : obj) (st : State)
  (sig : jsstring) (u0 : URL) :
  let c := this_config st in
  complete c ->
  createSignature (securityParams host c (clock st) params) (hmacSecret c)
  = Normal sig ->
  URL_parse host (scriptUrl c) = Some u0 ->
  let url :=
    appendAll (set (securityParams host c (clock st) params)
                   (lit "signature") sig) u0 in
  request host params st
  = try_catch
      (response <- fetch host url (clock st + honoured host (timeout c)) ;;
       request_response c response)
      request_catch
      (mkState c (clock st) (fetches st)
         (trace st ++ debug_lines c url params ++ [timer_set (timeout c)])).
Proof.
  intros c Hc Hsig Hurl url.
  unfold request, bind at 1, get_config. cbv beta iota. fold c.
  rewrite (complete_guard c Hc).
  unfold try_catch, bind at 1, Date_now. cbv beta iota.
  unfold bind at 1, lift. rewrite Hsig. cbv beta iota.
  unfold bind at 1, new_URL. rewrite Hurl. cbv beta iota. fold url.
  unfold bind at 1. unfold debug_lines, when, ret. cbv beta iota. fold url.
  destruct (debug c).
  - unfold bind at 1 2, emit. cbv beta iota.
    unfold bind at 1, setTimeout_abort. cbv beta iota.
    cbn [this_config clock fetches trace]. fold c.
    rewrite <- !app_assoc. reflexivity.
  - cbv beta iota. unfold bind at 1, setTimeout_abort. cbv beta iota.
    cbn [this_config clock fetches trace]. fold c.
    reflexivity.
Qed.


Lemma fetch_responds (host : Host) (url : URL) (signal : Z) (st : State)
  (t : Z) (r : Response) :
  network host (fetches st) url = Responds t r ->
  clock st + Z.max 0 t <= signal ->
  fetch host url signal st
  = (Normal r,
     mkState (this_config st) (clock st + Z.max 0 t) (S (fetches st))
             (trace st ++ [fetch_start url])).
Proof.
  intros Hnet Hle. unfold fetch. rewrite Hnet.
  destruct (Z.leb_spec (clock st + Z.max 0 t) signal); [reflexivity | lia].
Qed.


Lemma get_property_not_null (data : json) (key : string) (st : State) :
  data <> JNull ->
  get_property data key st = (Normal (property data key), st).
Proof.
  intros Hd. destruct data; try reflexivity. contradiction.
Qed.

Lemma is_success_iff (v : option json) :
  is_success v = true <-> v = Some (JStr (lit "success")).
Proof.
  unfold is_success. destruct v as [[| | |s| |]|]; split;
    try discriminate; intros H.
  - apply str_eqb_eq in H. subst s. reflexivity.
  - injection H as ->. apply str_eqb_refl.
Qed.

Lemma success_not_null (data : json) :
  property data "status" = Some (JStr (lit "success")) -> data <> JNull.
Proof. intros H ->. discriminate. Qed.

Lemma request_response_http_error (c : Config) (r : Response) (st : State) :
  ok r = false ->
  fst (request_response c r st) = Throw (HttpError (status r)).
Proof.
  intros Hok. unfold request_response, bind, clearTimeout, emit.
  cbv beta iota. rewrite Hok. reflexivity.
Qed.

Lemma request_response_success (c : Config) (r : Response) (data : json)
  (st : State) :
  ok r = true -> body r = Normal data ->
  property data "status" = Some (JStr (lit "success")) ->
  fst (request_response c r st) = Normal data.
Proof.
  intros Hok Hbody Hs. unfold request_response, bind at 1, clearTimeout, emit.
  cbv beta iota. rewrite Hok. cbn [negb].
  unfold bind at 1, response_json. rewrite Hbody. cbv beta iota.
  unfold bind at 1.
  rewrite (get_property_not_null data "status" _ (success_not_null data Hs)).
  cbv beta iota. rewrite (proj2 (is_success_iff _) Hs).
  unfold bind, when, ret, emit. destruct (debug c); reflexivity.
Qed.

(** What [new Error(data.message || 'Request failed')] is given, converted
    to a string. *)
Lemma request_response_failed (c : Config) (r : Response) (data : json)
  (st : State) :
  ok r = true -> body r = Normal data -> data <> JNull ->
  property data "status" <> Some (JStr (lit "success")) ->
  fst (request_response c r st)
  = match (match property data "message" with
           | Some m => if truthy (Some m) then ToString m
                       else Normal generic_failure
           | None => Normal generic_failure
           end) with
    | Normal text => Throw (RequestFailed text)
    | Throw e => Throw e
    end.
Proof.
  intros Hok Hbody Hd Hs. unfold request_response, bind at 1, clearTimeout, emit.
  cbv beta iota. rewrite Hok. cbn [negb].
  unfold bind at 1, response_json. rewrite Hbody. cbv beta iota.
  unfold bind at 1. rewrite (get_property_not_null data "status" _ Hd).
  cbv beta iota.
  destruct (is_success (property data "status")) eqn:E.
  - apply is_success_iff in E. contradiction.
  - unfold bind at 1. rewrite (get_property_not_null data "message" _ Hd).
    cbv beta iota. unfold bind, lift, throw, RequestFailed, generic_failure.
    destruct (property data "message") as [m|]; [|reflexivity].
    destruct (truthy (Some m)); [|reflexivity].
    destruct (ToString m); reflexivity.
Qed.

(** The only error of a conversion to a string is the TypeError of an
    object that has a [toString] property of its own. *)
Lemma ToString_throws : forall (v : json) (e : JsError),
  ToString v = Throw e -> e = conversion_error.
Proof.
  fix IH 1. intros v e. destruct v as [|b|n|s|l|o]; simpl.
  - discriminate.
  - destruct b; discriminate.
  - discriminate.
  - discriminate.
  - revert e. induction l as [|x rest IHl]; intros e; [discriminate|].
    assert (Hx := IH x).
    destruct (match x with JNull => Normal [] | _ => ToString x end)
      as [s|e'] eqn:Ex.
    + destruct rest as [|y rest']; [discriminate|].
      intros H. apply IHl.
      match type of H with
      | match ?j with _ => _ end = _ => destruct j as [t|e'']
      end; [discriminate|].
      exact H.
    + intros H. injection H as <-.
      destruct x; try discriminate; apply (Hx _ Ex).
  - destruct (has_own o "toString"); [|discriminate].
    intros H. injection H as <-. reflexivity.
Qed.

(** An [Error] that [request] throws inside its [try] block is logged by the
    [catch] block and thrown again. *)
Lemma try_catch_rethrows (m : M json) (st : State) (msg : jsstring) :
  fst (m st) = Throw (Error msg) ->
  fst (try_catch m request_catch st) = Throw (Error msg).
Proof.
  intros H. unfold try_catch. destruct (m st) as [[a|e] st']; simpl in H.
  - discriminate.
  - injection H as ->. unfold request_catch.
    replace (str_eqb (name (Error msg)) (lit "AbortError")) with false
      by reflexivity.
    reflexivity.
Qed.

Lemma try_catch_rethrows_conversion (m : M json) (st : State) :
  fst (m st) = Throw conversion_error ->
  fst (try_catch m request_catch st) = Throw conversion_error.
Proof.
  intros H. unfold try_catch. destruct (m st) as [[a|e] st']; simpl in H.
  - discriminate.
  - injection H as ->. unfold request_catch.
    replace (str_eqb (name conversion_error) (lit "AbortError")) with false
      by reflexivity.
    reflexivity.
Qed.

Lemma try_catch_returns (m : M json) (st : State) (a : json)
  (handler : JsError -> M json) :
  fst (m st) = Normal a -> fst (try_catch m handler st) = Normal a.
Proof.
  intros H. unfold try_catch. destruct (m st) as [[a'|e] st']; simpl in H.
  - exact H.
  - discriminate.
Qed.

Lemma request_received (host : Host) (params : obj) (st : State)
  (sig : jsstring) (u0 : URL) (t : Z) (r : Response) :
  let c := this_config st in
  complete c ->
  createSignature (securityParams host c (clock st) params) (hmacSecret c)
  = Normal sig ->
  URL_parse host (scriptUrl c) = Some u0 ->
  let url :=
    appendAll (set (securityParams host c (clock st) params)
                   (lit "signature") sig) u0 in
  network host (fetches st) url = Responds t r ->
  Z.max 0 t <= honoured host (timeout c) ->
  request host params st
  = try_catch (request_response c r) request_catch
      (mkState c (clock st + Z.max 0 t) (S (fetches st))
         (trace st ++ debug_lines c url params
          ++ [timer_set (timeout c); fetch_start url])).
Proof.
  intros c Hc Hsig Hurl url Hnet Ht.
  rewrite (request_issues host params st sig u0 Hc Hsig Hurl).
  fold c url. unfold try_catch, bind at 1.
  rewrite (fetch_responds host url _ _ t r);
    cbn [this_config clock fetches trace].
  - rewrite <- !app_assoc. reflexivity.
  - exact Hnet.
  - lia.
Qed.

(** C4, as the code has it. For a request whose call is answered before the
    timer fires: a status outside 200..299 makes it throw HttpError with that
    status; with a 2xx status and a decoded body whose [status] is the string
    "success" it returns the body; with a 2xx status and a decoded body other
    than [null] whose [status] is anything else it throws RequestFailed with
    the body's [message] converted to a string - the message itself when it
    is a string that is not empty -, with the generic text when [message] is
    absent or falsy (the empty string, 0, false, null), and it throws the
    TypeError of the conversion when [message] is an object or an array that
    has no conversion to a string. *)
Theorem request_response_handling (host : Host) (params : obj) (st : State)
  (sig : jsstring) (u0 : URL) (t : Z) (r : Response) :
  let c := this_config st in
  complete c ->
  createSignature (securityParams host c (clock st) params) (hmacSecret c)
  = Normal sig ->
  URL_parse host (scriptUrl c) = Some u0 ->
  let url :=
    appendAll (set (securityParams host c (clock st) params)
                   (lit "signature") sig) u0 in
  network host (fetches st) url = Responds t r ->
  Z.max 0 t <= honoured host (timeout c) ->
  let result := fst (request host params st) in
  (ok r = false -> result = Throw (HttpError (status r)))
  /\ (forall data, ok r = true -> body r = Normal data ->
      (property data "status" = Some (JStr (lit "success")) ->
       result = Normal data)
      /\ (data <> JNull ->
          property data "status" <> Some (JStr (lit "success")) ->
          (forall s, property data "message" = Some (JStr s) -> s <> [] ->
                     result = Throw (RequestFailed s))
          /\ (forall m s, property data "message" = Some m ->
                          truthy (Some m) = true ->
                          ToString m = Normal s ->
                          result = Throw (RequestFailed s))
          /\ (forall m e, property data "message" = Some m ->
                          truthy (Some m) = true ->
                          ToString m = Throw e ->
                          e = conversion_error /\ result = Throw e)
          /\ (forall m, property data "message" = Some m ->
                        truthy (Some m) = false ->
                        result = Throw (RequestFailed generic_failure))
          /\ (property data "message" = None ->
              result = Throw (RequestFailed generic_failure)))).
Proof.
  intros c Hc Hsig Hurl url Hnet Ht result. unfold result.
  rewrite (request_received host params st sig u0 t r Hc Hsig Hurl Hnet Ht).
  fold c url. split.
  - intros Hok. apply try_catch_rethrows.
    apply request_response_http_error, Hok.
  - intros data Hok Hbody. split.
    + intros Hs. apply try_catch_returns.
      apply (request_response_success c r data _ Hok Hbody Hs).
    + intros Hd Hs.
      assert (Hf := fun st' => request_response_failed c r data st' Hok Hbody Hd Hs).
      split; [|split; [|split; [|split]]].
      * intros s Hm Hne. apply try_catch_rethrows. rewrite Hf, Hm.
        destruct s; [contradiction | reflexivity].
      * intros m s Hm Htruthy Hs'. apply try_catch_rethrows.
        rewrite Hf, Hm, Htruthy, Hs'. reflexivity.
      * intros m e Hm Htruthy He.
        assert (Hconv := ToString_throws m e He). split; [exact Hconv|].
        subst e. apply try_catch_rethrows_conversion.
        rewrite Hf, Hm, Htruthy, He. reflexivity.
      * intros m Hm Hfalsy. apply try_catch_rethrows.
        rewrite Hf, Hm, Hfalsy. reflexivity.
      * intros Hm. apply try_catch_rethrows. rewrite Hf, Hm. reflexivity.
Qed.

Lemma complete_config1 : complete Scenario.config1.
Proof. unfold complete. repeat split; discriminate. Qed.

Lemma request_incomplete_configuration_witness :
  apiToken (this_config Scenario.no_token) = []
  /\ fst (request Scenario.silent_host Scenario.getData Scenario.no_token)
     = Throw ConfigurationIncomplete
  /\ fetched (trace (snd (request Scenario.silent_host Scenario.getData
                            Scenario.no_token))) = [].
Proof.
  assert (H : apiToken (this_config Scenario.no_token) = []) by reflexivity.
  split; [exact H|].
  destruct (request_incomplete_configuration Scenario.silent_host
              Scenario.getData Scenario.no_token (or_intror (or_introl H)))
    as (Hreq & Hfetched & _).
  rewrite Hreq. split; [reflexivity | exact Hfetched].
Defined.


Lemma request_response_handling_witness :
  fst (request (Scenario.answering (mkResponse 200 (Normal Scenario.bad_token) 5))
         Scenario.getData Scenario.state1)
  = Throw (RequestFailed (lit "bad token"))
  /\ fst (request (Scenario.answering (mkResponse 200 (Normal Scenario.success_body) 5))
            Scenario.getData Scenario.state1)
     = Normal Scenario.success_body
  /\ fst (request (Scenario.answering (mkResponse 503 (Normal JNull) 5))
            Scenario.getData Scenario.state1)
     = Throw (HttpError 503)
  /\ fst (request (Scenario.answering (mkResponse 200 (Normal Scenario.unconvertible) 5))
            Scenario.getData Scenario.state1)
     = Throw conversion_error.
Proof.
  assert (Hsig :
    createSignature
      (securityParams Scenario.silent_host Scenario.config1 1700000000000
         Scenario.getData) (lit "S1")
    = Normal (lit "ed0196903e5784e97a0adfd8343f04ddd18c81832a08fd1e16fd76c4945b4fa1"))
    by (vm_compute; reflexivity).
  assert (Hurl : forall r,
    URL_parse (Scenario.answering r) (lit "https://example.test/api")
    = Some (mkURL (lit "https://example.test/api") [])) by reflexivity.
  assert (Ht : forall r,
    Z.max 0 120 <= honoured (Scenario.answering r) 30000)
    by (intros r; vm_compute; discriminate).
  split; [|split; [|split]].
  - destruct (request_response_handling
                (Scenario.answering (mkResponse 200 (Normal Scenario.bad_token) 5))
                Scenario.getData Scenario.state1 _ _ 120 _
                complete_config1 Hsig (Hurl _) eq_refl (Ht _)) as [_ H].
    destruct (H Scenario.bad_token eq_refl eq_refl) as [_ H'].
    destruct H' as [H' _]; [discriminate | discriminate |].
    apply (H' (lit "bad token")); [reflexivity | discriminate].
  - destruct (request_response_handling
                (Scenario.answering (mkResponse 200 (Normal Scenario.success_body) 5))
                Scenario.getData Scenario.state1 _ _ 120 _
                complete_config1 Hsig (Hurl _) eq_refl (Ht _)) as [_ H].
    destruct (H Scenario.success_body eq_refl eq_refl) as [H' _].
    apply H'. reflexivity.
  - destruct (request_response_handling
                (Scenario.answering (mkResponse 503 (Normal JNull) 5))
                Scenario.getData Scenario.state1 _ _ 120 _
                complete_config1 Hsig (Hurl _) eq_refl (Ht _)) as [H _].
    apply H. reflexivity.
  - destruct (request_response_handling
                (Scenario.answering (mkResponse 200 (Normal Scenario.unconvertible) 5))
                Scenario.getData Scenario.state1 _ _ 120 _
                complete_config1 Hsig (Hurl _) eq_refl (Ht _)) as [_ H].
    destruct (H Scenario.unconvertible eq_refl eq_refl) as [_ H'].
    destruct H' as (_ & _ & H' & _); [discriminate | discriminate |].
    destruct (H' (JObj [(lit "toString", JNum 1)]) conversion_error)
      as [_ Hres]; [reflexivity | reflexivity | reflexivity |].
    exact Hres.
Defined.

(** C4, counterexample. The body {status: "error", message: ""} has a
    [message], the empty string; [request] throws RequestFailed with the
    generic text instead of that message.  For the body
    {status: "error", message: {toString: 1}} the conversion of the message
    throws, and [request] throws that TypeError and no RequestFailed.  And
    for the body [null], also answered with status 200, reading
    [data.status] throws a TypeError, which is what [request] throws. *)
Lemma request_empty_message_not_carried :
  let host :=
    Scenario.answering (mkResponse 200 (Normal Scenario.empty_message) 5) in
  let object_host :=
    Scenario.answering (mkResponse 200 (Normal Scenario.unconvertible) 5) in
  let null_host := Scenario.answering (mkResponse 200 (Normal JNull) 5) in
  ok (mkResponse 200 (Normal Scenario.empty_message) 5) = true
  /\ property Scenario.empty_message "status" = Some (JStr (lit "error"))
  /\ property Scenario.empty_message "message" = Some (JStr [])
  /\ fst (request host Scenario.getData Scenario.state1)
     = Throw (RequestFailed generic_failure)
  /\ fst (request host Scenario.getData Scenario.state1)
     <> Throw (RequestFailed [])
  /\ property Scenario.unconvertible "status" = Some (JStr (lit "error"))
  /\ property Scenario.unconvertible "message"
     = Some (JObj [(lit "toString", JNum 1)])
  /\ fst (request object_host Scenario.getData Scenario.state1)
     = Throw conversion_error
  /\ (forall s, fst (request object_host Scenario.getData Scenario.state1)
                <> Throw (RequestFailed s))
  /\ fst (request null_host Scenario.getData Scenario.state1)
     = Throw (mkError (lit "TypeError")
                (lit "Cannot read properties of null (reading 'status')")).
Proof.
  intros host object_host null_host.
  assert (H : fst (request host Scenario.getData Scenario.state1)
              = Throw (RequestFailed generic_failure))
    by (vm_compute; reflexivity).
  assert (H' : fst (request object_host Scenario.getData Scenario.state1)
               = Throw conversion_error)
    by (vm_compute; reflexivity).
  split; [reflexivity|]. split; [reflexivity|]. split; [reflexivity|].
  split; [exact H|]. split; [|split; [|split; [|split; [|split]]]].
  - rewrite H. vm_compute. discriminate.
  - reflexivity.
  - reflexivity.
  - exact H'.
  - intros s. rewrite H'. vm_compute. discriminate.
  - vm_compute. reflexivity.
Qed.

(** *** What a computation leaves unchanged *)

Lemma keeps_ret {A : Type} (a : A) : keeps_config (ret a).
Proof. intros st. reflexivity. Qed.

Lemma keeps_throw {A : Type} (e : JsError) : keeps_config (@throw A e).
Proof. intros st. reflexivity. Qed.

Lemma keeps_lift {A : Type} (c : completion A) : keeps_config (lift c).
Proof. intros st. reflexivity. Qed.

Lemma keeps_emit (e : Event) : keeps_config (emit e).
Proof. intros st. reflexivity. Qed.

Lemma keeps_get_config : keeps_config get_config.
Proof. intros st. reflexivity. Qed.

Lemma keeps_Date_now : keeps_config Date_now.
Proof. intros st. reflexivity. Qed.

Lemma keeps_setTimeout_abort (host : Host) (delay : Z) :
  keeps_config (setTimeout_abort host delay).
Proof. intros st. reflexivity. Qed.

Lemma keeps_bind {A B : Type} (m : M A) (k : A -> M B) :
  keeps_config m -> (forall a, keeps_config (k a)) -> keeps_config (bind m k).
Proof.
  intros Hm Hk st. unfold bind. specialize (Hm st).
  destruct (m st) as [[a|e] st']; simpl in *.
  - rewrite (Hk a st'). exact Hm.
  - exact Hm.
Qed.

Lemma keeps_try_catch {A : Type} (m : M A) (h : JsError -> M A) :
  keeps_config m -> (forall e, keeps_config (h e)) ->
  keeps_config (try_catch m h).
Proof.
  intros Hm Hh st. unfold try_catch. specialize (Hm st).
  destruct (m st) as [[a|e] st']; simpl in *.
  - exact Hm.
  - rewrite (Hh e st'). exact Hm.
Qed.

Lemma keeps_when (b : bool) (m : M unit) :
  keeps_config m -> keeps_config (when b m).
Proof. intros Hm. destruct b; [exact Hm | apply keeps_ret]. Qed.

Lemma keeps_new_URL (host : Host) (s : jsstring) : keeps_config (new_URL host s).
Proof.
  unfold new_URL. destruct (URL_parse host s); [apply keeps_ret | apply keeps_throw].
Qed.

Lemma keeps_fetch (host : Host) (url : URL) (signal : Z) :
  keeps_config (fetch host url signal).
Proof.
  intros st. unfold fetch.
  destruct (network host (fetches st) url) as [t r|t e|];
    try destruct (clock st + Z.max 0 t <=? signal); reflexivity.
Qed.

Lemma keeps_get_property (data : json) (key : string) :
  keeps_config (get_property data key).
Proof. destruct data; intros st; reflexivity. Qed.

Lemma keeps_response_json (r : Response) : keeps_config (response_json r).
Proof. intros st. reflexivity. Qed.

Ltac keeps_step :=
  first
    [ apply keeps_bind; [|intros ?]
    | apply keeps_try_catch; [|intros ?]
    | apply keeps_when
    | apply keeps_ret | apply keeps_throw | apply keeps_lift | apply keeps_emit
    | apply keeps_get_config | apply keeps_Date_now
    | apply keeps_setTimeout_abort | apply keeps_new_URL | apply keeps_fetch
    | apply keeps_get_property | apply keeps_response_json
    | match goal with
      | |- keeps_config (if ?b then _ else _) => destruct b
      end ].

Lemma keeps_request_response (c : Config) (r : Response) :
  keeps_config (request_response c r).
Proof. unfold request_response, clearTimeout. repeat keeps_step. Qed.

Lemma keeps_request_catch (e : JsError) : keeps_config (request_catch e).
Proof. unfold request_catch. repeat keeps_step. Qed.

Lemma keeps_request (host : Host) (params : obj) :
  keeps_config (request host params).
Proof.
  unfold request. cbv zeta.
  repeat first [ apply keeps_request_response | apply keeps_request_catch
               | keeps_step ].
Qed.

Lemma keeps_requestSequential_loop (host : Host) (ps : list obj)
  (results : list json) :
  keeps_config (requestSequential_loop host ps results).
Proof.
  revert results. induction ps as [|p ps IH]; intros results; simpl.
  - apply keeps_ret.
  - apply keeps_bind; [apply keeps_request | intros a; apply IH].
Qed.

Lemma timeout_validateConfig (host : Host) (st : State) :
  this_config (snd (validateConfig host st)) = this_config st.
Proof.
  revert st. change (keeps_config (validateConfig host)).
  unfold validateConfig. repeat keeps_step.
Qed.

(** *** The configured timeout *)

(** C9, as the code has it. The constructor stores 30000 when the timeout is
    absent (or zero) and any other value unchanged, so the stored timeout is
    positive when none or a non-negative one was given; [configure] stores
    the timeout of its argument unchecked, so it keeps the timeout positive
    when its argument carries no timeout or a positive one; [enableDebug],
    [disableDebug], [request] and [requestSequential] leave the timeout
    as it is. *)
Theorem timeout_positive_preserved (host : Host) :
  (forall opts st,
      opt_timeout opts = None ->
      timeout (this_config (snd (constructor host opts st))) = 30000)
  /\ (forall opts st,
      (forall n, opt_timeout opts = Some n -> 0 <= n) ->
      0 < timeout (this_config (snd (constructor host opts st))))
  /\ (forall opts st,
      0 < timeout (this_config st) ->
      (forall n, opt_timeout opts = Some n -> 0 < n) ->
      0 < timeout (this_config (snd (configure host opts st))))
  /\ (forall st,
      timeout (this_config (snd (enableDebug st))) = timeout (this_config st)
      /\ timeout (this_config (snd (disableDebug st)))
         = timeout (this_config st))
  /\ (forall params st,
      timeout (this_config (snd (request host params st)))
      = timeout (this_config st))
  /\ (forall requestsArray st,
      timeout (this_config (snd (requestSequential host requestsArray st)))
      = timeout (this_config st))
  /\ (forall opts st,
      opt_timeout opts = Some 0 ->
      timeout (this_config (snd (constructor host opts st))) = 30000)
  /\ (forall opts st n,
      opt_timeout opts = Some n -> n <> 0 ->
      timeout (this_config (snd (constructor host opts st))) = n)
  /\ (forall opts st n,
      opt_timeout opts = Some n ->
      timeout (this_config (snd (configure host opts st))) = n)
  /\ (forall opts st,
      opt_timeout opts = None ->
      timeout (this_config (snd (configure host opts st)))
      = timeout (this_config st)).
Proof.
  split; [|split; [|split; [|split; [|split; [|split; [|split; [|split;
    [|split]]]]]]]].
  - intros opts st Hnone. unfold constructor, bind, set_config. cbv beta iota.
    rewrite timeout_validateConfig. cbn [this_config timeout].
    rewrite Hnone. reflexivity.
  - intros opts st Hopt. unfold constructor, bind, set_config. cbv beta iota.
    rewrite timeout_validateConfig. cbn [this_config timeout].
    unfold or_number. destruct (opt_timeout opts) as [n|]; [|lia].
    specialize (Hopt n eq_refl). destruct (Z.eqb_spec n 0); lia.
  - intros opts st Hpos Hopt. unfold configure, bind, get_config, set_config.
    cbv beta iota. rewrite timeout_validateConfig. cbn [this_config timeout].
    unfold merged. destruct (opt_timeout opts) as [n|];
      [apply Hopt; reflexivity | exact Hpos].
  - intros st. split; reflexivity.
  - intros params st. rewrite (keeps_request host params st). reflexivity.
  - intros ps st. unfold requestSequential.
    rewrite (keeps_requestSequential_loop host ps [] st). reflexivity.
  - intros opts st Hzero. unfold constructor, bind, set_config. cbv beta iota.
    rewrite timeout_validateConfig. cbn [this_config timeout].
    rewrite Hzero. reflexivity.
  - intros opts st n Hn Hne. unfold constructor, bind, set_config.
    cbv beta iota. rewrite timeout_validateConfig. cbn [this_config timeout].
    rewrite Hn. unfold or_number. destruct (Z.eqb_spec n 0);
      [contradiction | reflexivity].
  - intros opts st n Hn. unfold configure, bind, get_config, set_config.
    cbv beta iota. rewrite timeout_validateConfig. cbn [this_config timeout].
    rewrite Hn. reflexivity.
  - intros opts st Hnone. unfold configure, bind, get_config, set_config.
    cbv beta iota. rewrite timeout_validateConfig. cbn [this_config timeout].
    rewrite Hnone. reflexivity.
Qed.

Lemma timeout_positive_preserved_witness :
  0 < timeout (this_config Scenario.state1)
  /\ timeout (this_config (snd (constructor Scenario.silent_host
                                  Scenario.no_options Scenario.state1)))
     = 30000
  /\ 0 < timeout (this_config (snd (configure Scenario.silent_host
                                      (Scenario.only_timeout 5000)
                                      Scenario.state1))).
Proof.
  destruct (timeout_positive_preserved Scenario.silent_host)
    as (Hnew & _ & Hconfigure & _).
  split; [reflexivity|]. split.
  - apply Hnew. reflexivity.
  - apply Hconfigure; [reflexivity|].
    intros n H. injection H as <-. reflexivity.
Defined.

(** C9, counterexample. [configure({timeout: 0})] on a client whose timeout
    is 30000 leaves it with the timeout 0, and [new ...({timeout: -5})]
    builds a client with the timeout -5. *)
Lemma timeout_not_always_positive :
  0 < timeout (this_config Scenario.state1)
  /\ timeout (this_config (snd (configure Scenario.silent_host
                                  (Scenario.only_timeout 0) Scenario.state1)))
     = 0
  /\ timeout (this_config (snd (constructor Scenario.silent_host
                                  (Scenario.only_timeout (-5)) Scenario.state1)))
     = -5
  /\ ~ (forall host opts st,
          0 < timeout (this_config st) ->
          0 < timeout (this_config (snd (configure host opts st)))).
Proof.
  split; [reflexivity|]. split; [reflexivity|]. split; [reflexivity|].
  intros H.
  specialize (H Scenario.silent_host (Scenario.only_timeout 0) Scenario.state1
                eq_refl).
  vm_compute in H. discriminate.
Qed.

(** *** Sequential requests *)

Lemma requestSequential_loop_Successes (host : Host) (ps : list obj)
  (st st' : State) (rs : list json) :
  Successes host ps st rs st' ->
  forall acc, requestSequential_loop host ps acc st = (Normal (acc ++ rs), st').
Proof.
  induction 1 as [st|p rest st st' st'' r rs Hreq _ IH]; intros acc; simpl.
  - rewrite app_nil_r. reflexivity.
  - unfold bind. rewrite Hreq. rewrite IH. rewrite <- app_assoc. reflexivity.
Qed.

Lemma requestSequential_loop_failure (host : Host) (pre : list obj)
  (st st1 : State) (rs : list json) :
  Successes host pre st rs st1 ->
  forall p post e st2 acc,
    request host p st1 = (Throw e, st2) ->
    requestSequential_loop host (pre ++ p :: post) acc st = (Throw e, st2).
Proof.
  induction 1 as [st|p0 rest st st' st'' r rs Hreq _ IH];
    intros p post e st2 acc Hfail; simpl.
  - unfold bind. rewrite Hfail. reflexivity.
  - unfold bind. rewrite Hreq. apply IH, Hfail.
Qed.

Lemma requestSequential_cases (host : Host) (ps : list obj) (st : State) :
  (exists rs st', Successes host ps st rs st')
  \/ (exists pre p post rs st1 e st2,
         ps = pre ++ p :: post
         /\ Successes host pre st rs st1
         /\ request host p st1 = (Throw e, st2)).
Proof.
  revert st. induction ps as [|p ps IH]; intros st.
  - left. exists [], st. constructor.
  - destruct (request host p st) as [[r|e] st'] eqn:Hreq.
    + destruct (IH st') as [(rs & st'' & Hs)
                           |(pre & q & post & rs & st1 & e & st2 & -> & Hs & Hf)].
      * left. exists (r :: rs), st''. econstructor; eassumption.
      * right. exists (p :: pre), q, post, (r :: rs), st1, e, st2.
        split; [reflexivity|]. split; [|exact Hf].
        econstructor; eassumption.
    + right. exists [], p, ps, [], st, e, st'.
      split; [reflexivity|]. split; [constructor | exact Hreq].
Qed.

(** C7. [requestSequential] runs the requests in input order, each from the
    state in which the previous one ended. When all succeed it returns their
    results in input order. When a member fails after the ones before it
    succeeded, it throws that member's error and ends in the state in which
    that member ended: the remaining members are not run, and the results
    obtained so far are not returned. One of the two cases always applies. *)
Theorem requestSequential_in_order (host : Host) (requestsArray : list obj)
  (st : State) :
  (forall results st',
      Successes host requestsArray st results st' ->
      requestSequential host requestsArray st = (Normal results, st'))
  /\ (forall pre params post results st1 e st2,
      requestsArray = pre ++ params :: post ->
      Successes host pre st results st1 ->
      request host params st1 = (Throw e, st2) ->
      requestSequential host requestsArray st = (Throw e, st2))
  /\ ((exists results st', Successes host requestsArray st results st')
      \/ (exists pre params post results st1 e st2,
             requestsArray = pre ++ params :: post
             /\ Successes host pre st results st1
             /\ request host params st1 = (Throw e, st2))).
Proof.
  split; [|split].
  - intros rs st' Hs. unfold requestSequential.
    apply (requestSequential_loop_Successes host _ _ _ _ Hs []).
  - intros pre p post rs st1 e st2 -> Hs Hf. unfold requestSequential.
    apply (requestSequential_loop_failure host pre st st1 rs Hs p post e st2 [] Hf).
  - apply requestSequential_cases.
Qed.

Lemma requestSequential_in_order_witness :
  fst (requestSequential Scenario.first_only
         [Scenario.getData; Scenario.getData] Scenario.state1)
  = Throw (RequestFailed (lit "bad token"))
  /\ List.length
       (fetched (trace (snd (requestSequential Scenario.first_only
          [Scenario.getData; Scenario.getData; Scenario.getData]
          Scenario.state1)))) = 2%nat.
Proof.
  assert (Hs : exists st1,
    Successes Scenario.first_only [Scenario.getData] Scenario.state1
      [Scenario.success_body] st1).
  { eexists. econstructor; [vm_compute; reflexivity | constructor]. }
  destruct Hs as [st1 Hs].
  assert (Hf : exists st2, request Scenario.first_only Scenario.getData st1
                           = (Throw (RequestFailed (lit "bad token")), st2)
                           /\ List.length (fetched (trace st2)) = 2%nat).
  { inversion Hs as [|? ? ? ? ? ? ? Hreq Hnil]; subst.
    inversion Hnil; subst. vm_compute in Hreq.
    injection Hreq as <-. eexists. split; vm_compute; reflexivity. }
  destruct Hf as (st2 & Hf & Hlen).
  split.
  - rewrite (proj1 (proj2 (requestSequential_in_order Scenario.first_only
       [Scenario.getData; Scenario.getData] Scenario.state1))
       [Scenario.getData] Scenario.getData [] _ _ _ _ eq_refl Hs Hf).
    reflexivity.
  - rewrite (proj1 (proj2 (requestSequential_in_order Scenario.first_only
       [Scenario.getData; Scenario.getData; Scenario.getData] Scenario.state1))
       [Scenario.getData] Scenario.getData [Scenario.getData] _ _ _ _
       eq_refl Hs Hf).
    exact Hlen.
Defined.

(** *** The network calls of a computation *)

Lemma silent_pure {A : Type} (m : M A) :
  (forall st, snd (m st) = st) -> silent m.
Proof.
  intros H st. exists []. rewrite H, app_nil_r. split; reflexivity.
Qed.

Lemma silent_emit (e : Event) : fetched [e] = [] -> silent (emit e).
Proof. intros H st. exists [e]. split; [reflexivity | exact H]. Qed.

Lemma issues_bind {A B : Type} (urls : list URL) (m : M A) (k : A -> M B) :
  issues urls m -> (forall a, silent (k a)) -> issues urls (bind m k).
Proof.
  intros Hm Hk st. unfold bind. destruct (Hm st) as (evs & Ht & Hf).
  destruct (m st) as [[a|e] st']; simpl in *.
  - destruct (Hk a st') as (evs' & Ht' & Hf').
    exists (evs ++ evs'). rewrite Ht', Ht, app_assoc. split; [reflexivity|].
    rewrite fetched_app, Hf, Hf'. apply app_nil_r.
  - exists evs. split; assumption.
Qed.

Lemma issues_try_catch {A : Type} (urls : list URL) (m : M A)
  (h : JsError -> M A) :
  issues urls m -> (forall e, silent (h e)) -> issues urls (try_catch m h).
Proof.
  intros Hm Hh st. unfold try_catch. destruct (Hm st) as (evs & Ht & Hf).
  destruct (m st) as [[a|e] st']; simpl in *.
  - exists evs. split; assumption.
  - destruct (Hh e st') as (evs' & Ht' & Hf').
    exists (evs ++ evs'). rewrite Ht', Ht, app_assoc. split; [reflexivity|].
    rewrite fetched_app, Hf, Hf'. apply app_nil_r.
Qed.

Lemma issues_fetch (host : Host) (url : URL) (signal : Z) :
  issues [url] (fetch host url signal).
Proof.
  intros st. unfold fetch.
  destruct (network host (fetches st) url) as [t r|t e|];
    try destruct (clock st + Z.max 0 t <=? signal); simpl;
    (exists [fetch_start url]; split; reflexivity)
    || (exists [fetch_start url; fetch_aborted]; rewrite <- app_assoc;
        split; reflexivity).
Qed.

Lemma silent_response_json (r : Response) : silent (response_json r).
Proof.
  intros st. exists []. unfold response_json. simpl.
  rewrite app_nil_r. split; reflexivity.
Qed.

Ltac silent_step :=
  first
    [ apply issues_bind; [|intros ?]
    | apply silent_emit; reflexivity
    | apply silent_response_json
    | apply silent_pure; intros ?; reflexivity
    | match goal with
      | |- silent (if ?b then _ else _) => destruct b
      | |- issues [] (if ?b then _ else _) => destruct b
      | |- silent (when ?b _) => destruct b; unfold when
      | |- issues [] (when ?b _) => destruct b; unfold when
      | |- silent (get_property ?d _) => destruct d; unfold get_property
      | |- issues [] (get_property ?d _) => destruct d; unfold get_property
      end ].

Lemma silent_request_response (c : Config) (r : Response) :
  silent (request_response c r).
Proof. unfold request_response, clearTimeout. repeat silent_step. Qed.

Lemma silent_request_catch (e : JsError) : silent (request_catch e).
Proof. unfold request_catch. repeat silent_step. Qed.

(** A request with a complete configuration, a signature and a valid
    endpoint makes exactly one network call, whatever the network does. *)
Lemma request_calls_once (host : Host) (params : obj) (st : State)
  (sig : jsstring) (u0 : URL) :
  let c := this_config st in
  complete c ->
  createSignature (securityParams host c (clock st) params) (hmacSecret c)
  = Normal sig ->
  URL_parse host (scriptUrl c) = Some u0 ->
  let url :=
    appendAll (set (securityParams host c (clock st) params)
                   (lit "signature") sig) u0 in
  exists evs,
    trace (snd (request host params st)) = trace st ++ evs
    /\ fetched evs = [url].
Proof.
  intros c Hc Hsig Hurl url.
  rewrite (request_issues host params st sig u0 Hc Hsig Hurl). fold c url.
  assert (H : issues [url]
    (try_catch
       (response <- fetch host url (clock st + honoured host (timeout c)) ;;
        request_response c response) request_catch)).
  { apply issues_try_catch; [|apply silent_request_catch].
    apply issues_bind; [apply issues_fetch|].
    intros r. apply silent_request_response. }
  destruct (H (mkState c (clock st) (fetches st)
                 (trace st ++ debug_lines c url params ++ [timer_set (timeout c)])))
    as (evs & Ht & Hf).
  exists ((debug_lines c url params ++ [timer_set (timeout c)]) ++ evs).
  split.
  - rewrite Ht. cbn [trace]. rewrite <- !app_assoc. reflexivity.
  - rewrite fetched_app, Hf. unfold debug_lines. destruct (debug c); reflexivity.
Qed.

(** *** The envelope *)

Ltac lit_neq := let H := fresh in intros H; vm_compute in H; discriminate H.

Lemma get_keys (o : obj) (k : jsstring) :
  In k (keys_of o) <-> exists v, get o k = Some v.
Proof.
  induction o as [|[k' v'] o IH]; simpl.
  - split; [contradiction | intros [v H]; discriminate].
  - destruct (str_eqb k' k) eqn:E.
    + apply str_eqb_eq in E. split; [intros _; exists v'; reflexivity|].
      intros _. left. exact E.
    + rewrite <- IH. split; [|intros H; right; exact H].
      intros [->|H]; [|exact H]. rewrite str_eqb_refl in E. discriminate.
Qed.

Lemma entries_of_keys (o : obj) (ks : list jsstring) (k v : jsstring) :
  Permutation ks (keys_of o) ->
  (In (k, v) (map (fun k => (k, interpolate (get o k))) ks)
   <-> get o k = Some v).
Proof.
  intros Hp. rewrite in_map_iff. split.
  - intros (k' & [= -> <-] & Hin).
    apply (Permutation_in _ Hp) in Hin. apply get_keys in Hin.
    destruct Hin as [v Hv]. rewrite Hv. reflexivity.
  - intros Hget. exists k. rewrite Hget. split; [reflexivity|].
    apply (Permutation_in _ (Permutation_sym Hp)).
    apply get_keys. exists v. exact Hget.
Qed.

Lemma securityParams_injected (host : Host) (c : Config) (now : Z)
  (params : obj) :
  let signed := securityParams host c now params in
  get signed (lit "token") = Some (apiToken c)
  /\ get signed (lit "timestamp") = Some (Number_toString now)
  /\ get signed (lit "referrer") = Some (location_origin host)
  /\ get signed (lit "origin") = Some (location_origin host).
Proof.
  unfold securityParams. repeat split.
  - rewrite !get_set_other by lit_neq. apply get_set_same.
  - rewrite !get_set_other by lit_neq. apply get_set_same.
  - rewrite !get_set_other by lit_neq. apply get_set_same.
  - apply get_set_same.
Qed.

Lemma wf_securityParams (host : Host) (c : Config) (now : Z) (params : obj) :
  wf_obj params -> wf_obj (securityParams host c now params).
Proof.
  intros Hwf. unfold securityParams. repeat apply wf_set. apply wf_spread, Hwf.
Qed.

(** C10, as the code has it. When [params] itself has properties named
    token, timestamp, referrer or origin, the envelope that is signed holds
    the injected values for them, not the caller's; the envelope that is sent
    holds the same injected values and the computed signature under the key
    signature, whatever the caller supplied under that key; each key is sent
    once, with the value the envelope has for it. *)
Theorem reserved_keys_overwritten (host : Host) (params : obj) (st : State)
  (sig : jsstring) (u0 : URL) :
  let c := this_config st in
  complete c ->
  wf_obj params ->
  createSignature (securityParams host c (clock st) params) (hmacSecret c)
  = Normal sig ->
  URL_parse host (scriptUrl c) = Some u0 ->
  let signed := securityParams host c (clock st) params in
  let sent := set signed (lit "signature") sig in
  (get signed (lit "token") = Some (apiToken c)
   /\ get signed (lit "timestamp") = Some (Number_toString (clock st))
   /\ get signed (lit "referrer") = Some (location_origin host)
   /\ get signed (lit "origin") = Some (location_origin host))
  /\ (get sent (lit "token") = Some (apiToken c)
      /\ get sent (lit "timestamp") = Some (Number_toString (clock st))
      /\ get sent (lit "referrer") = Some (location_origin host)
      /\ get sent (lit "origin") = Some (location_origin host)
      /\ get sent (lit "signature") = Some sig)
  /\ exists evs appended,
       trace (snd (request host params st)) = trace st ++ evs
       /\ fetched evs = [mkURL (address u0) (searchParams u0 ++ appended)]
       /\ NoDup (map fst appended)
       /\ forall k v, In (k, v) appended <-> get sent k = Some v.
Proof.
  intros c Hc Hwf Hsig Hurl signed sent.
  destruct (securityParams_injected host c (clock st) params)
    as (Htoken & Htime & Href & Horigin).
  fold signed in Htoken, Htime, Href, Horigin.
  split; [repeat split; assumption|]. split.
  - unfold sent. rewrite !get_set_other by lit_neq.
    repeat split; try assumption. apply get_set_same.
  - destruct (request_calls_once host params st sig u0 Hc Hsig Hurl)
      as (evs & Ht & Hf).
    fold c signed sent in Hf.
    exists evs,
      (map (fun k => (k, interpolate (get sent k))) (Object_keys sent)).
    split; [exact Ht|]. split.
    { rewrite Hf, appendAll_searchParams. reflexivity. }
    assert (Hsent : wf_obj sent)
      by (apply wf_set, wf_securityParams, Hwf).
    split.
    + rewrite map_map. simpl. rewrite map_id.
      apply NoDup_Object_keys, Hsent.
    + intros k v. apply entries_of_keys, Object_keys_Permutation.
Qed.

Lemma set_after (o extra : obj) (k v : jsstring) :
  ~ In k (keys_of o) -> ~ In k (keys_of extra) ->
  set (o ++ extra) k v = o ++ extra ++ [(k, v)].
Proof.
  intros Ho He. rewrite set_fresh.
  - rewrite <- app_assoc. reflexivity.
  - unfold keys_of in *. rewrite map_app. intros Hin.
    apply in_app_or in Hin. tauto.
Qed.

Lemma reserved_not_index : Forall (fun k => is_index k = false) reserved_keys.
Proof. repeat constructor. Qed.

(** Without reserved keys among the parameters, the envelope is the copy of
    the parameters followed by the four injected fields. *)
Lemma securityParams_fresh (host : Host) (c : Config) (now : Z) (params : obj) :
  wf_obj params ->
  (forall k, In k reserved_keys -> ~ In k (keys_of params)) ->
  securityParams host c now params
  = map (fun k => (k, interpolate (get params k))) (Object_keys params)
    ++ [(lit "token", apiToken c); (lit "timestamp", Number_toString now);
        (lit "referrer", location_origin host);
        (lit "origin", location_origin host)].
Proof.
  intros Hwf Hfresh. unfold securityParams.
  rewrite (spread_entries params Hwf).
  set (copied := map (fun k => (k, interpolate (get params k)))
                     (Object_keys params)).
  assert (Hcopied : forall k, In k reserved_keys -> ~ In k (keys_of copied)).
  { intros k Hk Hin. apply (Hfresh k Hk).
    unfold copied, keys_of in Hin. rewrite map_map in Hin. simpl in Hin.
    rewrite map_id in Hin.
    apply (Permutation_in _ (Object_keys_Permutation params)), Hin. }
  rewrite (set_fresh copied (lit "token"))
    by (apply Hcopied; vm_compute; tauto).
  rewrite (set_after copied _ (lit "timestamp"));
    [| apply Hcopied; vm_compute; tauto | intros [H|[]]; revert H; lit_neq].
  rewrite (set_after copied _ (lit "referrer"));
    [| apply Hcopied; vm_compute; tauto
     | intros [H|[H|[]]]; revert H; lit_neq].
  rewrite (set_after copied _ (lit "origin"));
    [| apply Hcopied; vm_compute; tauto
     | intros [H|[H|[H|[]]]]; revert H; lit_neq].
  reflexivity.
Qed.

Lemma entries_keys_of (o : obj) :
  wf_obj o -> map (fun k => (k, interpolate (get o k))) (keys_of o) = o.
Proof.
  intros Hwf. unfold keys_of. rewrite map_map.
  rewrite (map_ext_in _ (fun kv => kv)).
  - apply map_id.
  - intros [k v] Hin. simpl.
    apply (get_In o k v Hwf) in Hin. rewrite Hin. reflexivity.
Qed.

Lemma Object_keys_plain (o : obj) :
  Forall (fun k => is_index k = false) (keys_of o) ->
  Object_keys o = keys_of o.
Proof.
  intros H. unfold Object_keys, OwnPropertyKeys.
  rewrite (index_entries_none _ H), (filter_other_all _ H). reflexivity.
Qed.

(** C2. With a complete configuration and parameters that hold none of the
    reserved keys, [request] sends one call whose query is the one of the
    endpoint followed by: the parameters (in own-property order, which is
    their insertion order when no key is an array index), then token,
    timestamp (the clock reading in decimal), referrer and origin (both the
    page origin), then signature; and the signature is the one computed by
    [createSignature] over all the fields that precede it. *)
Theorem request_query_order (host : Host) (params : obj) (st : State)
  (sig : jsstring) (u0 : URL) :
  let c := this_config st in
  complete c ->
  wf_obj params ->
  (forall k, In k reserved_keys -> ~ In k (keys_of params)) ->
  createSignature (securityParams host c (clock st) params) (hmacSecret c)
  = Normal sig ->
  URL_parse host (scriptUrl c) = Some u0 ->
  let copied :=
    map (fun k => (k, interpolate (get params k))) (Object_keys params) in
  let injected :=
    [(lit "token", apiToken c);
     (lit "timestamp", Number_toString (clock st));
     (lit "referrer", location_origin host);
     (lit "origin", location_origin host)] in
  Permutation copied params
  /\ (Forall (fun k => is_index k = false) (keys_of params) -> copied = params)
  /\ createSignature (copied ++ injected) (hmacSecret c) = Normal sig
  /\ exists evs,
       trace (snd (request host params st)) = trace st ++ evs
       /\ fetched evs
          = [mkURL (address u0)
               (searchParams u0 ++ copied ++ injected
                ++ [(lit "signature", sig)])].
Proof.
  intros c Hc Hwf Hfresh Hsig Hurl copied injected.
  assert (Henv : securityParams host c (clock st) params = copied ++ injected)
    by (apply securityParams_fresh; assumption).
  assert (Hkeys : keys_of copied = Object_keys params).
  { unfold copied, keys_of. rewrite map_map. simpl. apply map_id. }
  split; [|split; [|split]].
  - apply wf_obj_entries; [exact Hwf | apply Object_keys_Permutation].
  - intros Hplain. unfold copied. rewrite (Object_keys_plain params Hplain).
    apply entries_keys_of, Hwf.
  - rewrite <- Henv. exact Hsig.
  - destruct (request_calls_once host params st sig u0 Hc Hsig Hurl)
      as (evs & Ht & Hf).
    exists evs. split; [exact Ht|]. rewrite Hf. f_equal.
    rewrite appendAll_searchParams. f_equal. f_equal. fold c.
    assert (Hsent : set (securityParams host c (clock st) params)
                        (lit "signature") sig
                    = copied ++ injected ++ [(lit "signature", sig)]).
    { rewrite Henv. apply set_after.
      - rewrite Hkeys. intros Hin.
        apply (Hfresh (lit "signature")); [vm_compute; tauto|].
        apply (Permutation_in _ (Object_keys_Permutation params)), Hin.
      - intros [H|[H|[H|[H|[]]]]]; revert H; lit_neq. }
    assert (Hwfsent : wf_obj (set (securityParams host c (clock st) params)
                               (lit "signature") sig))
      by (apply wf_set, wf_securityParams, Hwf).
    rewrite Hsent in *.
    assert (Hown : Object_keys (copied ++ injected ++ [(lit "signature", sig)])
                   = keys_of (copied ++ injected ++ [(lit "signature", sig)])).
    { unfold Object_keys at 1, keys_of at 1 2. rewrite !map_app.
      fold (keys_of copied). rewrite Hkeys. unfold Object_keys.
      apply (OwnPropertyKeys_stable (keys_of params) reserved_keys).
      exact reserved_not_index. }
    rewrite Hown. apply entries_keys_of, Hwfsent.
Qed.

Lemma wf_getData : wf_obj Scenario.getData.
Proof. unfold wf_obj. simpl. constructor; [intros [] | constructor]. Qed.

Lemma request_query_order_witness :
  complete (this_config Scenario.state1)
  /\ wf_obj Scenario.getData
  /\ signatureString
       [(lit "action", lit "getData"); (lit "token", lit "T1");
        (lit "timestamp", lit "1700000000000");
        (lit "referrer", Scenario.page); (lit "origin", Scenario.page)]
     = lit "action=getData&origin=https://page.test&referrer=https://page.test&timestamp=1700000000000&token=T1"
  /\ createSignature
       [(lit "action", lit "getData"); (lit "token", lit "T1");
        (lit "timestamp", lit "1700000000000");
        (lit "referrer", Scenario.page); (lit "origin", Scenario.page)]
       (lit "S1")
     = Normal Scenario.signature1
  /\ exists evs,
       trace (snd (request Scenario.silent_host Scenario.getData
                     Scenario.state1)) = evs
       /\ fetched evs
          = [mkURL (lit "https://example.test/api")
               [(lit "action", lit "getData"); (lit "token", lit "T1");
                (lit "timestamp", lit "1700000000000");
                (lit "referrer", Scenario.page); (lit "origin", Scenario.page);
                (lit "signature", Scenario.signature1)]].
Proof.
  assert (Hfresh : forall k, In k reserved_keys ->
                             ~ In k (keys_of Scenario.getData)).
  { intros k Hk [<-|[]]. vm_compute in Hk. intuition discriminate. }
  assert (Hsig :
    createSignature
      (securityParams Scenario.silent_host (this_config Scenario.state1)
         (clock Scenario.state1) Scenario.getData)
      (hmacSecret (this_config Scenario.state1))
    = Normal Scenario.signature1) by (vm_compute; reflexivity).
  destruct (request_query_order Scenario.silent_host Scenario.getData
              Scenario.state1 Scenario.signature1 Scenario.endpoint
              complete_config1 wf_getData Hfresh Hsig eq_refl)
    as (_ & _ & Hsigned & evs & Ht & Hf).
  split; [exact complete_config1|]. split; [exact wf_getData|].
  split; [vm_compute; reflexivity|]. split; [exact Hsigned|].
  exists evs. split; [exact Ht | exact Hf].
Defined.

Lemma wf_forged : wf_obj Scenario.forged.
Proof. apply wf_two. reflexivity. Qed.

Lemma reserved_keys_overwritten_witness :
  get Scenario.forged (lit "token") = Some (lit "mine")
  /\ get Scenario.forged (lit "signature") = Some (lit "forged")
  /\ exists evs appended,
       trace (snd (request Scenario.silent_host Scenario.forged
                     Scenario.state1)) = evs
       /\ fetched evs = [mkURL (lit "https://example.test/api") appended]
       /\ NoDup (map fst appended)
       /\ In (lit "token", lit "T1") appended
       /\ In (lit "signature", Scenario.signature_forged) appended.
Proof.
  assert (Hsig :
    createSignature
      (securityParams Scenario.silent_host (this_config Scenario.state1)
         (clock Scenario.state1) Scenario.forged)
      (hmacSecret (this_config Scenario.state1))
    = Normal Scenario.signature_forged) by (vm_compute; reflexivity).
  destruct (reserved_keys_overwritten Scenario.silent_host Scenario.forged
              Scenario.state1 Scenario.signature_forged Scenario.endpoint
              complete_config1 wf_forged Hsig eq_refl)
    as (_ & (Htoken & _ & _ & _ & Hsignature)
          & evs & appended & Ht & Hf & Hnd & Hin).
  split; [reflexivity|]. split; [reflexivity|].
  exists evs, appended. split; [exact Ht|]. split; [exact Hf|].
  split; [exact Hnd|]. split; apply Hin; assumption.
Defined.

(** C10, counterexample. For the parameters {signature: "forged", token:
    "mine"} the envelope handed to [createSignature] still holds the
    caller's signature: the string that is signed contains
    "signature=forged", and the signature that is sent is the digest of that
    string. *)
Lemma caller_signature_is_signed :
  let signed :=
    securityParams Scenario.silent_host Scenario.config1 1700000000000
      Scenario.forged in
  get Scenario.forged (lit "signature") = Some (lit "forged")
  /\ get signed (lit "signature") = Some (lit "forged")
  /\ signatureString signed
     = lit "origin=https://page.test&referrer=https://page.test&signature=forged&timestamp=1700000000000&token=T1"
  /\ createSignature signed (lit "S1") = Normal Scenario.signature_forged
  /\ fetched (trace (snd (request Scenario.silent_host Scenario.forged
                            Scenario.state1)))
     = [mkURL (lit "https://example.test/api")
          [(lit "signature", Scenario.signature_forged);
           (lit "token", lit "T1");
           (lit "timestamp", lit "1700000000000");
           (lit "referrer", Scenario.page); (lit "origin", Scenario.page)]].
Proof.
  intros signed.
  split; [reflexivity|]. split; [reflexivity|].
  split; [vm_compute; reflexivity|]. split; vm_compute; reflexivity.
Qed.

(* ================================================================= *)
(** ** Further properties of the client *)

(** *** When the signature can be computed *)

Lemma is_well_formed_nil : is_well_formed [] = true.
Proof. reflexivity. Qed.

Lemma surrogate_cases (c : Z) :
  is_surrogate c = false ->
  is_low_surrogate c = false /\ is_high_surrogate c = false.
Proof.
  unfold is_surrogate, is_low_surrogate, is_high_surrogate. intros H.
  destruct (Z.leb_spec 0xD800 c), (Z.leb_spec c 0xDFFF),
    (Z.leb_spec 0xDC00 c), (Z.leb_spec c 0xDBFF); simpl in *;
    try discriminate; split; reflexivity || lia.
Qed.

Lemma is_well_formed_cons (c : Z) (s : jsstring) :
  is_surrogate c = false -> is_well_formed (c :: s) = is_well_formed s.
Proof.
  intros H. destruct (surrogate_cases c H) as [Hl Hh].
  unfold is_well_formed. simpl. rewrite Hl, Hh.
  destruct (Utf8_parse s); reflexivity.
Qed.

Lemma is_well_formed_pair (c d : Z) (s : jsstring) :
  is_low_surrogate c = false -> is_high_surrogate c = true ->
  is_low_surrogate d = true ->
  is_well_formed (c :: d :: s) = is_well_formed s.
Proof.
  intros Hl Hh Hd. unfold is_well_formed. simpl. rewrite Hl, Hh, Hd.
  destruct (Utf8_parse s); reflexivity.
Qed.

(** A separator that is not a surrogate keeps the two sides apart. *)
Lemma is_well_formed_sep (sep : Z) (b : jsstring) :
  is_surrogate sep = false ->
  forall (n : nat) (a : jsstring),
    (List.length a <= n)%nat ->
    is_well_formed (a ++ sep :: b) = is_well_formed a && is_well_formed b.
Proof.
  intros Hsep. induction n as [|n IH]; intros a Hlen.
  - destruct a; [|simpl in Hlen; lia]. simpl.
    apply is_well_formed_cons, Hsep.
  - destruct a as [|c rest]; [simpl; apply is_well_formed_cons, Hsep|].
    simpl in Hlen. simpl app.
    destruct (is_low_surrogate c) eqn:Hl.
    { unfold is_well_formed. simpl. rewrite Hl. reflexivity. }
    destruct (is_high_surrogate c) eqn:Hh.
    + destruct rest as [|d rest'].
      * simpl app. destruct (surrogate_cases sep Hsep) as [Hsl _].
        unfold is_well_formed. simpl. rewrite Hl, Hh, Hsl. reflexivity.
      * simpl app. destruct (is_low_surrogate d) eqn:Hd.
        -- rewrite !(is_well_formed_pair c d _ Hl Hh Hd).
           apply IH. simpl in Hlen. lia.
        -- unfold is_well_formed. simpl. rewrite Hl, Hh, Hd. reflexivity.
    + assert (Hc : forall s, is_well_formed (c :: s) = is_well_formed s).
      { intros s. unfold is_well_formed. simpl. rewrite Hl, Hh.
        destruct (Utf8_parse s); reflexivity. }
      rewrite !Hc. apply IH. lia.
Qed.

Lemma is_well_formed_field (k v : jsstring) :
  is_well_formed (k ++ lit "=" ++ v) = is_well_formed k && is_well_formed v.
Proof.
  change (k ++ lit "=" ++ v) with (k ++ 61 :: v).
  apply (is_well_formed_sep 61 v eq_refl (List.length k)). lia.
Qed.

Lemma is_well_formed_join (l : list jsstring) :
  is_well_formed (Array_join (lit "&") l) = forallb is_well_formed l.
Proof.
  induction l as [|x l IH].
  - reflexivity.
  - destruct l as [|y l'].
    + simpl. rewrite andb_true_r. reflexivity.
    + change (Array_join (lit "&") (x :: y :: l'))
        with (x ++ 38 :: Array_join (lit "&") (y :: l')).
      rewrite (is_well_formed_sep 38 _ eq_refl (List.length x)) by lia.
      rewrite IH. reflexivity.
Qed.

Lemma forallb_map_comp {A B : Type} (f : B -> bool) (g : A -> B) (l : list A) :
  forallb f (map g l) = forallb (fun x => f (g x)) l.
Proof.
  induction l as [|x l IH]; simpl; [reflexivity | rewrite IH; reflexivity].
Qed.

Lemma forallb_pointwise {A : Type} (f g : A -> bool) (l : list A) :
  (forall x, f x = g x) -> forallb f l = forallb g l.
Proof.
  intros H. induction l as [|x l IH]; simpl;
    [reflexivity | rewrite H, IH; reflexivity].
Qed.

Lemma forallb_Permutation {A : Type} (f : A -> bool) (l l' : list A) :
  Permutation l l' -> forallb f l = forallb f l'.
Proof.
  induction 1 as [|x l l' _ IH|x y l|l l' l'' _ IH1 _ IH2]; simpl.
  - reflexivity.
  - rewrite IH. reflexivity.
  - destruct (f x), (f y); reflexivity.
  - rewrite IH1. exact IH2.
Qed.

Lemma signatureString_well_formed (params : obj) :
  wf_obj params ->
  is_well_formed (signatureString params)
  = forallb (fun kv => is_well_formed (fst kv) && is_well_formed (snd kv))
            params.
Proof.
  intros Hwf. unfold signatureString.
  rewrite is_well_formed_join, forallb_map_comp.
  rewrite <- (forallb_Permutation _ _ _
    (wf_obj_entries params (sortedKeys params) Hwf
       (sortedKeys_Permutation params))).
  rewrite forallb_map_comp. apply forallb_pointwise. intros k.
  apply is_well_formed_field.
Qed.

Lemma HmacSHA256_toString_cases (message key : jsstring) :
  (is_well_formed key && is_well_formed message = true ->
   exists sig, HmacSHA256_toString message key = Normal sig)
  /\ (is_well_formed key && is_well_formed message = false ->
      HmacSHA256_toString message key = Throw URIError)
  /\ (forall e, HmacSHA256_toString message key = Throw e -> e = URIError).
Proof.
  unfold HmacSHA256_toString, is_well_formed.
  destruct (Utf8_parse key) as [k|]; destruct (Utf8_parse message) as [m|];
    cbv beta iota.
  - generalize (Hex_stringify (hash_bytes (HMAC_SHA256 k m))). intros digest.
    split; [intros _; exists digest; reflexivity|].
    split; [intros H; discriminate H | intros e H; discriminate H].
  - split; [intros H; discriminate H|].
    split; [reflexivity | intros e H; injection H as <-; reflexivity].
  - split; [intros H; discriminate H|].
    split; [reflexivity | intros e H; injection H as <-; reflexivity].
  - split; [intros H; discriminate H|].
    split; [reflexivity | intros e H; injection H as <-; reflexivity].
Qed.

(** X3. [createSignature] returns a digest exactly when the secret and every key
    and value of the parameters are well-formed UTF-16, and otherwise throws
    the URIError of the UTF-8 conversion; it throws nothing else. *)
Theorem createSignature_returns_iff (params : obj) (secret : jsstring) :
  wf_obj params ->
  let well_formed :=
    is_well_formed secret
    && forallb (fun kv => is_well_formed (fst kv) && is_well_formed (snd kv))
               params in
  (well_formed = true -> exists sig, createSignature params secret = Normal sig)
  /\ (well_formed = false -> createSignature params secret = Throw URIError)
  /\ (forall e, createSignature params secret = Throw e -> e = URIError).
Proof.
  intros Hwf well_formed. unfold well_formed.
  rewrite <- (signatureString_well_formed params Hwf).
  unfold createSignature, computeHMAC.
  apply HmacSHA256_toString_cases.
Qed.

Lemma createSignature_returns_iff_witness :
  wf_obj Scenario.getData
  /\ (exists sig, createSignature Scenario.getData (lit "S1") = Normal sig)
  /\ createSignature Scenario.broken_value (lit "S1") = Throw URIError.
Proof.
  assert (Hb : wf_obj Scenario.broken_value).
  { unfold wf_obj. simpl. constructor; [intros [] | constructor]. }
  split; [exact wf_getData|]. split.
  - apply (createSignature_returns_iff Scenario.getData (lit "S1") wf_getData).
    reflexivity.
  - apply (createSignature_returns_iff Scenario.broken_value (lit "S1") Hb).
    reflexivity.
Defined.

(** *** When the canonical string determines the parameters *)

Lemma split_at_separator (sep : Z) (a a' t t' : jsstring) :
  ~ In sep a -> ~ In sep a' ->
  (t = [] \/ exists r, t = sep :: r) ->
  (t' = [] \/ exists r', t' = sep :: r') ->
  a ++ t = a' ++ t' -> a = a' /\ t = t'.
Proof.
  revert a'. induction a as [|x a IH]; intros [|y a'] Ha Ha' Ht Ht' E;
    simpl in E.
  - split; [reflexivity | exact E].
  - exfalso. destruct Ht as [->|[r ->]]; [discriminate|].
    injection E as <- _. apply Ha'. left. reflexivity.
  - exfalso. destruct Ht' as [->|[r ->]]; [discriminate|].
    injection E as -> _. apply Ha. left. reflexivity.
  - injection E as <- E.
    destruct (IH a') as [-> ->]; try assumption.
    + intros H. apply Ha. right. exact H.
    + intros H. apply Ha'. right. exact H.
    + split; reflexivity.
Qed.

Lemma Array_join_cons (x : jsstring) (l : list jsstring) :
  Array_join (lit "&") (x :: l)
  = x ++ match l with
         | [] => []
         | _ :: _ => ampersand :: Array_join (lit "&") l
         end.
Proof. destruct l; simpl; [rewrite app_nil_r|]; reflexivity. Qed.

Lemma Array_join_injective (l l' : list jsstring) :
  Forall (fun x => x <> [] /\ ~ In ampersand x) l ->
  Forall (fun x => x <> [] /\ ~ In ampersand x) l' ->
  Array_join (lit "&") l = Array_join (lit "&") l' -> l = l'.
Proof.
  intros Hl. revert l'. induction Hl as [|x l [Hx Hnx] Hl IH];
    intros l' Hl' E.
  - destruct l' as [|x' l']; [reflexivity|].
    inversion Hl' as [|? ? [Hx' _] _]; subst.
    rewrite Array_join_cons in E. simpl in E.
    destruct x'; [contradiction | discriminate].
  - destruct l' as [|x' l'].
    + rewrite Array_join_cons in E. simpl in E.
      destruct x; [contradiction | discriminate].
    + inversion Hl' as [|? ? [Hx' Hnx'] Hl'']; subst.
      rewrite !Array_join_cons in E.
      apply split_at_separator with (sep := ampersand) in E; try assumption.
      * destruct E as [-> E]. f_equal.
        destruct l as [|y l], l' as [|y' l']; try discriminate.
        -- reflexivity.
        -- injection E as E. apply IH; assumption.
      * destruct l; [left; reflexivity | right; eexists; reflexivity].
      * destruct l'; [left; reflexivity | right; eexists; reflexivity].
Qed.

Lemma fields_injective (f g : jsstring -> jsstring) (ks ks' : list jsstring) :
  Forall (fun k => ~ In equals_sign k) ks ->
  Forall (fun k => ~ In equals_sign k) ks' ->
  map (fun k => k ++ lit "=" ++ f k) ks = map (fun k => k ++ lit "=" ++ g k) ks' ->
  map (fun k => (k, f k)) ks = map (fun k => (k, g k)) ks'.
Proof.
  intros Hks. revert ks'. induction Hks as [|k ks Hk _ IH];
    intros [|k' ks'] Hks' E; simpl in E; try discriminate.
  - reflexivity.
  - inversion Hks' as [|? ? Hk' Hks'']; subst. injection E as E1 E2.
    change (k ++ equals_sign :: f k = k' ++ equals_sign :: g k') in E1.
    apply split_at_separator with (sep := equals_sign) in E1;
      try assumption; try (right; eexists; reflexivity).
    destruct E1 as [-> E1]. injection E1 as E1. simpl. rewrite E1.
    f_equal. apply IH; assumption.
Qed.

Lemma unambiguous_fields (o : obj) :
  wf_obj o -> unambiguous o ->
  Forall (fun k => ~ In equals_sign k) (sortedKeys o)
  /\ Forall (fun x => x <> [] /\ ~ In ampersand x)
       (map (fun key => key ++ lit "=" ++ interpolate (get o key))
            (sortedKeys o)).
Proof.
  intros Hwf Hu. unfold unambiguous in Hu. rewrite Forall_forall in Hu.
  assert (Hin : forall k, In k (sortedKeys o) ->
                 exists v, In (k, v) o /\ get o k = Some v).
  { intros k Hk.
    apply (Permutation_in _ (sortedKeys_Permutation o)) in Hk.
    apply get_keys in Hk. destruct Hk as [v Hv]. exists v.
    split; [apply get_In; assumption | exact Hv]. }
  split.
  - apply Forall_forall. intros k Hk. destruct (Hin k Hk) as (v & Hv & _).
    apply (Hu (k, v) Hv).
  - apply Forall_forall. intros x Hx. apply in_map_iff in Hx.
    destruct Hx as (k & <- & Hk). destruct (Hin k Hk) as (v & Hv & Hget).
    rewrite Hget. simpl interpolate.
    destruct (Hu (k, v) Hv) as (Hk1 & _ & Hv1). simpl in Hk1, Hv1. split.
    + destruct k; discriminate.
    + intros H. apply in_app_or in H. destruct H as [H|[H|H]].
      * contradiction.
      * unfold ampersand in H. discriminate H.
      * contradiction.
Qed.

(** X4. On parameter objects whose keys hold neither '&' nor '=' and whose
    values hold no '&', the canonical string determines the mapping: two
    such objects with the same [signatureString] have the same properties. *)
Theorem signatureString_injective (P P' : obj) :
  wf_obj P -> wf_obj P' -> unambiguous P -> unambiguous P' ->
  signatureString P = signatureString P' -> Permutation P P'.
Proof.
  intros Hwf Hwf' Hu Hu' E.
  destruct (unambiguous_fields P Hwf Hu) as [Hk Hf].
  destruct (unambiguous_fields P' Hwf' Hu') as [Hk' Hf'].
  unfold signatureString in E.
  apply Array_join_injective in E; try assumption.
  apply fields_injective in E; try assumption.
  apply Permutation_trans with
    (map (fun k => (k, interpolate (get P k))) (sortedKeys P)).
  - apply Permutation_sym, wf_obj_entries;
      [exact Hwf | apply sortedKeys_Permutation].
  - rewrite E. apply wf_obj_entries;
      [exact Hwf' | apply sortedKeys_Permutation].
Qed.

Lemma unambiguous_two (k1 k2 v1 v2 : jsstring) :
  forallb (fun c => negb (c =? ampersand) && negb (c =? equals_sign)) (k1 ++ k2)
  = true ->
  forallb (fun c => negb (c =? ampersand)) (v1 ++ v2) = true ->
  unambiguous [(k1, v1); (k2, v2)].
Proof.
  intros Hk Hv.
  assert (Hkeys : forall c, In c (k1 ++ k2) ->
                            c <> ampersand /\ c <> equals_sign).
  { intros c Hc. rewrite forallb_forall in Hk. specialize (Hk c Hc).
    apply andb_true_iff in Hk. destruct Hk as [H1 H2].
    apply negb_true_iff in H1, H2. split; apply Z.eqb_neq; assumption. }
  assert (Hvals : forall c, In c (v1 ++ v2) -> c <> ampersand).
  { intros c Hc. rewrite forallb_forall in Hv. specialize (Hv c Hc).
    apply negb_true_iff in Hv. apply Z.eqb_neq. exact Hv. }
  unfold unambiguous.
  repeat constructor; simpl; intros H;
    first [ apply (proj1 (Hkeys _ (in_or_app _ _ _ (or_introl H)))); reflexivity
          | apply (proj2 (Hkeys _ (in_or_app _ _ _ (or_introl H)))); reflexivity
          | apply (proj1 (Hkeys _ (in_or_app _ _ _ (or_intror H)))); reflexivity
          | apply (proj2 (Hkeys _ (in_or_app _ _ _ (or_intror H)))); reflexivity
          | apply (Hvals _ (in_or_app _ _ _ (or_introl H))); reflexivity
          | apply (Hvals _ (in_or_app _ _ _ (or_intror H))); reflexivity ].
Qed.

Lemma signatureString_injective_witness :
  wf_obj Scenario.plain_ab /\ wf_obj Scenario.plain_ba
  /\ unambiguous Scenario.plain_ab /\ unambiguous Scenario.plain_ba
  /\ signatureString Scenario.plain_ab = signatureString Scenario.plain_ba
  /\ Permutation Scenario.plain_ab Scenario.plain_ba.
Proof.
  assert (H1 : wf_obj Scenario.plain_ab) by (apply wf_two; reflexivity).
  assert (H2 : wf_obj Scenario.plain_ba) by (apply wf_two; reflexivity).
  assert (H3 : unambiguous Scenario.plain_ab)
    by (apply unambiguous_two; reflexivity).
  assert (H4 : unambiguous Scenario.plain_ba)
    by (apply unambiguous_two; reflexivity).
  assert (H5 : signatureString Scenario.plain_ab
               = signatureString Scenario.plain_ba) by reflexivity.
  repeat (split; [assumption|]).
  apply (signatureString_injective _ _ H1 H2 H3 H4 H5).
Defined.

(** *** What the endpoint can check *)

Lemma signatureString_Permutation (P P' : obj) :
  wf_obj P -> Permutation P P' -> signatureString P = signatureString P'.
Proof.
  intros Hwf Hp. unfold signatureString.
  rewrite (sortedKeys_insertion_order P P' Hp).
  f_equal. apply map_ext. intros key.
  rewrite (get_Permutation P P' key Hwf Hp). reflexivity.
Qed.

Lemma OwnPropertyKeys_new (ks new : list jsstring) :
  Forall (fun k => is_index k = false) new ->
  OwnPropertyKeys (ks ++ new) = OwnPropertyKeys ks ++ new.
Proof.
  intros Hnew. unfold OwnPropertyKeys.
  rewrite index_entries_app, (index_entries_none _ Hnew), app_nil_r.
  rewrite filter_app, (filter_other_all _ Hnew), app_assoc. reflexivity.
Qed.

Lemma In_keys_set (o : obj) (k k' v : jsstring) :
  In k (keys_of (set o k' v)) -> k = k' \/ In k (keys_of o).
Proof.
  rewrite keys_set.
  destruct (in_dec (list_eq_dec Z.eq_dec) k' (keys_of o)); intros H.
  - right. exact H.
  - apply in_app_or in H. destruct H as [H|[<-|[]]]; [right | left]; auto.
Qed.

Lemma securityParams_no_signature (host : Host) (c : Config) (now : Z)
  (params : obj) :
  ~ In (lit "signature") (keys_of params) ->
  ~ In (lit "signature") (keys_of (securityParams host c now params)).
Proof.
  intros Hno Hin. unfold securityParams in Hin.
  repeat (apply In_keys_set in Hin; destruct Hin as [Hin|Hin];
          [revert Hin; lit_neq|]).
  unfold spread in Hin. revert Hin.
  assert (H : forall ks acc,
    ~ In (lit "signature") ks -> ~ In (lit "signature") (keys_of acc) ->
    ~ In (lit "signature")
        (keys_of (fold_left
           (fun acc k => set acc k (interpolate (get params k))) ks acc))).
  { induction ks as [|k ks IH]; intros acc Hks Hacc; simpl.
    - exact Hacc.
    - apply IH.
      + intros H. apply Hks. right. exact H.
      + intros H. apply In_keys_set in H. destruct H as [H|H].
        * apply Hks. left. symmetry. exact H.
        * contradiction. }
  apply H; [|intros []].
  intros Hin. apply Hno.
  apply (Permutation_in _ (Object_keys_Permutation params)), Hin.
Qed.

(** X5. When the parameters have no property named signature, the query that
    is sent consists of the parameters of the endpoint URL's own query, if it
    has any, then the fields of the envelope, then the signature as the last
    field, and the signature is the one [createSignature] gives for exactly
    the fields of the envelope: the parameters of the endpoint URL itself
    are sent but not signed.  For an endpoint URL without a query, an
    endpoint that signs the fields it received, the signature apart, finds
    the signature it received. *)
Theorem signature_covers_sent_fields (host : Host) (params : obj) (st : State)
  (sig : jsstring) (u0 : URL) :
  let c := this_config st in
  complete c ->
  wf_obj params ->
  ~ In (lit "signature") (keys_of params) ->
  createSignature (securityParams host c (clock st) params) (hmacSecret c)
  = Normal sig ->
  URL_parse host (scriptUrl c) = Some u0 ->
  exists evs fields,
    trace (snd (request host params st)) = trace st ++ evs
    /\ fetched evs
       = [mkURL (address u0)
            (searchParams u0 ++ fields ++ [(lit "signature", sig)])]
    /\ wf_obj fields
    /\ ~ In (lit "signature") (keys_of fields)
    /\ createSignature fields (hmacSecret c) = Normal sig.
Proof.
  intros c Hc Hwf Hno Hsig Hurl.
  destruct (request_calls_once host params st sig u0 Hc Hsig Hurl)
    as (evs & Ht & Hf).
  fold c in Hf. set (signed := securityParams host c (clock st) params) in *.
  assert (Hwfs : wf_obj signed) by (apply wf_securityParams, Hwf).
  assert (Hnos : ~ In (lit "signature") (keys_of signed))
    by (apply securityParams_no_signature, Hno).
  set (fields := map (fun k => (k, interpolate (get signed k)))
                     (Object_keys signed)).
  assert (Hperm : Permutation fields signed)
    by (apply wf_obj_entries;
        [exact Hwfs | apply Object_keys_Permutation]).
  assert (Hkeys : keys_of fields = Object_keys signed).
  { unfold fields, keys_of. rewrite map_map. simpl. apply map_id. }
  exists evs, fields. split; [exact Ht|]. split; [|split; [|split]].
  - rewrite Hf, appendAll_searchParams. f_equal. f_equal. f_equal.
    rewrite (set_fresh signed _ sig Hnos).
    unfold Object_keys at 1, keys_of at 1. rewrite map_app. simpl map.
    fold (keys_of signed).
    rewrite (OwnPropertyKeys_new (keys_of signed) [lit "signature"])
      by (repeat constructor).
    fold (Object_keys signed). rewrite map_app. f_equal.
    + unfold fields. apply map_ext_in. intros k Hk.
      rewrite <- (set_fresh signed _ sig Hnos).
      rewrite get_set_other; [reflexivity|].
      intros <-. apply Hnos.
      apply (Permutation_in _ (Object_keys_Permutation signed)), Hk.
    + simpl. rewrite <- (set_fresh signed _ sig Hnos), get_set_same.
      reflexivity.
  - unfold wf_obj. rewrite Hkeys. apply NoDup_Object_keys, Hwfs.
  - rewrite Hkeys. intros Hin. apply Hnos.
    apply (Permutation_in _ (Object_keys_Permutation signed)), Hin.
  - unfold createSignature in *.
    rewrite <- (signatureString_Permutation signed fields Hwfs
                  (Permutation_sym Hperm)).
    exact Hsig.
Qed.

Lemma signature_covers_sent_fields_witness :
  wf_obj Scenario.indexed_params
  /\ ~ In (lit "signature") (keys_of Scenario.indexed_params)
  /\ exists evs fields,
       trace (snd (request Scenario.silent_host Scenario.indexed_params
                     Scenario.state1)) = evs
       /\ fetched evs
          = [mkURL (lit "https://example.test/api")
               (fields ++ [(lit "signature", Scenario.signature_indexed)])]
       /\ createSignature fields (lit "S1")
          = Normal Scenario.signature_indexed.
Proof.
  assert (Hwf : wf_obj Scenario.indexed_params) by (apply wf_two; reflexivity).
  assert (Hno : ~ In (lit "signature") (keys_of Scenario.indexed_params)).
  { intros [H|[H|[]]]; revert H; lit_neq. }
  assert (Hsig :
    createSignature
      (securityParams Scenario.silent_host (this_config Scenario.state1)
         (clock Scenario.state1) Scenario.indexed_params)
      (hmacSecret (this_config Scenario.state1))
    = Normal Scenario.signature_indexed) by (vm_compute; reflexivity).
  destruct (signature_covers_sent_fields Scenario.silent_host
              Scenario.indexed_params Scenario.state1
              Scenario.signature_indexed Scenario.endpoint
              complete_config1 Hwf Hno Hsig eq_refl)
    as (evs & fields & Ht & Hf & _ & _ & Hfields).
  split; [exact Hwf|]. split; [exact Hno|].
  exists evs, fields. split; [exact Ht|]. split; [exact Hf | exact Hfields].
Defined.

(** *** How many calls a request makes *)

Lemma silent_setTimeout_abort (host : Host) (delay : Z) :
  silent (setTimeout_abort host delay).
Proof.
  intros st. exists [timer_set delay]. split; reflexivity.
Qed.

Lemma silent_new_URL (host : Host) (s : jsstring) : silent (new_URL host s).
Proof.
  unfold new_URL. destruct (URL_parse host s);
    apply silent_pure; intros st; reflexivity.
Qed.

Lemma calls_of_issues {A : Type} (urls : list URL) (m : M A) :
  issues urls m -> calls_at_most (List.length urls) m.
Proof.
  intros H st. destruct (H st) as (evs & Ht & Hf).
  exists evs. rewrite Hf. split; [exact Ht | lia].
Qed.

Lemma calls_weaken {A : Type} (n n' : nat) (m : M A) :
  (n <= n')%nat -> calls_at_most n m -> calls_at_most n' m.
Proof.
  intros Hle H st. destruct (H st) as (evs & Ht & Hf).
  exists evs. split; [exact Ht | lia].
Qed.

Lemma calls_bind {A B : Type} (n n' : nat) (m : M A) (k : A -> M B) :
  calls_at_most n m -> (forall a, calls_at_most n' (k a)) ->
  calls_at_most (n + n') (bind m k).
Proof.
  intros Hm Hk st. unfold bind. destruct (Hm st) as (evs & Ht & Hf).
  destruct (m st) as [[a|e] st']; simpl in *.
  - destruct (Hk a st') as (evs' & Ht' & Hf').
    exists (evs ++ evs'). rewrite Ht', Ht, app_assoc. split; [reflexivity|].
    rewrite fetched_app, length_app. lia.
  - exists evs. split; [exact Ht | lia].
Qed.

Lemma calls_try_catch {A : Type} (n n' : nat) (m : M A) (h : JsError -> M A) :
  calls_at_most n m -> (forall e, calls_at_most n' (h e)) ->
  calls_at_most (n + n') (try_catch m h).
Proof.
  intros Hm Hh st. unfold try_catch. destruct (Hm st) as (evs & Ht & Hf).
  destruct (m st) as [[a|e] st']; simpl in *.
  - exists evs. split; [exact Ht | lia].
  - destruct (Hh e st') as (evs' & Ht' & Hf').
    exists (evs ++ evs'). rewrite Ht', Ht, app_assoc. split; [reflexivity|].
    rewrite fetched_app, length_app. lia.
Qed.

Lemma calls_silent {A : Type} (m : M A) : silent m -> calls_at_most 0 m.
Proof. apply (calls_of_issues []). Qed.

Lemma silent_lift {A : Type} (c : completion A) : silent (lift c).
Proof. apply silent_pure. reflexivity. Qed.

Lemma silent_get_config : silent get_config.
Proof. apply silent_pure. reflexivity. Qed.

Lemma silent_Date_now : silent Date_now.
Proof. apply silent_pure. reflexivity. Qed.

Lemma calls_request (host : Host) (params : obj) :
  calls_at_most 1 (request host params).
Proof.
  unfold request.
  apply (calls_bind 0 1); [apply calls_silent, silent_get_config|].
  intros c. cbv zeta.
  destruct (negb (nonempty (scriptUrl c)) || negb (nonempty (apiToken c))
            || negb (nonempty (hmacSecret c))).
  - apply (calls_weaken 0); [lia|]. apply calls_silent.
    repeat silent_step.
  - apply (calls_try_catch 1 0);
      [|intros e; apply calls_silent, silent_request_catch].
    apply (calls_bind 0 1); [apply calls_silent, silent_Date_now|].
    intros now.
    apply (calls_bind 0 1); [apply calls_silent, silent_lift|].
    intros signature.
    apply (calls_bind 0 1); [apply calls_silent, silent_new_URL|].
    intros url.
    apply (calls_bind 0 1); [apply calls_silent; repeat silent_step|].
    intros _.
    apply (calls_bind 0 1); [apply calls_silent, silent_setTimeout_abort|].
    intros signal.
    apply (calls_bind 1 0);
      [match goal with
       | |- calls_at_most 1 (fetch host ?u ?s) =>
           apply (calls_of_issues [u]), issues_fetch
       end|].
    intros response. apply calls_silent, silent_request_response.
Qed.

(** X6. Whatever the configuration, the parameters and the network do, a
    [request] only adds events to the trace and makes at most one network
    call: it never retries. *)
Theorem request_at_most_one_call (host : Host) (params : obj) (st : State) :
  exists evs,
    trace (snd (request host params st)) = trace st ++ evs
    /\ (List.length (fetched evs) <= 1)%nat.
Proof. apply calls_request. Qed.

Lemma calls_requestSequential_loop (host : Host) (ps : list obj)
  (results : list json) :
  calls_at_most (List.length ps) (requestSequential_loop host ps results).
Proof.
  revert results. induction ps as [|p ps IH]; intros results; simpl.
  - apply calls_silent, silent_pure. reflexivity.
  - apply (calls_bind 1 (List.length ps)); [apply calls_request|].
    intros a. apply IH.
Qed.

Lemma requestSequential_loop_length (host : Host) (ps : list obj) :
  forall acc st rs st',
    requestSequential_loop host ps acc st = (Normal rs, st') ->
    List.length rs = (List.length acc + List.length ps)%nat.
Proof.
  induction ps as [|p ps IH]; intros acc st rs st' H;
    cbn [requestSequential_loop] in H.
  - unfold ret in H. injection H as <- _. simpl. lia.
  - unfold bind in H. destruct (request host p st) as [[r|e] st1].
    + apply IH in H. rewrite H, length_app. simpl. lia.
    + discriminate H.
Qed.

(** X7. [requestSequential] makes at most one network call per member of its
    argument, and when it returns, it returns one result per member. *)
Theorem requestSequential_calls_and_results (host : Host)
  (requestsArray : list obj) (st : State) :
  (exists evs,
      trace (snd (requestSequential host requestsArray st)) = trace st ++ evs
      /\ (List.length (fetched evs) <= List.length requestsArray)%nat)
  /\ (forall results st',
      requestSequential host requestsArray st = (Normal results, st') ->
      List.length results = List.length requestsArray).
Proof.
  unfold requestSequential. split.
  - exact (calls_requestSequential_loop host requestsArray [] st).
  - intros rs st' H.
    exact (requestSequential_loop_length host requestsArray [] st rs st' H).
Qed.

(** *** How long a request takes *)

Lemma instant_ret {A : Type} (a : A) : instant (ret a).
Proof. intros st. reflexivity. Qed.

Lemma instant_throw {A : Type} (e : JsError) : instant (@throw A e).
Proof. intros st. reflexivity. Qed.

Lemma instant_lift {A : Type} (c : completion A) : instant (lift c).
Proof. intros st. reflexivity. Qed.

Lemma instant_emit (e : Event) : instant (emit e).
Proof. intros st. reflexivity. Qed.

Lemma instant_get_config : instant get_config.
Proof. intros st. reflexivity. Qed.

Lemma instant_Date_now : instant Date_now.
Proof. intros st. reflexivity. Qed.

Lemma instant_new_URL (host : Host) (s : jsstring) : instant (new_URL host s).
Proof.
  unfold new_URL. destruct (URL_parse host s);
    [apply instant_ret | apply instant_throw].
Qed.

Lemma instant_get_property (data : json) (key : string) :
  instant (get_property data key).
Proof. destruct data; intros st; reflexivity. Qed.

Lemma instant_bind {A B : Type} (m : M A) (k : A -> M B) :
  instant m -> (forall a, instant (k a)) -> instant (bind m k).
Proof.
  intros Hm Hk st. unfold bind. specialize (Hm st).
  destruct (m st) as [[a|e] st']; simpl in *.
  - rewrite (Hk a st'). exact Hm.
  - exact Hm.
Qed.

Lemma instant_when (b : bool) (m : M unit) : instant m -> instant (when b m).
Proof. intros Hm. destruct b; [exact Hm | apply instant_ret]. Qed.

Ltac instant_step :=
  first
    [ apply instant_bind; [|intros ?]
    | apply instant_when
    | apply instant_ret | apply instant_throw | apply instant_lift
    | apply instant_emit | apply instant_get_config | apply instant_Date_now
    | apply instant_new_URL | apply instant_get_property
    | match goal with
      | |- instant (if ?b then _ else _) => destruct b
      end ].

Lemma instant_request_catch (e : JsError) : instant (request_catch e).
Proof. unfold request_catch. repeat instant_step. Qed.

Lemma bounded_instant {A : Type} (d : Z) (m : M A) :
  0 <= d -> instant m -> bounded d m.
Proof. intros Hd Hm st. rewrite (Hm st). lia. Qed.

Lemma bounded_bind_instant {A B : Type} (d : Z) (m : M A) (k : A -> M B) :
  0 <= d -> instant m -> (forall a, bounded d (k a)) -> bounded d (bind m k).
Proof.
  intros Hd Hm Hk st. unfold bind. specialize (Hm st).
  destruct (m st) as [[a|e] st']; simpl in *.
  - rewrite <- Hm. apply Hk.
  - rewrite Hm. lia.
Qed.

Lemma bounded_then_instant {A B : Type} (d : Z) (m : M A) (k : A -> M B) :
  bounded d m -> (forall a, instant (k a)) -> bounded d (bind m k).
Proof.
  intros Hm Hk st. unfold bind. specialize (Hm st).
  destruct (m st) as [[a|e] st']; simpl in *.
  - rewrite (Hk a st'). exact Hm.
  - exact Hm.
Qed.

Lemma bounded_try_catch {A : Type} (d : Z) (m : M A) (h : JsError -> M A) :
  bounded d m -> (forall e, instant (h e)) -> bounded d (try_catch m h).
Proof.
  intros Hm Hh st. unfold try_catch. specialize (Hm st).
  destruct (m st) as [[a|e] st']; simpl in *.
  - exact Hm.
  - rewrite (Hh e st'). exact Hm.
Qed.

(** Reading the body takes the time the body takes. *)
Lemma bounded_response_json (r : Response) (limit : Z) :
  0 <= limit -> decoding r <= limit -> bounded limit (response_json r).
Proof.
  intros Hl Hr st. unfold response_json. cbn [snd clock]. lia.
Qed.

(** What follows the call takes no longer than the body of the response. *)
Lemma bounded_request_response (c : Config) (r : Response) (limit : Z) :
  0 <= limit -> decoding r <= limit -> bounded limit (request_response c r).
Proof.
  intros Hl Hr. unfold request_response, clearTimeout.
  apply bounded_bind_instant; [exact Hl | apply instant_emit|]. intros _.
  destruct (negb (ok r)).
  - apply bounded_instant; [exact Hl | apply instant_throw].
  - apply bounded_then_instant; [apply bounded_response_json; assumption|].
    intros data. repeat instant_step.
Qed.

(** The call ends by the deadline the timer sets; what is done with the
    response comes on top. *)
Lemma bounded_timer_fetch {A : Type} (host : Host) (url : URL)
  (delay limit : Z) (k : Response -> M A) :
  0 <= limit ->
  (forall n t r, network host n url = Responds t r -> bounded limit (k r)) ->
  bounded (honoured host delay + limit)
    (signal <- setTimeout_abort host delay ;;
     response <- fetch host url signal ;; k response).
Proof.
  intros Hl Hk st. unfold bind at 1, setTimeout_abort. cbv beta iota.
  unfold bind, fetch. cbn [this_config clock fetches trace].
  assert (Hh : 0 <= honoured host delay) by (unfold honoured; lia).
  destruct (network host (fetches st) url) as [t r|t e|] eqn:Hnet.
  - destruct (Z.leb_spec (clock st + Z.max 0 t)
                         (clock st + honoured host delay)).
    + match goal with
      | |- _ <= clock (snd (k r ?s)) <= _ => pose proof (Hk _ t r Hnet s) as Hr
      end.
      cbn [clock] in Hr. lia.
    + cbn [snd clock]. lia.
  - destruct (Z.leb_spec (clock st + Z.max 0 t)
                         (clock st + honoured host delay));
      cbn [snd clock]; lia.
  - cbn [snd clock]. lia.
Qed.

Lemma bounded_request_from (host : Host) (params : obj) (c : Config)
  (limit : Z) :
  0 <= limit -> decodes_within host limit ->
  bounded (honoured host (timeout c) + limit) (request_from host c params).
Proof.
  intros Hl Hdec. unfold request_from.
  assert (Hd : 0 <= honoured host (timeout c) + limit)
    by (unfold honoured; lia).
  destruct (negb (nonempty (scriptUrl c)) || negb (nonempty (apiToken c))
            || negb (nonempty (hmacSecret c))).
  - apply bounded_instant; [exact Hd|]. repeat instant_step.
  - apply bounded_try_catch; [|apply instant_request_catch].
    apply bounded_bind_instant; [exact Hd | apply instant_Date_now|].
    intros now.
    apply bounded_bind_instant; [exact Hd | apply instant_lift|].
    intros signature.
    apply bounded_bind_instant; [exact Hd | apply instant_new_URL|].
    intros url.
    apply bounded_bind_instant; [exact Hd | repeat instant_step|].
    intros _.
    apply bounded_timer_fetch; [exact Hl|]. intros n t r Hnet.
    apply bounded_request_response; [exact Hl|].
    exact (Hdec n _ t r Hnet).
Qed.

Lemma bounded_request (host : Host) (limit : Z) (params : obj) (st : State) :
  0 <= limit -> decodes_within host limit ->
  clock st <= clock (snd (request host params st))
  <= clock st + (honoured host (timeout (this_config st)) + limit).
Proof.
  intros Hl Hdec.
  exact (bounded_request_from host params (this_config st) limit Hl Hdec st).
Qed.

Lemma bounded_requestSequential_loop (host : Host) (limit : Z)
  (ps : list obj) :
  0 <= limit -> decodes_within host limit ->
  forall acc st,
    clock st <= clock (snd (requestSequential_loop host ps acc st))
    <= clock st
       + Z.of_nat (List.length ps)
         * (honoured host (timeout (this_config st)) + limit).
Proof.
  intros Hl Hdec.
  induction ps as [|p ps IH]; intros acc st;
    cbn [requestSequential_loop].
  - unfold ret. cbn [snd List.length]. lia.
  - unfold bind.
    pose proof (bounded_request host limit p st Hl Hdec) as Hp.
    pose proof (keeps_request host p st) as Hc.
    assert (Hh : 0 <= honoured host (timeout (this_config st)))
      by (unfold honoured; lia).
    destruct (request host p st) as [[r|e] st1]; cbn [snd] in *.
    + specialize (IH (acc ++ [r]) st1). rewrite Hc in IH.
      cbn [List.length]. nia.
    + cbn [List.length]. nia.
Qed.

(** X8. The timer of a [request] covers the wait for the response and not
    the reading of its body, which starts after [clearTimeout].  When every
    body the network delivers is decoded within [limit] milliseconds, a
    [request] ends no later than the delay its timer honours plus [limit]
    after it began, and [requestSequential] no later than that sum times the
    number of its members. *)
Theorem request_time_bounded (host : Host) (limit : Z) :
  0 <= limit ->
  decodes_within host limit ->
  (forall params st,
      clock st <= clock (snd (request host params st))
      <= clock st + (honoured host (timeout (this_config st)) + limit))
  /\ (forall requestsArray st,
      clock st <= clock (snd (requestSequential host requestsArray st))
      <= clock st
         + Z.of_nat (List.length requestsArray)
           * (honoured host (timeout (this_config st)) + limit)).
Proof.
  intros Hl Hdec. split.
  - intros params st. exact (bounded_request host limit params st Hl Hdec).
  - intros ps st.
    exact (bounded_requestSequential_loop host limit ps Hl Hdec [] st).
Qed.

(** The scenario's request at a page whose network answers after 120 ms
    with a body that takes 5 ms: it ends within 30005 ms. *)
Lemma request_time_bounded_witness :
  decodes_within (Scenario.answering
                    (mkResponse 200 (Normal Scenario.success_body) 5)) 5
  /\ clock (snd (request (Scenario.answering
                            (mkResponse 200 (Normal Scenario.success_body) 5))
                   Scenario.getData Scenario.state1))
     <= 1700000000000 + (30000 + 5).
Proof.
  assert (Hdec : decodes_within
                   (Scenario.answering
                      (mkResponse 200 (Normal Scenario.success_body) 5)) 5).
  { intros n url t r H. injection H as _ <-. simpl. lia. }
  split; [exact Hdec|].
  assert (Hl : 0 <= 5) by lia.
  destruct (request_time_bounded _ 5 Hl Hdec) as [H _].
  exact (proj2 (H Scenario.getData Scenario.state1)).
Defined.

(** A timeout that does not fit the 32-bit delay of the browser's timer is
    not honoured: with a timeout of 2^31 ms the timer fires at once, and the
    answer that would have come after 120 ms is never seen. *)
Example request_timer_overflow :
  let host :=
    Scenario.answering (mkResponse 200 (Normal Scenario.success_body) 5) in
  let st :=
    mkState (mkConfig (lit "https://example.test/api") (lit "T1") (lit "S1")
                      false 2147483648)
            1700000000000 0 [] in
  honoured host 2147483648 = 0
  /\ fst (request host Scenario.getData st) = Throw RequestTimeout
  /\ clock (snd (request host Scenario.getData st)) = 1700000000000.
Proof. vm_compute. repeat split. Qed.

(** The timeout alone is no bound: a response that arrives in time with a
    body that takes a minute to read keeps [request] busy for twice its
    timeout of 30 seconds, and it still succeeds. *)
Example request_outlasts_timeout :
  let host :=
    Scenario.answering (mkResponse 200 (Normal Scenario.success_body) 60000) in
  request host Scenario.getData Scenario.state1
  = (Normal Scenario.success_body,
     mkState Scenario.config1 (1700000000000 + 120 + 60000) 1
       (trace Scenario.state1
        ++ [timer_set 30000;
            fetch_start
              (appendAll (set (securityParams host Scenario.config1
                                 1700000000000 Scenario.getData)
                              (lit "signature") Scenario.signature1)
                         Scenario.endpoint);
            timer_cleared])).
Proof. vm_compute. reflexivity. Qed.

(** *** What the debug flag changes *)

Lemma request_from_config (host : Host) (params : obj) (st : State) :
  request host params st = request_from host (this_config st) params st.
Proof. reflexivity. Qed.

Lemma without_logs_app (evs evs' : list Event) :
  without_logs (evs ++ evs') = without_logs evs ++ without_logs evs'.
Proof. apply filter_app. Qed.

Lemma mirrors_pure {A : Type} (c : completion A) :
  mirrors (fun st => (c, st)) (fun st => (c, st)).
Proof. intros st. reflexivity. Qed.

Lemma mirrors_emit (e : Event) : is_log e = false -> mirrors (emit e) (emit e).
Proof.
  intros He st. unfold emit, quiet. cbn [fst snd this_config clock fetches trace].
  rewrite without_logs_app. unfold without_logs at 3. simpl filter.
  rewrite He. reflexivity.
Qed.

Lemma mirrors_log (args : list LogArg) :
  mirrors (emit (console_log args)) (ret tt).
Proof.
  intros st. unfold emit, ret, quiet.
  cbn [fst snd this_config clock fetches trace].
  rewrite without_logs_app. simpl. rewrite app_nil_r. reflexivity.
Qed.

Lemma mirrors_bind {A B : Type} (m m' : M A) (k k' : A -> M B) :
  mirrors m m' -> (forall a, mirrors (k a) (k' a)) ->
  mirrors (bind m k) (bind m' k').
Proof.
  intros Hm Hk st. unfold bind. rewrite (Hm st).
  destruct (m st) as [[a|e] st']; cbn [fst snd].
  - apply Hk.
  - reflexivity.
Qed.

Lemma mirrors_try_catch {A : Type} (m m' : M A) (h h' : JsError -> M A) :
  mirrors m m' -> (forall e, mirrors (h e) (h' e)) ->
  mirrors (try_catch m h) (try_catch m' h').
Proof.
  intros Hm Hh st. unfold try_catch. rewrite (Hm st).
  destruct (m st) as [[a|e] st']; cbn [fst snd].
  - reflexivity.
  - apply Hh.
Qed.

Lemma mirrors_Date_now : mirrors Date_now Date_now.
Proof. intros st. reflexivity. Qed.

Lemma mirrors_new_URL (host : Host) (s : jsstring) :
  mirrors (new_URL host s) (new_URL host s).
Proof.
  unfold new_URL. destruct (URL_parse host s); intros st; reflexivity.
Qed.

Lemma mirrors_get_property (data : json) (key : string) :
  mirrors (get_property data key) (get_property data key).
Proof. destruct data; intros st; reflexivity. Qed.

Lemma mirrors_setTimeout_abort (host : Host) (delay : Z) :
  mirrors (setTimeout_abort host delay) (setTimeout_abort host delay).
Proof.
  intros st. unfold setTimeout_abort, quiet.
  cbn [fst snd this_config clock fetches trace].
  rewrite without_logs_app. reflexivity.
Qed.

Lemma mirrors_fetch (host : Host) (url : URL) (signal : Z) :
  mirrors (fetch host url signal) (fetch host url signal).
Proof.
  intros st. unfold fetch, quiet.
  cbn [fst snd this_config clock fetches trace].
  destruct (network host (fetches st) url) as [t r|t e|];
    try destruct (clock st + Z.max 0 t <=? signal);
    cbn [fst snd this_config clock fetches trace];
    rewrite !without_logs_app; reflexivity.
Qed.

(** The debug lines, against nothing at all. *)
Lemma mirrors_when_logs (b : bool) (args args' : list LogArg) :
  mirrors (when b (emit (console_log args) ;; emit (console_log args')))
          (ret tt).
Proof.
  destruct b; unfold when; [|apply (mirrors_pure (Normal tt))].
  intros st. unfold bind, emit, ret, quiet.
  cbn [fst snd this_config clock fetches trace].
  rewrite !without_logs_app. simpl. rewrite !app_nil_r. reflexivity.
Qed.

Lemma mirrors_when_log (b : bool) (args : list LogArg) :
  mirrors (when b (emit (console_log args))) (ret tt).
Proof.
  destruct b; unfold when; [apply mirrors_log | apply (mirrors_pure (Normal tt))].
Qed.

Lemma mirrors_request_catch (e : JsError) :
  mirrors (request_catch e) (request_catch e).
Proof.
  unfold request_catch. destruct (str_eqb (name e) (lit "AbortError"));
    (apply mirrors_bind;
     [apply mirrors_emit; reflexivity
     | intros _; apply (mirrors_pure (Throw _))]).
Qed.

Lemma mirrors_response_json (r : Response) :
  mirrors (response_json r) (response_json r).
Proof. intros st. reflexivity. Qed.

Lemma mirrors_request_response (c : Config) (r : Response) :
  mirrors (request_response c r) (request_response (quiet_config c) r).
Proof.
  unfold request_response, clearTimeout.
  apply mirrors_bind; [apply mirrors_emit; reflexivity|]. intros _.
  destruct (negb (ok r)); [apply (mirrors_pure (Throw _))|].
  apply mirrors_bind; [apply mirrors_response_json|]. intros data.
  apply mirrors_bind; [apply mirrors_get_property|]. intros data_status.
  destruct (is_success data_status).
  - cbn [debug quiet_config]. unfold when at 2.
    apply mirrors_bind; [apply mirrors_when_log|]. intros _.
    apply (mirrors_pure (Normal data)).
  - apply mirrors_bind; [apply mirrors_get_property|]. intros data_message.
    apply mirrors_bind; [apply mirrors_pure|]. intros text.
    apply (mirrors_pure (Throw _)).
Qed.

Lemma mirrors_request_from (host : Host) (c : Config) (params : obj) :
  mirrors (request_from host c params)
          (request_from host (quiet_config c) params).
Proof.
  unfold request_from.
  cbn [scriptUrl apiToken hmacSecret debug timeout quiet_config].
  destruct (negb (nonempty (scriptUrl c)) || negb (nonempty (apiToken c))
            || negb (nonempty (hmacSecret c))).
  - apply mirrors_bind; [apply mirrors_emit; reflexivity|]. intros _.
    apply (mirrors_pure (Throw _)).
  - apply mirrors_try_catch; [|apply mirrors_request_catch].
    apply mirrors_bind; [apply mirrors_Date_now|]. intros now.
    apply mirrors_bind; [apply mirrors_pure|]. intros signature.
    apply mirrors_bind; [apply mirrors_new_URL|]. intros url.
    unfold when at 2.
    apply mirrors_bind; [apply mirrors_when_logs|]. intros _.
    apply mirrors_bind; [apply mirrors_setTimeout_abort|]. intros signal.
    apply mirrors_bind; [apply mirrors_fetch|]. intros response.
    apply mirrors_request_response.
Qed.

Lemma mirrors_request (host : Host) (params : obj) (st : State) :
  request host params (quiet st)
  = (fst (request host params st), quiet (snd (request host params st))).
Proof.
  rewrite !request_from_config.
  exact (mirrors_request_from host (this_config st) params st).
Qed.

(** X9. The debug flag changes nothing but the [console.log] lines: after
    [enableDebug()] and after [disableDebug()] a [request] has the same
    outcome, makes the same network call, takes the same time and leaves
    the same trace once the [console.log] lines are removed. *)
Theorem debug_only_logs (host : Host) (params : obj) (st : State) :
  let on := request host params (snd (enableDebug st)) in
  let off := request host params (snd (disableDebug st)) in
  fst on = fst off
  /\ without_logs (trace (snd on)) = without_logs (trace (snd off))
  /\ fetched (trace (snd on)) = fetched (trace (snd off))
  /\ clock (snd on) = clock (snd off)
  /\ fetches (snd on) = fetches (snd off).
Proof.
  intros on off.
  assert (Hq : quiet (snd (enableDebug st)) = quiet (snd (disableDebug st)))
    by reflexivity.
  pose proof (mirrors_request host params (snd (enableDebug st))) as Hon.
  pose proof (mirrors_request host params (snd (disableDebug st))) as Hoff.
  rewrite Hq, Hoff in Hon. fold on off in Hon.
  injection Hon as Hres _ _ _ _ Hclock Hfetches Htrace.
  assert (Hf : forall evs, fetched (without_logs evs) = fetched evs).
  { induction evs as [|e evs IH]; [reflexivity|].
    destruct e; simpl; rewrite ?IH; reflexivity. }
  split; [symmetry; exact Hres|].
  split; [symmetry; exact Htrace|].
  split.
  - rewrite <- (Hf (trace (snd on))), <- (Hf (trace (snd off))).
    f_equal. symmetry. exact Htrace.
  - split; symmetry; assumption.
Qed.

(** *** Faults that pass through the [catch] block *)

Lemma request_catch_rethrows (e : JsError) (st : State) :
  request_catch e st
  = (Throw (rethrown e),
     mkState (this_config st) (clock st) (fetches st)
             (trace st ++ [catch_line e])).
Proof.
  unfold request_catch, rethrown, catch_line.
  destruct (str_eqb (name e) (lit "AbortError")); reflexivity.
Qed.

Lemma fetch_fails (host : Host) (url : URL) (signal : Z) (st : State)
  (t : Z) (e : JsError) :
  network host (fetches st) url = Fails t e ->
  clock st + Z.max 0 t <= signal ->
  fetch host url signal st
  = (Throw e,
     mkState (this_config st) (clock st + Z.max 0 t) (S (fetches st))
             (trace st ++ [fetch_start url])).
Proof.
  intros Hnet Hle. unfold fetch. rewrite Hnet.
  destruct (Z.leb_spec (clock st + Z.max 0 t) signal); [reflexivity | lia].
Qed.

(** X10. When the network fails the call before the timer fires, [request] logs the
    fault and throws it as it is; the call is not aborted and the timer is
    not cleared. A fault whose name is AbortError is reported as Request
    timeout, although the timer has not fired. *)
Theorem request_network_fault (host : Host) (params : obj) (st : State)
  (sig : jsstring) (u0 : URL) (t : Z) (e : JsError) :
  let c := this_config st in
  complete c ->
  createSignature (securityParams host c (clock st) params) (hmacSecret c)
  = Normal sig ->
  URL_parse host (scriptUrl c) = Some u0 ->
  let url :=
    appendAll (set (securityParams host c (clock st) params)
                   (lit "signature") sig) u0 in
  network host (fetches st) url = Fails t e ->
  Z.max 0 t <= honoured host (timeout c) ->
  request host params st
  = (Throw (rethrown e),
     mkState c (clock st + Z.max 0 t) (S (fetches st))
       (trace st ++ debug_lines c url params
        ++ [timer_set (timeout c); fetch_start url; catch_line e])).
Proof.
  intros c Hc Hsig Hurl url Hnet Ht.
  rewrite (request_issues host params st sig u0 Hc Hsig Hurl).
  fold c url. unfold try_catch, bind at 1.
  rewrite (fetch_fails host url _ _ t e);
    cbn [this_config clock fetches trace].
  - rewrite request_catch_rethrows. cbn [this_config clock fetches trace].
    rewrite <- !app_assoc. reflexivity.
  - exact Hnet.
  - lia.
Qed.

Lemma request_network_fault_witness :
  fst (request (Scenario.failing Scenario.network_down) Scenario.getData
         Scenario.state1)
  = Throw Scenario.network_down
  /\ fst (request (Scenario.failing AbortError) Scenario.getData
            Scenario.state1)
     = Throw RequestTimeout
  /\ clock (snd (request (Scenario.failing AbortError) Scenario.getData
                   Scenario.state1))
     = 1700000000080.
Proof.
  assert (Hsig :
    createSignature
      (securityParams Scenario.silent_host Scenario.config1 1700000000000
         Scenario.getData) (lit "S1")
    = Normal Scenario.signature1) by (vm_compute; reflexivity).
  assert (Ht : Z.max 0 80 <= honoured Scenario.silent_host 30000)
    by (vm_compute; discriminate).
  split; [|split].
  - rewrite (request_network_fault (Scenario.failing Scenario.network_down)
               Scenario.getData Scenario.state1 Scenario.signature1
               Scenario.endpoint 80 Scenario.network_down
               complete_config1 Hsig eq_refl eq_refl Ht).
    reflexivity.
  - rewrite (request_network_fault (Scenario.failing AbortError)
               Scenario.getData Scenario.state1 Scenario.signature1
               Scenario.endpoint 80 AbortError
               complete_config1 Hsig eq_refl eq_refl Ht).
    reflexivity.
  - rewrite (request_network_fault (Scenario.failing AbortError)
               Scenario.getData Scenario.state1 Scenario.signature1
               Scenario.endpoint 80 AbortError
               complete_config1 Hsig eq_refl eq_refl Ht).
    reflexivity.
Defined.

(** X11. When the signature cannot be computed, or the endpoint is not a valid
    URL, [request] logs that error and throws it before it sets the timer or
    calls the network: the only new event is the console line. *)
Theorem request_fails_before_calling (host : Host) (params : obj) (st : State) :
  let c := this_config st in
  complete c ->
  let logged e :=
    mkState c (clock st) (fetches st)
      (trace st
       ++ [console_error
             [LStr (lit "GoogleSheetsSecureAPI: Request error:"); LErr e]]) in
  (forall e,
      createSignature (securityParams host c (clock st) params) (hmacSecret c)
      = Throw e ->
      e = URIError
      /\ request host params st = (Throw URIError, logged URIError))
  /\ (forall sig,
      createSignature (securityParams host c (clock st) params) (hmacSecret c)
      = Normal sig ->
      URL_parse host (scriptUrl c) = None ->
      request host params st
      = (Throw (mkError (lit "TypeError") (lit "Invalid URL")),
         logged (mkError (lit "TypeError") (lit "Invalid URL")))).
Proof.
  intros c Hc logged. split.
  - intros e Hsig.
    assert (He : e = URIError).
    { unfold createSignature, computeHMAC in Hsig.
      exact (proj2 (proj2 (HmacSHA256_toString_cases _ _)) e Hsig). }
    subst e. split; [reflexivity|].
    unfold request, bind at 1, get_config. cbv beta iota. fold c.
    rewrite (complete_guard c Hc).
    unfold try_catch, bind at 1, Date_now. cbv beta iota.
    unfold bind at 1, lift. rewrite Hsig. cbv beta iota.
    rewrite request_catch_rethrows. reflexivity.
  - intros sig Hsig Hurl.
    unfold request, bind at 1, get_config. cbv beta iota. fold c.
    rewrite (complete_guard c Hc).
    unfold try_catch, bind at 1, Date_now. cbv beta iota.
    unfold bind at 1, lift. rewrite Hsig. cbv beta iota.
    unfold bind at 1, new_URL. rewrite Hurl. unfold throw. cbv beta iota.
    rewrite request_catch_rethrows. reflexivity.
Qed.

Lemma request_fails_before_calling_witness :
  complete (this_config Scenario.state1)
  /\ fst (request Scenario.silent_host Scenario.broken_value Scenario.state1)
     = Throw URIError
  /\ fetched (trace (snd (request Scenario.silent_host Scenario.broken_value
                            Scenario.state1))) = []
  /\ fst (request Scenario.no_url_host Scenario.getData Scenario.state1)
     = Throw (mkError (lit "TypeError") (lit "Invalid URL")).
Proof.
  split; [exact complete_config1|].
  destruct (request_fails_before_calling Scenario.silent_host
              Scenario.broken_value Scenario.state1 complete_config1)
    as [Hsig _].
  destruct (Hsig URIError eq_refl) as [_ Hreq].
  destruct (request_fails_before_calling Scenario.no_url_host
              Scenario.getData Scenario.state1 complete_config1)
    as [_ Hurl].
  split; [rewrite Hreq; reflexivity|]. split; [rewrite Hreq; reflexivity|].
  rewrite (Hurl Scenario.signature1); [reflexivity | | reflexivity].
  vm_compute. reflexivity.
Defined.

(** X12. When a 2xx response arrives before the timer fires but its body
    cannot be decoded, [request] clears the timer, waits for
    [response.json()] to reject, logs the decoder's error and throws it as it
    is (as Request timeout when its name is AbortError). *)
Theorem request_undecodable_body (host : Host) (params : obj) (st : State)
  (sig : jsstring) (u0 : URL) (t : Z) (r : Response) (e : JsError) :
  let c := this_config st in
  complete c ->
  createSignature (securityParams host c (clock st) params) (hmacSecret c)
  = Normal sig ->
  URL_parse host (scriptUrl c) = Some u0 ->
  let url :=
    appendAll (set (securityParams host c (clock st) params)
                   (lit "signature") sig) u0 in
  network host (fetches st) url = Responds t r ->
  Z.max 0 t <= honoured host (timeout c) ->
  ok r = true -> body r = Throw e ->
  request host params st
  = (Throw (rethrown e),
     mkState c (clock st + Z.max 0 t + Z.max 0 (decoding r)) (S (fetches st))
       (trace st ++ debug_lines c url params
        ++ [timer_set (timeout c); fetch_start url; timer_cleared;
            catch_line e])).
Proof.
  intros c Hc Hsig Hurl url Hnet Ht Hok Hbody.
  rewrite (request_received host params st sig u0 t r Hc Hsig Hurl Hnet Ht).
  fold c url. unfold try_catch, request_response, bind at 1, clearTimeout, emit.
  cbv beta iota. rewrite Hok. cbn [negb].
  unfold bind at 1, response_json. rewrite Hbody. cbv beta iota.
  rewrite request_catch_rethrows. cbn [this_config clock fetches trace].
  rewrite <- !app_assoc. reflexivity.
Qed.

Lemma request_undecodable_body_witness :
  fst (request (Scenario.answering (mkResponse 200 (Throw Scenario.not_json) 5))
         Scenario.getData Scenario.state1)
  = Throw Scenario.not_json
  /\ clock (snd (request (Scenario.answering
                            (mkResponse 200 (Throw Scenario.not_json) 5))
                   Scenario.getData Scenario.state1))
     = 1700000000125.
Proof.
  assert (Hsig :
    createSignature
      (securityParams Scenario.silent_host Scenario.config1 1700000000000
         Scenario.getData) (lit "S1")
    = Normal Scenario.signature1) by (vm_compute; reflexivity).
  assert (Ht : Z.max 0 120 <= honoured Scenario.silent_host 30000)
    by (vm_compute; discriminate).
  rewrite (request_undecodable_body
             (Scenario.answering (mkResponse 200 (Throw Scenario.not_json) 5))
             Scenario.getData Scenario.state1 Scenario.signature1
             Scenario.endpoint 120 _ Scenario.not_json
             complete_config1 Hsig eq_refl eq_refl Ht eq_refl eq_refl).
  split; reflexivity.
Defined.

(** *** After the response has arrived *)

Lemma adds_only_pure {A : Type} (p : Event -> bool) (m : M A) :
  (forall st, snd (m st) = st) -> adds_only p m.
Proof.
  intros H st. exists []. rewrite H, app_nil_r. split; reflexivity.
Qed.

Lemma adds_only_emit (p : Event -> bool) (e : Event) :
  p e = true -> adds_only p (emit e).
Proof.
  intros H st. exists [e]. split; [reflexivity|]. simpl. rewrite H.
  reflexivity.
Qed.

Lemma adds_only_bind {A B : Type} (p : Event -> bool) (m : M A)
  (k : A -> M B) :
  adds_only p m -> (forall a, adds_only p (k a)) -> adds_only p (bind m k).
Proof.
  intros Hm Hk st. unfold bind. destruct (Hm st) as (evs & Ht & Hp).
  destruct (m st) as [[a|e] st']; simpl in *.
  - destruct (Hk a st') as (evs' & Ht' & Hp').
    exists (evs ++ evs'). rewrite Ht', Ht, app_assoc. split; [reflexivity|].
    rewrite forallb_app, Hp, Hp'. reflexivity.
  - exists evs. split; assumption.
Qed.

Lemma adds_only_response_json (p : Event -> bool) (r : Response) :
  adds_only p (response_json r).
Proof.
  intros st. exists []. unfold response_json. simpl.
  rewrite app_nil_r. split; reflexivity.
Qed.

Ltac adds_only_step :=
  first
    [ apply adds_only_bind; [|intros ?]
    | apply adds_only_emit; reflexivity
    | apply adds_only_response_json
    | apply adds_only_pure; intros ?; reflexivity
    | match goal with
      | |- adds_only _ (if ?b then _ else _) => destruct b
      | |- adds_only _ (when ?b _) => destruct b; unfold when
      | |- adds_only _ (get_property ?d _) => destruct d; unfold get_property
      end ].

Lemma adds_only_request_catch (e : JsError) :
  adds_only is_console (request_catch e).
Proof. unfold request_catch. repeat adds_only_step. Qed.

(** A computation that starts with an event [e] and is run inside [try]. *)
Lemma adds_after_emit {A : Type} (p : Event -> bool) (e : Event)
  (k : unit -> M A) (h : JsError -> M A) :
  adds_only p (k tt) -> (forall err, adds_only p (h err)) ->
  forall st, exists evs,
    trace (snd (try_catch (bind (emit e) k) h st)) = trace st ++ e :: evs
    /\ forallb p evs = true.
Proof.
  intros Hk Hh st. unfold try_catch, bind, emit. cbv beta iota.
  set (st1 := mkState (this_config st) (clock st) (fetches st)
                      (trace st ++ [e])).
  destruct (Hk st1) as (evs & Ht & Hp).
  destruct (k tt st1) as [[a|err] st2]; simpl in *.
  - exists evs. rewrite Ht, <- app_assoc. split; [reflexivity | exact Hp].
  - destruct (Hh err st2) as (evs' & Ht' & Hp').
    exists (evs ++ evs'). rewrite Ht', Ht, <- !app_assoc.
    split; [reflexivity|]. rewrite forallb_app, Hp, Hp'. reflexivity.
Qed.

(** What [request] does with a response takes the time its body takes,
    and no time when the status is not 2xx, for then the body is not read. *)
Lemma request_response_clock (c : Config) (r : Response) (st : State) :
  clock (snd (try_catch (request_response c r) request_catch st))
  = clock st + (if ok r then Z.max 0 (decoding r) else 0).
Proof.
  assert (H : clock (snd (request_response c r st))
              = clock st + (if ok r then Z.max 0 (decoding r) else 0)).
  { unfold request_response, clearTimeout, bind at 1, emit. cbv beta iota.
    destruct (ok r); cbn [negb].
    - match goal with
      | |- clock (snd (bind (response_json r) ?k ?s)) = _ =>
          assert (Hk : forall data, instant (k data))
            by (intros data; cbv beta; repeat instant_step);
          unfold bind at 1, response_json; cbv beta iota
      end.
      destruct (body r) as [data|e].
      + rewrite (Hk data). reflexivity.
      + reflexivity.
    - unfold throw. cbn [snd clock]. lia. }
  unfold try_catch. destruct (request_response c r st) as [[a|e] st'];
    cbn [snd] in *.
  - exact H.
  - rewrite (instant_request_catch e st'). exact H.
Qed.

(** X13. When the response arrives before the timer fires, whatever its
    status and body: the timer is cleared as soon as the call has settled,
    everything [request] does afterwards is writing to the console (the call
    is never aborted and no second call is made), and [request] ends when
    the body has been read - at the instant the response arrived when the
    status is not 2xx, for then the body is not read. *)
Theorem request_answered_clears_timer (host : Host) (params : obj) (st : State)
  (sig : jsstring) (u0 : URL) (t : Z) (r : Response) :
  let c := this_config st in
  complete c ->
  createSignature (securityParams host c (clock st) params) (hmacSecret c)
  = Normal sig ->
  URL_parse host (scriptUrl c) = Some u0 ->
  let url :=
    appendAll (set (securityParams host c (clock st) params)
                   (lit "signature") sig) u0 in
  network host (fetches st) url = Responds t r ->
  Z.max 0 t <= honoured host (timeout c) ->
  (exists evs,
      trace (snd (request host params st))
      = trace st ++ debug_lines c url params
        ++ [timer_set (timeout c); fetch_start url; timer_cleared] ++ evs
      /\ forallb is_console evs = true)
  /\ clock (snd (request host params st))
     = clock st + Z.max 0 t + (if ok r then Z.max 0 (decoding r) else 0).
Proof.
  intros c Hc Hsig Hurl url Hnet Ht.
  rewrite (request_received host params st sig u0 t r Hc Hsig Hurl Hnet Ht).
  fold c url. split.
  - unfold request_response, clearTimeout.
    match goal with
    | |- context [try_catch (bind (emit timer_cleared) ?k) request_catch ?s] =>
        destruct (adds_after_emit is_console timer_cleared k request_catch)
          with (st := s) as (evs & Hevs & Hp)
    end.
    + cbv beta. repeat adds_only_step.
    + apply adds_only_request_catch.
    + exists evs. split; [|exact Hp]. rewrite Hevs. cbn [trace].
      rewrite <- !app_assoc. reflexivity.
  - rewrite request_response_clock. reflexivity.
Qed.

Lemma request_answered_clears_timer_witness :
  (exists evs,
    trace (snd (request
                  (Scenario.answering (mkResponse 404 (Normal JNull) 5))
                  Scenario.getData Scenario.state1))
    = [timer_set 30000;
       fetch_start
         (mkURL (lit "https://example.test/api")
            [(lit "action", lit "getData"); (lit "token", lit "T1");
             (lit "timestamp", lit "1700000000000");
             (lit "referrer", Scenario.page); (lit "origin", Scenario.page);
             (lit "signature", Scenario.signature1)]);
       timer_cleared] ++ evs
    /\ forallb is_console evs = true)
  /\ clock (snd (request
                   (Scenario.answering (mkResponse 404 (Normal JNull) 5))
                   Scenario.getData Scenario.state1))
     = 1700000000120
  /\ clock (snd (request
                   (Scenario.answering
                      (mkResponse 200 (Normal Scenario.success_body) 5))
                   Scenario.getData Scenario.state1))
     = 1700000000125.
Proof.
  assert (Hsig :
    createSignature
      (securityParams Scenario.silent_host Scenario.config1 1700000000000
         Scenario.getData) (lit "S1")
    = Normal Scenario.signature1) by (vm_compute; reflexivity).
  assert (Ht : Z.max 0 120 <= honoured Scenario.silent_host 30000)
    by (vm_compute; discriminate).
  destruct (request_answered_clears_timer
              (Scenario.answering (mkResponse 404 (Normal JNull) 5))
              Scenario.getData Scenario.state1 Scenario.signature1
              Scenario.endpoint 120 _
              complete_config1 Hsig eq_refl eq_refl Ht)
    as [(evs & Hevs & Hp) Hclock].
  destruct (request_answered_clears_timer
              (Scenario.answering
                 (mkResponse 200 (Normal Scenario.success_body) 5))
              Scenario.getData Scenario.state1 Scenario.signature1
              Scenario.endpoint 120 _
              complete_config1 Hsig eq_refl eq_refl Ht)
    as [_ Hclock'].
  split; [|split].
  - exists evs. split; [exact Hevs | exact Hp].
  - rewrite Hclock. reflexivity.
  - rewrite Hclock'. reflexivity.
Defined.

(** *** Construction and configuration *)

Lemma validateConfig_outcome (host : Host) (st : State) :
  exists warnings,
    validateConfig host st
    = ((if CryptoJS_defined host then Normal tt else Throw MissingDependency),
       mkState (this_config st) (clock st) (fetches st)
               (trace st ++ warnings))
    /\ forallb is_warning warnings = true
    /\ List.length warnings = missing_fields (this_config st).
Proof.
  destruct st as [c now n events].
  exists ((if nonempty (scriptUrl c) then []
           else [console_warn
                   [LStr (lit "GoogleSheetsSecureAPI: scriptUrl not configured")]])
          ++ (if nonempty (apiToken c) then []
              else [console_warn
                      [LStr (lit "GoogleSheetsSecureAPI: apiToken not configured")]])
          ++ (if nonempty (hmacSecret c) then []
              else [console_warn
                      [LStr (lit "GoogleSheetsSecureAPI: hmacSecret not configured")]])).
  unfold validateConfig, missing_fields, bind at 1, get_config.
  cbv beta iota. cbn [this_config clock fetches trace].
  destruct (nonempty (scriptUrl c)); destruct (nonempty (apiToken c));
    destruct (nonempty (hmacSecret c)); destruct (CryptoJS_defined host);
    unfold bind, when, emit, ret, throw, MissingDependency;
    cbn [negb app this_config clock fetches trace];
    rewrite ?app_nil_r, <- ?app_assoc;
    (split; [reflexivity | split; reflexivity]).
Qed.

Lemma missing_fields_complete (c : Config) :
  missing_fields c = 0%nat <-> complete c.
Proof.
  unfold missing_fields, complete.
  destruct (scriptUrl c), (apiToken c), (hmacSecret c); simpl; split;
    try discriminate; try (intros (H1 & H2 & H3); congruence);
    intros _; repeat split; discriminate.
Qed.

(** X1. [new GoogleSheetsSecureAPI(config)] and [configure(config)] store the
    new configuration and then validate it: they write one console warning
    for each of the endpoint, token and secret that is empty in the stored
    configuration (none exactly when it is complete), write nothing else,
    leave the clock alone, and throw - after the warnings - exactly when
    CryptoJS is not loaded. *)
Theorem validation_warns_per_missing_field (host : Host) (config : Options)
  (st : State) :
  (forall op, op = constructor host config \/ op = configure host config ->
     let c := this_config (snd (op st)) in
     (fst (op st) = Normal tt <-> CryptoJS_defined host = true)
     /\ (CryptoJS_defined host = false -> fst (op st) = Throw MissingDependency)
     /\ clock (snd (op st)) = clock st
     /\ exists warnings,
          trace (snd (op st)) = trace st ++ warnings
          /\ forallb is_warning warnings = true
          /\ List.length warnings = missing_fields c
          /\ (warnings = [] <-> complete c)).
Proof.
  assert (H : forall c' : Config,
    let op := (set_config c' ;; validateConfig host) in
    let c := this_config (snd (op st)) in
    (fst (op st) = Normal tt <-> CryptoJS_defined host = true)
    /\ (CryptoJS_defined host = false -> fst (op st) = Throw MissingDependency)
    /\ clock (snd (op st)) = clock st
    /\ exists warnings,
         trace (snd (op st)) = trace st ++ warnings
         /\ forallb is_warning warnings = true
         /\ List.length warnings = missing_fields c
         /\ (warnings = [] <-> complete c)).
  { intros c' op c. unfold c, op, bind, set_config. cbv beta iota.
    destruct (validateConfig_outcome host
                (mkState c' (clock st) (fetches st) (trace st)))
      as (warnings & Hv & Hw & Hlen).
    rewrite Hv. cbn [fst snd this_config clock fetches trace] in *.
    split; [|split; [|split]].
    - destruct (CryptoJS_defined host); split; intros H;
        try reflexivity; discriminate H.
    - intros ->. reflexivity.
    - reflexivity.
    - exists warnings. split; [reflexivity|]. split; [exact Hw|].
      split; [exact Hlen|]. rewrite <- missing_fields_complete, <- Hlen.
      destruct warnings; split; intros H; try reflexivity; discriminate H. }
  intros op [-> | ->].
  - apply H.
  - unfold configure, bind at 1 2 3 4 5, get_config. cbv beta iota. apply H.
Qed.

Lemma validation_warns_per_missing_field_witness :
  fst (constructor Scenario.no_crypto_host Scenario.only_url Scenario.state1)
  = Throw MissingDependency
  /\ List.length
       (trace (snd (constructor Scenario.no_crypto_host Scenario.only_url
                      Scenario.state1))) = 2%nat
  /\ fst (configure Scenario.silent_host Scenario.only_url Scenario.no_token)
     = Normal tt.
Proof.
  destruct (validation_warns_per_missing_field Scenario.no_crypto_host
              Scenario.only_url Scenario.state1 _ (or_introl eq_refl))
    as (_ & Hthrow & _ & warnings & Ht & _ & Hlen & _).
  destruct (validation_warns_per_missing_field Scenario.silent_host
              Scenario.only_url Scenario.no_token _ (or_intror eq_refl))
    as (Hok & _).
  split; [apply Hthrow; reflexivity|]. split.
  - rewrite Ht. change (List.length warnings = 2%nat). rewrite Hlen.
    reflexivity.
  - apply Hok. reflexivity.
Defined.

Lemma Config_eta (c : Config) :
  mkConfig (scriptUrl c) (apiToken c) (hmacSecret c) (debug c) (timeout c) = c.
Proof. destruct c. reflexivity. Qed.

Lemma configure_config (host : Host) (config : Options) (st : State) :
  this_config (snd (configure host config st))
  = mkConfig (merged (scriptUrl (this_config st)) (opt_scriptUrl config))
             (merged (apiToken (this_config st)) (opt_apiToken config))
             (merged (hmacSecret (this_config st)) (opt_hmacSecret config))
             (merged (debug (this_config st)) (opt_debug config))
             (merged (timeout (this_config st)) (opt_timeout config)).
Proof.
  unfold configure, bind, get_config, set_config. cbv beta iota.
  rewrite timeout_validateConfig. reflexivity.
Qed.

(** X2. Two calls of [configure] leave the configuration that one call with the
    second argument spread over the first leaves, and [configure({})]
    leaves the configuration as it is. *)
Theorem configure_composes (host : Host) (first second : Options) (st : State) :
  this_config (snd (configure host second (snd (configure host first st))))
  = this_config (snd (configure host (override first second) st))
  /\ this_config (snd (configure host (mkOptions None None None None None) st))
     = this_config st.
Proof.
  split.
  - rewrite !configure_config.
    destruct first as [u1 t1 s1 d1 n1], second as [u2 t2 s2 d2 n2].
    cbn [override merged opt_scriptUrl opt_apiToken opt_hmacSecret opt_debug
         opt_timeout scriptUrl apiToken hmacSecret debug timeout].
    destruct u2, t2, s2, d2, n2; reflexivity.
  - rewrite configure_config. apply Config_eta.
Qed.

(** *** Batches *)

Lemma requestSequential_loop_acc (host : Host) (ps : list obj) :
  forall acc st,
    requestSequential_loop host ps acc st
    = match requestSequential_loop host ps [] st with
      | (Normal rs, st') => (Normal (acc ++ rs), st')
      | (Throw e, st') => (Throw e, st')
      end.
Proof.
  induction ps as [|p ps IH]; intros acc st; cbn [requestSequential_loop].
  - unfold ret. rewrite app_nil_r. reflexivity.
  - unfold bind. destruct (request host p st) as [[r|e] st1]; [|reflexivity].
    rewrite (IH (acc ++ [r]) st1), (IH ([] ++ [r]) st1).
    destruct (requestSequential_loop host ps [] st1) as [[rs|e] st2];
      [|reflexivity].
    rewrite <- app_assoc. reflexivity.
Qed.

Lemma requestSequential_loop_app (host : Host) (a b : list obj) :
  forall acc st,
    requestSequential_loop host (a ++ b) acc st
    = match requestSequential_loop host a acc st with
      | (Normal ra, st1) => requestSequential_loop host b ra st1
      | (Throw e, st1) => (Throw e, st1)
      end.
Proof.
  induction a as [|p a IH]; intros acc st;
    cbn [requestSequential_loop app].
  - reflexivity.
  - unfold bind. destruct (request host p st) as [[r|e] st1]; [|reflexivity].
    apply IH.
Qed.

(** X14. A batch that is the concatenation of two batches behaves like the first
    followed by the second from the state the first left: the results are
    concatenated, and a failure of the first keeps the second from
    running. *)
Theorem requestSequential_append (host : Host) (first second : list obj)
  (st : State) :
  requestSequential host (first ++ second) st
  = match requestSequential host first st with
    | (Normal results1, st1) =>
        match requestSequential host second st1 with
        | (Normal results2, st2) => (Normal (results1 ++ results2), st2)
        | (Throw e, st2) => (Throw e, st2)
        end
    | (Throw e, st1) => (Throw e, st1)
    end.
Proof.
  unfold requestSequential. rewrite requestSequential_loop_app.
  destruct (requestSequential_loop host first [] st) as [[r1|e] st1];
    [|reflexivity].
  apply requestSequential_loop_acc.
Qed.

Lemma request_guard (host : Host) (params : obj) (st : State) :
  scriptUrl (this_config st) = [] \/ apiToken (this_config st) = []
  \/ hmacSecret (this_config st) = [] ->
  request host params st
  = (Throw ConfigurationIncomplete,
     mkState (this_config st) (clock st) (fetches st)
       (trace st ++ [console_error [LStr (lit "GoogleSheetsSecureAPI:");
                                    LStr incomplete_message]])).
Proof.
  intros H. unfold request, bind, get_config. cbv beta iota.
  rewrite (incomplete_guard _ H). reflexivity.
Qed.

(** X15. An empty batch returns the empty array and does nothing, even when the
    configuration is incomplete; a batch with at least one member on an
    incomplete configuration throws ConfigurationIncomplete at its first
    member: one console line, no network call, and no later member is
    looked at. *)
Theorem requestSequential_edges (host : Host) (st : State) :
  requestSequential host [] st = (Normal [], st)
  /\ (scriptUrl (this_config st) = [] \/ apiToken (this_config st) = []
      \/ hmacSecret (this_config st) = [] ->
      forall params rest,
        requestSequential host (params :: rest) st
        = (Throw ConfigurationIncomplete,
           mkState (this_config st) (clock st) (fetches st)
             (trace st ++ [console_error [LStr (lit "GoogleSheetsSecureAPI:");
                                          LStr incomplete_message]]))).
Proof.
  split; [reflexivity|].
  intros H params rest. unfold requestSequential.
  cbn [requestSequential_loop]. unfold bind.
  rewrite (request_guard host params st H). reflexivity.
Qed.

Lemma requestSequential_edges_witness :
  apiToken (this_config Scenario.no_token) = []
  /\ fst (requestSequential Scenario.silent_host
            [Scenario.getData; Scenario.forged] Scenario.no_token)
     = Throw ConfigurationIncomplete
  /\ fetches (snd (requestSequential Scenario.silent_host
                     [Scenario.getData; Scenario.forged] Scenario.no_token))
     = 0%nat.
Proof.
  assert (H : apiToken (this_config Scenario.no_token) = []) by reflexivity.
  split; [exact H|].
  rewrite (proj2 (requestSequential_edges Scenario.silent_host
                    Scenario.no_token)
             (or_intror (or_introl H)) Scenario.getData [Scenario.forged]).
  split; reflexivity.
Defined.

Lemma requestSequential_calls_and_results_witness :
  exists results st',
    requestSequential Scenario.first_only [Scenario.getData] Scenario.state1
    = (Normal results, st')
    /\ List.length results = 1%nat.
Proof.
  eexists. eexists.
  assert (H : requestSequential Scenario.first_only [Scenario.getData]
                Scenario.state1
              = (Normal [Scenario.success_body],
                 snd (requestSequential Scenario.first_only [Scenario.getData]
                        Scenario.state1)))
    by (vm_compute; reflexivity).
  split; [exact H|].
  apply (proj2 (requestSequential_calls_and_results Scenario.first_only
                  [Scenario.getData] Scenario.state1) _ _ H).
Defined.
